(** * World storage and chunk codec core of dragonfly: a shallow embedding

    The development follows the Go sources:
    - [server/world/block_state.go]: property hashing and the block-state
      registry ([hashProperties], [registerBlockState], [StateToRuntimeID]),
      and the earlier revision of that file with [sort_blocks] and the
      batch [registerBlockStates];
    - the dimension registry ([newDimensionRegistry], [DimensionID]);
    - the chunk decoders ([decodePalettedStorage], [decodeBiomes],
      [decodeSubChunk], [DiskDecode], [NetworkDecode]);
    - [server/world/mcdb/db.go]: the LevelDB world provider ([index],
      [LoadChunk], [SaveChunk], [LoadEntities], [SaveEntities]).

    Go values are modelled as follows: a [string] is a Rocq [string] (a
    sequence of 8-bit characters), a [[]byte] is a [list byte], fixed-width
    integers are [Z] with the wrap-around written out, Go maps are [gmap]s,
    slices indexed in place are lists with stdpp's lookup and insert, and a
    panic is the [Panic] outcome. *)

From Stdlib Require Import ZArith Strings.Byte Strings.Ascii.
From stdpp Require Import base tactics option list sorting numbers countable
  strings gmap fin_maps.

Local Open Scope Z_scope.

(** ** Bytes and fixed-width integers *)

Module Bytes.

#[global] Instance byte_eq_dec : EqDecision byte := Byte.byte_eq_dec.

#[global] Program Instance byte_countable : Countable byte :=
  inj_countable Byte.to_N Byte.of_N _.
Next Obligation. intros x. apply Byte.of_to_N. Qed.

(** Conversion of an integer to [uint8]/[byte]: the low eight bits. *)
Definition u8 (z : Z) : byte :=
  default x00 (Byte.of_N (Z.to_N (z mod 256))).

Definition byteZ (b : byte) : Z := Z.of_N (Byte.to_N b).

(** Conversion to [uint32] and to [int8]. *)
Definition uint32 (z : Z) : Z := z mod 2 ^ 32.
Definition uint8 (z : Z) : Z := z mod 2 ^ 8.
Definition int8 (z : Z) : Z := (z + 128) mod 256 - 128.

(** [[]byte(s)] and [string(b)]. *)
Definition bytesOf (s : string) : list byte := String.list_byte_of_string s.

(** [binary.LittleEndian.PutUint32(b[off:], v)]: four in-place writes.
    The caller guarantees [off + 4 <= len(b)]. *)
Definition PutUint32 (off : nat) (v : Z) (b : list byte) : list byte :=
  <[(off + 3)%nat := u8 (Z.shiftr v 24)]>
    (<[(off + 2)%nat := u8 (Z.shiftr v 16)]>
       (<[(off + 1)%nat := u8 (Z.shiftr v 8)]>
          (<[off := u8 v]> b))).

(** [binary.LittleEndian.AppendUint64(b, v)]. *)
Definition AppendUint64 (b : list byte) (v : Z) : list byte :=
  b ++ map (fun i => u8 (Z.shiftr v (8 * Z.of_nat i))) (seq 0 8).

(** [binary.LittleEndian.Uint64(b)] on an eight-byte slice. *)
Definition Uint64 (b : list byte) : Z :=
  foldr (fun x acc => Z.lor (byteZ x) (Z.shiftl acc 8)) 0 b.

Definition uint64 (z : Z) : Z := z mod 2 ^ 64.
Definition int64 (z : Z) : Z := (z + 2 ^ 63) mod 2 ^ 64 - 2 ^ 63.

(** The little-endian image of an unsigned 32-bit value, as the on-disk
    key schema words it. *)
Definition little_endian_u32 (v : Z) : list byte :=
  [u8 v; u8 (v / 2 ^ 8); u8 (v / 2 ^ 16); u8 (v / 2 ^ 24)].

End Bytes.
Export Bytes.

(** ** Dimensions (the dimension registry) *)

Module Dimension.

(** The implementations of the [Dimension] interface. *)
Inductive Dimension :=
| overworld (legacy : bool)
| nether
| end_
| nopDim.

#[global] Instance Dimension_eq_dec : EqDecision Dimension.
Proof. solve_decision. Defined.

Definition Dimension_code (d : Dimension) : nat :=
  match d with
  | overworld false => 0 | overworld true => 1
  | nether => 2 | end_ => 3 | nopDim => 4
  end%nat.

Definition Dimension_decode (n : nat) : option Dimension :=
  match n with
  | 0 => Some (overworld false) | 1 => Some (overworld true)
  | 2 => Some nether | 3 => Some end_ | 4 => Some nopDim
  | _ => None
  end%nat.

#[global] Program Instance Dimension_countable : Countable Dimension :=
  inj_countable Dimension_code Dimension_decode _.
Next Obligation. by intros [[]| | |]. Qed.

Definition Overworld : Dimension := overworld false.
Definition Nether : Dimension := nether.
Definition End : Dimension := end_.
Definition Overworld_legacy : Dimension := overworld true.

(** Modelled from the spec: [cube.Range] (package [cube] is not among the
    sources) is the pair of the lowest and the highest Y coordinate that
    [range()] returns; [Height] is their difference. *)
Definition Range_ := (Z * Z)%type.
Definition Height (r : Range_) : Z := r.2 - r.1.

Definition Range (d : Dimension) : Range_ :=
  match d with
  | overworld true => (0, 255)
  | overworld false => (-64, 319)
  | nether => (0, 127)
  | end_ => (0, 255)
  | nopDim => (0, 0)
  end.

Record dimensionRegistry := {
  dimensions : gmap Z Dimension;
  IDs : gmap Dimension Z
}.

(** The body of the [for k, v := range dim] loop of
    [newDimensionRegistry]. *)
Definition registerID (ids : gmap Dimension Z) (kv : Z * Dimension)
  : gmap Dimension Z :=
  let '(k, v) := kv in
  let k := match v with
           | overworld true => k - 10
           | _ => k
           end in
  <[v := k]> ids.

(** [newDimensionRegistry], with the order in which the runtime ranges
    over the map made explicit. *)
Definition newDimensionRegistryIter (order : list (Z * Dimension))
    (dim : gmap Z Dimension) : dimensionRegistry :=
  {| dimensions := dim; IDs := foldl registerID ∅ order |}.

Definition newDimensionRegistry (dim : gmap Z Dimension) : dimensionRegistry :=
  newDimensionRegistryIter (map_to_list dim) dim.

(** The map literal passed to [newDimensionRegistry]. *)
Definition registeredDimensions : gmap Z Dimension :=
  <[0 := Overworld]> (<[1 := Nether]> (<[2 := End]>
    (<[10 := Overworld_legacy]> ∅))).

Definition dimensionReg : dimensionRegistry :=
  newDimensionRegistry registeredDimensions.

Definition Lookup (reg : dimensionRegistry) (id : Z) : Dimension * bool :=
  match dimensions reg !! id with
  | Some dim => (dim, true)
  | None => (Overworld, false)
  end.

(** A Go map read [id, ok := reg.IDs[dim]]: the zero value on a miss. *)
Definition LookupID (reg : dimensionRegistry) (dim : Dimension) : Z * bool :=
  match IDs reg !! dim with
  | Some id => (id, true)
  | None => (0, false)
  end.

Definition DimensionByID (id : Z) : Dimension * bool := Lookup dimensionReg id.
Definition DimensionID (dim : Dimension) : Z * bool := LookupID dimensionReg dim.

End Dimension.
Export Dimension.

(** ** Chunk index keys *)

Module Index.

(** [world.ChunkPos] is [[2]int32]. *)
Definition ChunkPos := (Z * Z)%type.

(** The method [index] of [DB]. *)
Definition index (position : ChunkPos) (d : Dimension) : list byte :=
  let dim := (DimensionID d).1 in
  let x := uint32 position.1 in
  let z := uint32 position.2 in
  let b := replicate 12 x00 in
  let b := PutUint32 0 x b in
  let b := PutUint32 4 z b in
  if decide (dim = 0) then take 8 b
  else PutUint32 8 (uint32 dim) b.

End Index.
Export Index.

(** ** Outcomes of Go calls *)

Module Outcome.

(** A call either returns a value or panics. *)
Inductive outcome (A : Type) :=
| Return (a : A)
| Panic (reason : string).
Arguments Return {A} a.
Arguments Panic {A} reason.

(** Sequencing: a panic aborts what follows. *)
#[global] Instance outcome_bind : MBind outcome := fun A B f m =>
  match m with
  | Return a => f a
  | Panic r => Panic r
  end.

(** Go's [error] values.  [Wrap ctx e] is [fmt.Errorf(ctx + ": %w", e)]. *)
Inductive error :=
| ErrNotFound
| ErrStore (cause : string)
| ErrCodec (cause : string)
| Errorf (msg : string)
| Wrap (ctx : string) (e : error).

#[global] Instance error_eq_dec : EqDecision error.
Proof. solve_decision. Defined.

(** The error of a result, [None] for nil. *)
Definition inl_err {A} (res : error + A) : option error :=
  match res with
  | inl err => Some err
  | inr _ => None
  end.

Definition is_inl {A} (res : error + A) : Prop := is_Some (inl_err res).

#[global] Instance is_inl_dec {A} (res : error + A) : Decision (is_inl res).
Proof. unfold is_inl. apply _. Defined.

End Outcome.
Export Outcome.


(** ** Block states: property hashing and the registry *)

Module BlockState.

(** A property value held in a [map[string]any]: the four scalar types
    that [hashProperties] accepts, and [VOther] for a value of any other
    dynamic type. *)
Inductive Value :=
| VBool (v : bool)
| VUint8 (v : byte)
| VInt32 (v : Z)
| VString (v : string)
| VOther.

#[global] Instance Value_eq_dec : EqDecision Value.
Proof. solve_decision. Defined.

(** A [map[string]any]; [None] is the nil map. *)
Definition Properties := option (gmap string Value).

(** A map read [properties[k]]. *)
Definition get (properties : Properties) (k : string) : option Value :=
  m ← properties; m !! k.

(** The keys of the map, in the order in which [map_to_list] lists them. *)
Definition keysOf (properties : Properties) : list string :=
  match properties with
  | None => []
  | Some m => (map_to_list m).*1
  end.

Definition byteString (b : byte) : string :=
  String (ascii_of_byte b) EmptyString.

(** The four bytes of an [int32] in memory (little-endian host), as read
    through the [unsafe.Pointer] cast. *)
Definition int32Bytes (v : Z) : string :=
  String.string_of_list_byte
    [u8 v; u8 (Z.shiftr v 8); u8 (Z.shiftr v 16); u8 (Z.shiftr v 24)].

(** The [switch v := properties[k].(type)] of [hashProperties], writing to
    the builder [b]; [None] is the panic of the default case. *)
Definition writeProperty (b : string) (v : option Value) : option string :=
  match v with
  | Some (VBool true) => Some (b +:+ byteString x01)
  | Some (VBool false) => Some (b +:+ byteString x00)
  | Some (VUint8 v) => Some (b +:+ byteString v)
  | Some (VInt32 v) => Some (b +:+ int32Bytes v)
  | Some (VString v) => Some (b +:+ v)
  | Some VOther | None => None
  end.

(** The loop [for _, k := range keys]. *)
Fixpoint writeProperties (properties : Properties) (keys : list string)
    (b : string) : option string :=
  match keys with
  | [] => Some b
  | k :: keys =>
      match writeProperty b (get properties k) with
      | Some b => writeProperties properties keys b
      | None => None
      end
  end.

(** [sort.Slice(keys, func(i, j) bool { return keys[i] < keys[j] })]:
    the keys in ascending byte-wise order. *)
Definition sortKeys (keys : list string) : list string :=
  merge_sort String.le keys.

(** [hashProperties], where [iter] is the order in which
    [for k := range properties] yields the keys. *)
Definition hashPropertiesIter (iter : list string) (properties : Properties)
    : outcome string :=
  match properties with
  | None => Return EmptyString
  | Some _ =>
      let keys := sortKeys iter in
      match writeProperties properties keys EmptyString with
      | Some b => Return b
      | None => Panic "invalid block property type"
      end
  end.

Definition hashProperties (properties : Properties) : outcome string :=
  hashPropertiesIter (keysOf properties) properties.

(** Building a map by successive assignments [m[k] = v]. *)
Definition assign (m : gmap string Value) (kv : string * Value)
    : gmap string Value := <[kv.1 := kv.2]> m.
Definition makeMap (kvs : list (string * Value)) : Properties :=
  Some (foldl assign ∅ kvs).

Record blockState := {
  Name : string;
  Properties_ : Properties;
  Version : Z
}.

(** [stateHash]: the name and the hashed properties. *)
Abbreviation stateHash := (string * string)%type.

(** The package-level registry variables that the lookups use. *)
Record Registry := {
  blockProperties : gmap string Properties;
  blocks : list blockState;
  stateRuntimeIDs : gmap stateHash Z
}.

(** [ClearStates]. *)
Definition ClearStates : Registry :=
  {| blockProperties := ∅; blocks := []; stateRuntimeIDs := ∅ |}.

(** [registerBlockState]. *)
Definition registerBlockState (s : blockState) (reg : Registry)
    : outcome Registry :=
  hp ← hashProperties (Properties_ s);
  let h : stateHash := (Name s, hp) in
  match stateRuntimeIDs reg !! h with
  | Some _ => Panic "cannot register the same state twice"
  | None =>
      let bp := match blockProperties reg !! Name s with
                | Some _ => blockProperties reg
                | None => <[Name s := Properties_ s]> (blockProperties reg)
                end in
      let rid := uint32 (Z.of_nat (length (blocks reg))) in
      Return {| blockProperties := bp;
                blocks := blocks reg ++ [s];
                stateRuntimeIDs := <[h := rid]> (stateRuntimeIDs reg) |}
  end.

(** Registering a sequence of states, as [LoadBlockStates] does with the
    records of the embedded catalogue. *)
Fixpoint registerBlockStates (ss : list blockState) (reg : Registry)
    : outcome Registry :=
  match ss with
  | [] => Return reg
  | s :: ss => reg ← registerBlockState s reg; registerBlockStates ss reg
  end.

(** The function stored in [chunk.StateToRuntimeID].  A read of
    [blockProperties[name]] for an unknown name yields the nil map. *)
Definition StateToRuntimeID (reg : Registry) (name : string)
    (properties : Properties) : outcome (Z * bool) :=
  hp ← hashProperties properties;
  match stateRuntimeIDs reg !! (name, hp) with
  | Some rid => Return (rid, true)
  | None =>
      hd ← hashProperties (default None (blockProperties reg !! name));
      match stateRuntimeIDs reg !! (name, hd) with
      | Some rid => Return (rid, true)
      | None => Return (0, false)
      end
  end.

(** The function stored in [chunk.RuntimeIDToState].  The blocks that
    [registerBlockState] appends are [UnknownBlock]s, whose [EncodeBlock]
    returns the name and the properties of the state. *)
Definition RuntimeIDToState (reg : Registry) (runtimeID : Z)
    : outcome (string * Properties * bool) :=
  if decide (uint32 (Z.of_nat (length (blocks reg))) <= runtimeID) then
    Return (EmptyString, None, false)
  else
    match blocks reg !! Z.to_nat runtimeID with
    | Some b => Return (Name b, Properties_ b, true)
    | None => Panic "index out of range"
    end.

(** [strings.Split(s, ":")]: the pieces of [s] between its colons, one
    more than there are colons. *)
Fixpoint splitColon (s : string) : list string :=
  match s with
  | EmptyString => [EmptyString]
  | String c s =>
      if decide (c = ":"%char) then EmptyString :: splitColon s
      else
        match splitColon s with
        | piece :: pieces => String c piece :: pieces
        | [] => [String c EmptyString]
        end
  end.

(** [splitNamespace]: [ns_name[0]] and [ns_name[len(ns_name)-1]]. *)
Definition splitNamespace (identifier : string) : string * string :=
  let ns_name := splitColon identifier in
  (default EmptyString (head ns_name), default EmptyString (last ns_name)).

End BlockState.
Export BlockState.

(** ** Block states: the revision with sorted and batch registration

    An earlier revision of the registry keeps, beside the blocks and
    their runtime IDs, the per-block slices, the water blocks, the air
    runtime ID and the table of block hashes, and registers states one
    at a time ([registerBlockState], with an [order] flag) or in a batch
    ([registerBlockStates]). *)

Module SortedRegistry.

(** The six slices indexed by runtime ID that a registration extends. *)
Record Flags := {
  nbtBlocks : list bool;
  randomTickBlocks : list bool;
  liquidBlocks : list bool;
  liquidDisplacingBlocks : list bool;
  FilteringBlocks : list Z;
  LightBlocks : list Z
}.

(** The package-level variables.  The blocks are the [unknownBlock]s
    that the registrations append, each holding its state; [hashes] is
    the int-to-int map that [hashes.Put] writes. *)
Record Registry := {
  blocks : list blockState;
  stateRuntimeIDs : gmap stateHash Z;
  flags : Flags;
  WaterBlocks : list Z;
  airRID : Z;
  hashes : gmap Z Z
}.

(** An index expression [s[i]]. *)
Definition elemAt {A} (s : list A) (i : Z) : outcome A :=
  match (if decide (0 <= i) then s !! Z.to_nat i else None) with
  | Some a => Return a
  | None => Panic "index out of range"
  end.

(** [slices.Insert(s, i, v)], which panics when [i] is out of range. *)
Definition slicesInsert {A} (s : list A) (i : Z) (v : A) : outcome (list A) :=
  if decide (0 <= i <= Z.of_nat (length s)) then
    Return (take (Z.to_nat i) s ++ v :: drop (Z.to_nat i) s)
  else Panic "slice bounds out of range".

(** The six [slices.Insert] calls of a registration. *)
Definition insertFlags (rid : Z) (f : Flags) : outcome Flags :=
  nbt ← slicesInsert (nbtBlocks f) rid false;
  randomTick ← slicesInsert (randomTickBlocks f) rid false;
  liquid ← slicesInsert (liquidBlocks f) rid false;
  liquidDisplacing ← slicesInsert (liquidDisplacingBlocks f) rid false;
  filtering ← slicesInsert (FilteringBlocks f) rid 15;
  light ← slicesInsert (LightBlocks f) rid 0;
  Return {| nbtBlocks := nbt; randomTickBlocks := randomTick;
            liquidBlocks := liquid; liquidDisplacingBlocks := liquidDisplacing;
            FilteringBlocks := filtering; LightBlocks := light |}.

(** [unknownBlock.Hash]: [math.MaxUint64]. *)
Definition Hash (b : blockState) : Z := 2 ^ 64 - 1.

Section Sorting.

(** [fnv.New64], [Write] and [Sum64]: the 64-bit hash of the bytes
    written. *)
Variable Sum64 : list byte -> Z.

(** [sort.SliceStable(blocks, less)]; [less] reads the slice that is
    being sorted. *)
Variable SliceStable :
  (list blockState -> Z -> Z -> outcome bool) -> list blockState ->
  outcome (list blockState).

(** [sort_blocks]. *)
Definition sort_blocks (blocks : list blockState) (i j : Z) : outcome bool :=
  one ← elemAt blocks i;
  let nameOne := Name one in
  two ← elemAt blocks j;
  let nameTwo := Name two in
  let h1 := Sum64 (bytesOf nameOne) in
  let h2 := Sum64 (bytesOf nameTwo) in
  Return (bool_decide (nameOne = nameTwo) && bool_decide (h1 < h2)).

(** The loop [for id, b := range blocks] of [registerBlockState], run
    when [order] is set; [h] is the hash of the state registered. *)
Fixpoint reindex (h : stateHash) (bs : list blockState) (id : Z)
    (rid air : Z) (ids : gmap stateHash Z) (hs : gmap Z Z)
    : outcome (Z * Z * gmap stateHash Z * gmap Z Z) :=
  match bs with
  | [] => Return (rid, air, ids, hs)
  | b :: bs =>
      let name := Name b in
      hp ← hashProperties (Properties_ b);
      let i : stateHash := (name, hp) in
      let air := if decide (name = "minecraft:air") then uint32 id else air in
      let rid := if decide (i = h) then uint32 id else rid in
      reindex h bs (id + 1) rid air (<[i := uint32 id]> ids)
        (<[int64 (Hash b) := id]> hs)
  end.

(** [registerBlockState]. *)
Definition registerBlockState (s : blockState) (order : bool) (reg : Registry)
    : outcome Registry :=
  hp ← hashProperties (Properties_ s);
  let h : stateHash := (Name s, hp) in
  match stateRuntimeIDs reg !! h with
  | Some _ => Panic "cannot register the same state twice"
  | None =>
      let rid := uint32 (Z.of_nat (length (blocks reg))) in
      let air := if decide (Name s = "minecraft:air") then rid
                 else airRID reg in
      let water := if decide (Name s = "minecraft:water")
                   then WaterBlocks reg ++ [rid] else WaterBlocks reg in
      let bs := blocks reg ++ [s] in
      '(bs, rid, air, ids, hs) ←
        (if order then
           bs ← SliceStable sort_blocks bs;
           '(rid, air, ids, hs) ←
             reindex h bs 0 rid air (stateRuntimeIDs reg) (hashes reg);
           Return (bs, rid, air, ids, hs)
         else Return (bs, rid, air, stateRuntimeIDs reg, hashes reg));
      f ← insertFlags rid (flags reg);
      Return {| blocks := bs; stateRuntimeIDs := <[h := rid]> ids;
                flags := f; WaterBlocks := water; airRID := air;
                hashes := hs |}
  end.

(** The loop of [init]: the states of the catalogue registered one at a
    time, without ordering. *)
Fixpoint registerEach (ss : list blockState) (reg : Registry)
    : outcome Registry :=
  match ss with
  | [] => Return reg
  | s :: ss => reg ← registerBlockState s false reg; registerEach ss reg
  end.

(** The first loop of [registerBlockStates]: every state is appended to
    the blocks and its hash is entered in [map_rids]. *)
Fixpoint appendStates (ss : list blockState) (blocks : list blockState)
    (map_rids : gmap stateHash Z)
    : outcome (list blockState * gmap stateHash Z) :=
  match ss with
  | [] => Return (blocks, map_rids)
  | s :: ss =>
      let blocks := blocks ++ [s] in
      hp ← hashProperties (Properties_ s);
      appendStates ss blocks (<[(Name s, hp) := 0]> map_rids)
  end.

(** The second loop of [registerBlockStates], over all blocks. *)
Fixpoint assignIDs (bs : list blockState) (id : Z)
    (map_rids : gmap stateHash Z) (reg : Registry) : outcome Registry :=
  match bs with
  | [] => Return reg
  | b :: bs =>
      let name := Name b in
      hp ← hashProperties (Properties_ b);
      let i : stateHash := (name, hp) in
      let rid := uint32 id in
      let air := if decide (name = "minecraft:air") then rid
                 else airRID reg in
      '(map_rids, f) ←
        match map_rids !! i with
        | Some _ =>
            match stateRuntimeIDs reg !! i with
            | Some _ => Panic "cannot register the same state twice"
            | None =>
                f ← insertFlags rid (flags reg);
                Return (<[i := rid]> map_rids, f)
            end
        | None => Return (map_rids, flags reg)
        end;
      assignIDs bs (id + 1) map_rids
        {| blocks := blocks reg;
           stateRuntimeIDs := <[i := rid]> (stateRuntimeIDs reg);
           flags := f; WaterBlocks := WaterBlocks reg; airRID := air;
           hashes := <[int64 (Hash b) := id]> (hashes reg) |}
  end.

(** [registerBlockStates]. *)
Definition registerBlockStates (ss : list blockState) (reg : Registry)
    : outcome Registry :=
  '(bs, map_rids) ← appendStates ss (blocks reg) ∅;
  bs ← SliceStable sort_blocks bs;
  assignIDs bs 0 map_rids
    {| blocks := bs; stateRuntimeIDs := stateRuntimeIDs reg;
       flags := flags reg; WaterBlocks := WaterBlocks reg;
       airRID := airRID reg; hashes := hashes reg |}.

End Sorting.

(** The functions that [init] stores in [chunk.RuntimeIDToState] and
    [chunk.StateToRuntimeID]. *)
Definition RuntimeIDToState (reg : Registry) (runtimeID : Z)
    : outcome (string * Properties * bool) :=
  if decide (uint32 (Z.of_nat (length (blocks reg))) <= runtimeID) then
    Return (EmptyString, None, false)
  else
    match blocks reg !! Z.to_nat runtimeID with
    | Some b => Return (Name b, Properties_ b, true)
    | None => Panic "index out of range"
    end.

Definition StateToRuntimeID (reg : Registry) (name : string)
    (properties : Properties) : outcome (Z * bool) :=
  hp ← hashProperties properties;
  match stateRuntimeIDs reg !! (name, hp) with
  | Some rid => Return (rid, true)
  | None => Return (0, false)
  end.

End SortedRegistry.

(** ** NBT values and the NBT codec *)

Module Nbt.

(** The values of a decoded compound ([map[string]any]) that the provider
    inspects; every other tag is kept as [TagOther]. *)
Inductive Tag :=
| TagByte (v : byte)
| TagInt32 (v : Z)
| TagInt64 (v : Z)
| TagString (v : string)
| TagOther (raw : list byte).

Inductive NbtEncoding := LittleEndian | NetworkLittleEndian | BigEndian.

(** The NBT library of gophertunnel, reading from and writing to a
    [bytes.Buffer].  [nbtDecode enc allowZero buf] is one call of
    [Decoder.Decode]: the compound read and the unread rest of the
    buffer, or an error.  A successful call reads at least the tag
    byte. *)
Class NbtCodec := {
  nbtDecode : NbtEncoding -> bool -> list byte ->
              error + (gmap string Tag * list byte);
  nbtEncode : NbtEncoding -> gmap string Tag -> error + list byte;
  nbtDecode_progress : forall enc az buf m rest,
    nbtDecode enc az buf = inr (m, rest) ->
    (length rest < length buf)%nat
}.

End Nbt.
Export Nbt.

(** ** Chunks and their decoders *)

Module Chunk.

Inductive Encoding := DiskEncoding | NetworkEncoding | NetworkPersistentEncoding.
Inductive paletteEncoding := BlockPaletteEncoding | BiomePaletteEncoding.

#[global] Instance Encoding_eq_dec : EqDecision Encoding.
Proof. solve_decision. Defined.

Record Palette := {
  size : Z;
  values : list Z
}.

Record PalettedStorage := {
  indices : list Z;
  palette : Palette
}.

(** A sub chunk; a [None] storage is a nil [*PalettedStorage]. *)
Record SubChunk := {
  sub_air : Z;
  storages : list (option PalettedStorage)
}.

Record Chunk := {
  r : Range_;
  air : Z;
  sub : list SubChunk;
  biomes : list (option PalettedStorage)
}.

Record SerialisedData := {
  SubChunks : list (list byte);
  Biomes : list byte
}.

(** The parts of the chunk package that the decoders call: the word count
    of a palette size, the palette decoder of an [Encoding], the
    constructors [New] and [NewSubChunk], [Chunk.SetBiome] (which writes
    biome storages only) and [Encode]. *)
Class ChunkCodec := {
  uint32s : Z -> nat;
  decodePalette : Encoding -> list byte -> Z -> paletteEncoding ->
                  error + (Palette * list byte);
  New : Z -> Range_ -> Chunk;
  NewSubChunk : Z -> SubChunk;
  SetBiome : Chunk -> Z -> Z -> Z -> Z -> Chunk;
  Encode : Chunk -> Encoding -> SerialisedData;
  SetBiome_sub : forall c x y z id, sub (SetBiome c x y z id) = sub c
}.

(** [newPalettedStorage]. *)
Definition newPalettedStorage (indices : list Z) (p : Palette) : PalettedStorage :=
  {| indices := indices; palette := p |}.

Definition withSub (c : Chunk) (s : list SubChunk) : Chunk :=
  {| r := r c; air := air c; sub := s; biomes := biomes c |}.
Definition withBiomes (c : Chunk) (b : list (option PalettedStorage)) : Chunk :=
  {| r := r c; air := air c; sub := sub c; biomes := b |}.

(** [uint32(data[i*4]) | uint32(data[i*4+1])<<8 | uint32(data[i*4+2])<<16 |
    uint32(data[i*4+3])<<24]. *)
Definition word32 (data : list byte) (i : nat) : Z :=
  let at_ k := byteZ (default x00 (data !! (i * 4 + k)%nat)) in
  Z.lor (Z.lor (Z.lor (at_ 0%nat) (Z.shiftl (at_ 1%nat) 8))
               (Z.shiftl (at_ 2%nat) 16))
        (Z.shiftl (at_ 3%nat) 24).

Section Decode.
Context `{ChunkCodec}.

(** [decodePalettedStorage]: the storage (nil for the marker pointing to
    the previous storage) and the unread rest of the buffer. *)
Definition decodePalettedStorage (buf : list byte) (e : Encoding)
    (pe : paletteEncoding)
    : error + (option PalettedStorage * list byte) :=
  match buf with
  | [] => inl (Wrap "error reading block size" (Errorf "EOF"))
  | blockSize :: buf =>
      let e := if decide (e = NetworkEncoding ∧
                          Z.land (byteZ blockSize) 1 ≠ 1)
               then NetworkPersistentEncoding else e in
      let blockSize := Z.shiftr (byteZ blockSize) 1 in
      if decide (blockSize = 127) then inr (None, buf)
      else
        let uint32Count := uint32s blockSize in
        let byteCount := (uint32Count * 4)%nat in
        let data := take byteCount buf in
        let buf := drop byteCount buf in
        if decide (length data ≠ byteCount) then
          inl (Errorf "cannot read paletted storage: not enough block data present")
        else
          let uint32s := word32 data <$> seq 0 uint32Count in
          match decodePalette e buf blockSize pe with
          | inl err => inl err
          | inr (p, buf) => inr (Some (newPalettedStorage uint32s p), buf)
          end
  end.

(** The loop over the biome storages, which [decodeBiomes] and
    [NetworkDecode] both spell out: from index [i] on, over the [n]
    remaining storages. *)
Fixpoint biomesLoop (n i : nat) (last : option PalettedStorage)
    (buf : list byte) (bs : list (option PalettedStorage)) (e : Encoding)
    : outcome (error + (list (option PalettedStorage) * list byte)) :=
  match n with
  | O => Return (inr (bs, buf))
  | S n =>
      match decodePalettedStorage buf e BiomePaletteEncoding with
      | inl err => Return (inl err)
      | inr (b, buf) =>
          if decide (i = 0%nat ∧ b = None) then
            Return (inl (Errorf "first biome storage pointed to previous one"))
          else
            let '(b, last) := match b with
                              | None => (last, last)
                              | Some _ => (b, b)
                              end in
            if decide (length bs <= i)%nat then Panic "index out of range"
            else biomesLoop n (S i) last buf (<[i := b]> bs) e
      end
  end.

(** [decodeBiomes]: the chunk with the decoded biome storages. *)
Definition decodeBiomes (buf : list byte) (c : Chunk) (e : Encoding)
    : outcome (error + Chunk) :=
  if decide (length buf ≠ 0%nat) then
    res ← biomesLoop (length (sub c)) 0 None buf (biomes c) e;
    match res with
    | inl err => Return (inl err)
    | inr (bs, _) => Return (inr (withBiomes c bs))
    end
  else Return (inr c).

Definition networkBiomesLoop (n i : nat) (last : option PalettedStorage)
    (buf : list byte) (bs : list (option PalettedStorage)) :=
  biomesLoop n i last buf bs NetworkEncoding.

(** The loop [for i := byte(0); i < storageCount; i++] of
    [decodeSubChunk]. *)
Fixpoint decodeStorages (n : nat) (buf : list byte) (e : Encoding)
    : error + (list (option PalettedStorage) * list byte) :=
  match n with
  | O => inr ([], buf)
  | S n =>
      match decodePalettedStorage buf e BlockPaletteEncoding with
      | inl err => inl err
      | inr (s, buf) =>
          match decodeStorages n buf e with
          | inl err => inl err
          | inr (ss, buf) => inr (s :: ss, buf)
          end
      end
  end.

(** [decodeSubChunk].  The second component is the value of [*index]
    when the call returns. *)
Definition decodeSubChunk (buf : list byte) (c : Chunk) (index : Z)
    (e : Encoding) : (error + (SubChunk * list byte)) * Z :=
  match buf with
  | [] => (inl (Wrap "error reading version" (Errorf "EOF")), index)
  | ver :: buf =>
      let sub := NewSubChunk (air c) in
      if decide (byteZ ver = 1) then
        match decodePalettedStorage buf e BlockPaletteEncoding with
        | inl err => (inl err, index)
        | inr (storage, buf) =>
            (inr ({| sub_air := sub_air sub;
                     storages := storages sub ++ [storage] |}, buf), index)
        end
      else if decide (byteZ ver = 8 ∨ byteZ ver = 9) then
        match buf with
        | [] => (inl (Wrap "error reading storage count" (Errorf "EOF")), index)
        | storageCount :: buf =>
            let rd :=
              if decide (byteZ ver = 9) then
                match buf with
                | [] => inl (Wrap "error reading sub-chunk index" (Errorf "EOF"))
                | uIndex :: buf =>
                    inr (uint8 (int8 (int8 (byteZ uIndex)
                                      - int8 (Z.shiftr (r c).1 4))), buf)
                end
              else inr (index, buf) in
            match rd with
            | inl err => (inl err, index)
            | inr (index, buf) =>
                match decodeStorages (Z.to_nat (byteZ storageCount)) buf e with
                | inl err => (inl err, index)
                | inr (ss, buf) =>
                    (inr ({| sub_air := sub_air sub; storages := ss |}, buf),
                     index)
                end
            end
        end
      else (inl (Errorf "unknown sub chunk version: can't decode"), index)
  end.

(** The assignment [c.sub[index], err = decodeSubChunk(buf, c, &index, e)]:
    the index operand is read after the call has written [*index], and
    the store panics when it is out of range.  The result is the error,
    or the chunk with the decoded sub chunk, the index and the rest of
    the buffer. *)
Definition assignSubChunk (buf : list byte) (c : Chunk) (index : Z)
    (e : Encoding) : outcome (error + (Chunk * Z * list byte)) :=
  let '(res, index) := decodeSubChunk buf c index e in
  if decide (length (sub c) <= Z.to_nat index)%nat then
    Panic "index out of range"
  else
    match res with
    | inl err => Return (inl err)
    | inr (s, buf) =>
        Return (inr (withSub c (<[Z.to_nat index := s]> (sub c)), index, buf))
    end.

(** The loop [for i, sub := range data.SubChunks] of [DiskDecode]. *)
Fixpoint diskSubChunks (subs : list (list byte)) (i : nat) (c : Chunk)
    : outcome (error + Chunk) :=
  match subs with
  | [] => Return (inr c)
  | s :: subs =>
      if decide (length s = 0%nat) then diskSubChunks subs (S i) c
      else
        res ← assignSubChunk s c (uint8 (Z.of_nat i)) DiskEncoding;
        match res with
        | inl err => Return (inl err)
        | inr (c, _, _) => diskSubChunks subs (S i) c
        end
  end.

(** [DiskDecode], given the registry behind [StateToRuntimeID]. *)
Definition DiskDecode (reg : Registry) (data : SerialisedData) (r : Range_)
    : outcome (error + Chunk) :=
  airok ← StateToRuntimeID reg "minecraft:air" None;
  if negb airok.2 then Panic "cannot find air runtime ID"
  else
    let c := New airok.1 r in
    res ← decodeBiomes (Biomes data) c DiskEncoding;
    match res with
    | inl err => Return (inl err)
    | inr c => diskSubChunks (SubChunks data) 0 c
    end.

(** [DecodeSubChunk]: [decodeSubChunk] on a chunk that has the air
    runtime ID and the range only. *)
Definition DecodeSubChunk (buf : list byte) (air : Z) (r : Range_)
    (index : Z) (e : Encoding) : (error + (SubChunk * list byte)) * Z :=
  decodeSubChunk buf {| r := r; air := air; sub := []; biomes := [] |}
    index e.

End Decode.

Definition int16 (z : Z) : Z := (z + 2 ^ 15) mod 2 ^ 16 - 2 ^ 15.

Section NetworkDecode.
Context `{ChunkCodec} `{NbtCodec}.

(** The package variable [ridHashLookup]; a read of an absent key gives
    the zero value. *)
Variable ridHashLookup : gmap Z Z.

Definition lookupRid (v : Z) : Z := default 0 (ridHashLookup !! v).

(** [for i2, v := range storage.palette.values
       { storage.palette.values[i2] = ridHashLookup[v] }]. *)
Definition remapValues (vals : list Z) : list Z :=
  foldl (fun vals i2 =>
           match vals !! i2 with
           | Some v => <[i2 := lookupRid v]> vals
           | None => vals
           end) vals (seq 0 (length vals)).

(** The body of [for _, storage := range c.sub[index].storages]; a nil
    storage is dereferenced. *)
Definition remapStorage (storage : option PalettedStorage)
    : outcome (option PalettedStorage) :=
  match storage with
  | None => Panic "nil pointer dereference"
  | Some st =>
      Return (Some {| indices := indices st;
                      palette := {| size := size (palette st);
                                    values := remapValues (values (palette st)) |} |})
  end.

Fixpoint remapStorages (ss : list (option PalettedStorage))
    : outcome (list (option PalettedStorage)) :=
  match ss with
  | [] => Return []
  | st :: ss =>
      st ← remapStorage st;
      ss ← remapStorages ss;
      Return (st :: ss)
  end.

(** [if hashedRids { ... }] for the sub chunk just stored at [index]. *)
Definition remapSubChunk (c : Chunk) (index : Z) : outcome Chunk :=
  match sub c !! Z.to_nat index with
  | None => Panic "index out of range"
  | Some s =>
      ss ← remapStorages (storages s);
      Return (withSub c (<[Z.to_nat index :=
                             {| sub_air := sub_air s; storages := ss |}]> (sub c)))
  end.

(** The loop [for i := 0; i < count; i++] of [NetworkDecode], from [i]
    on, over the [n] remaining iterations. *)
Fixpoint networkSubChunks (n i : nat) (buf : list byte) (c : Chunk)
    (hashedRids : bool) : outcome (error + (Chunk * list byte)) :=
  match n with
  | O => Return (inr (c, buf))
  | S n =>
      res ← assignSubChunk buf c (uint8 (Z.of_nat i)) NetworkEncoding;
      match res with
      | inl err => Return (inl err)
      | inr (c, index, buf) =>
          c ← (if hashedRids then remapSubChunk c index else Return c);
          networkSubChunks n (S i) buf c hashedRids
      end
  end.

(** [buf.Read(biomes[:])] into a zeroed 256-byte slice. *)
Definition readOldBiomes (buf : list byte) : error + (list byte * list byte) :=
  match buf with
  | [] => inl (Wrap "error reading biomes" (Errorf "EOF"))
  | _ =>
      let got := take 256 buf in
      inr (got ++ replicate (256 - length got) x00, drop 256 buf)
  end.

(** The three nested loops that make the 2D biomes 3D, over the range
    [rg] passed to [NetworkDecode]. *)
Definition setOldBiomes (biomes : list byte) (rg : Range_) (c : Chunk) : Chunk :=
  foldl (fun c x =>
    foldl (fun c z =>
      let id := default x00
                  (biomes !! Z.to_nat (Z.lor (Z.land x 15)
                                             (Z.shiftl (Z.land z 15) 4))) in
      foldl (fun c k =>
               let y := rg.1 + Z.of_nat k in
               SetBiome c (uint8 x) (int16 y) (uint8 z) (uint32 (byteZ id)))
            c (seq 0 (Z.to_nat (rg.2 - rg.1 + 1))))
      c (Z.of_nat <$> seq 0 16))
    c (Z.of_nat <$> seq 0 16).

(** The loop [for buf.Len() > 0] reading the block entity compounds.
    [fuel] bounds the number of iterations; the length of the buffer
    is enough since every decoded compound takes at least one byte. *)
Fixpoint blockNBTLoop (fuel : nat) (buf : list byte)
    (blockNBTs : list (gmap string Tag))
    : error + list (gmap string Tag) :=
  match fuel with
  | O => inr blockNBTs
  | S fuel =>
      match buf with
      | [] => inr blockNBTs
      | _ =>
          match nbtDecode NetworkLittleEndian true buf with
          | inl err => inl err
          | inr (blockNBT, buf) =>
              blockNBTLoop fuel buf
                (if decide (0 < base.size blockNBT)%nat
                 then blockNBTs ++ [blockNBT] else blockNBTs)
          end
      end
  end.

(** [NetworkDecode]. *)
Definition NetworkDecode (air : Z) (data : list byte) (count : Z)
    (oldBiomes hashedRids : bool) (r : Range_)
    : outcome (error + (Chunk * list (gmap string Tag))) :=
  let c := New air r in
  res ← networkSubChunks (Z.to_nat count) 0 data c hashedRids;
  match res with
  | inl err => Return (inl err)
  | inr (c, buf) =>
      res ← (if oldBiomes then
               match readOldBiomes buf with
               | inl err => Return (inl err)
               | inr (biomes, buf) => Return (inr (setOldBiomes biomes r c, buf))
               end
             else
               res ← networkBiomesLoop (length (sub c)) 0 None buf (biomes c);
               match res with
               | inl err => Return (inl err)
               | inr (bs, buf) => Return (inr (withBiomes c bs, buf))
               end);
      match res with
      | inl err => Return (inl err)
      | inr (c, buf) =>
          match blockNBTLoop (length buf) buf [] with
          | inl err => Return (inl err)
          | inr blockNBTs => Return (inr (c, blockNBTs))
          end
      end
  end.

End NetworkDecode.

End Chunk.
Export Chunk.

(** ** The key-value store *)

Module LevelDB.

(** The store: its contents, and the failures still to come.  Every
    operation takes the head of [faults]; [Some cause] makes that
    operation fail with a store error and leave the contents as they
    are.  An exhausted schedule means no further failure. *)
Record DB := {
  kv : gmap (list byte) (list byte);
  faults : list (option string)
}.

Definition nextFault (db : DB) : option string * DB :=
  match faults db with
  | [] => (None, db)
  | f :: fs => (f, {| kv := kv db; faults := fs |})
  end.

(** [Get]: the value, [ErrNotFound] for an absent key, or a store error. *)
Definition Get (key : list byte) (db : DB) : (error + list byte) * DB :=
  let '(f, db) := nextFault db in
  match f with
  | Some cause => (inl (ErrStore cause), db)
  | None =>
      match kv db !! key with
      | Some v => (inr v, db)
      | None => (inl ErrNotFound, db)
      end
  end.

Definition Put (key value : list byte) (db : DB) : option error * DB :=
  let '(f, db) := nextFault db in
  match f with
  | Some cause => (Some (ErrStore cause), db)
  | None => (None, {| kv := <[key := value]> (kv db); faults := faults db |})
  end.

Definition Delete (key : list byte) (db : DB) : option error * DB :=
  let '(f, db) := nextFault db in
  match f with
  | Some cause => (Some (ErrStore cause), db)
  | None => (None, {| kv := delete key (kv db); faults := faults db |})
  end.

End LevelDB.

(** ** The world provider *)

Module Mcdb.
Import LevelDB.

(** Modelled from the spec: the one-byte key tags of the key schema (the
    file declaring [keyVersion], [keySubChunkData] and the others is not
    among the sources). *)
Definition keySubChunkData : byte := x2c.
Definition key3DData : byte := x2b.
Definition keyVersion : byte := x2f.
Definition keyVersionOld : byte := x76.
Definition keyFinalisation : byte := x36.
Definition keyBlockEntities : byte := x31.
Definition keyEntities : byte := x32.

(** What [Log.Errorf] is called with in [loadEntity]. *)
Inductive LogEntry :=
| LogNoIdentifier (pos : ChunkPos) (m : gmap string Tag)
| LogNotRegistered (pos : ChunkPos) (name : string) (m : gmap string Tag).

Section Provider.
Context `{ChunkCodec} `{NbtCodec}.

(** Entities and their types.  [saveable] is [None] for a type that does
    not implement [SaveableEntityType]; [DecodeNBT] returns [None] for
    nil. *)
Context {Entity : Type}.

Record SaveableEntityType := {
  DecodeNBT : gmap string Tag -> option Entity;
  EncodeNBT : Entity -> gmap string Tag
}.

Record EntityType := {
  EncodeEntity : string;
  saveable : option SaveableEntityType
}.

(** [Entity.Type]. *)
Variable Type_ : Entity -> EntityType.

(** The version byte written by [SaveChunk]. *)
Variable chunkVersion : byte.

(** The provider: the store, the messages logged so far, and the
    source behind [rand.Int63], read at position [randPos]. *)
Record Provider := {
  ldb : DB;
  logged : list LogEntry;
  rand : nat -> Z;
  randPos : nat
}.

Definition withLdb (db : Provider) (l : DB) : Provider :=
  {| ldb := l; logged := logged db; rand := rand db; randPos := randPos db |}.

Definition logErrorf (db : Provider) (entry : LogEntry) : Provider :=
  {| ldb := ldb db; logged := logged db ++ [entry];
     rand := rand db; randPos := randPos db |}.

(** [rand.Int63]: a non-negative 63-bit integer. *)
Definition Int63 (db : Provider) : Z * Provider :=
  (rand db (randPos db) mod 2 ^ 63,
   {| ldb := ldb db; logged := logged db;
      rand := rand db; randPos := S (randPos db) |}).

Definition dbGet (key : list byte) (db : Provider)
    : (error + list byte) * Provider :=
  let '(res, l) := Get key (ldb db) in (res, withLdb db l).
Definition dbPut (key value : list byte) (db : Provider)
    : option error * Provider :=
  let '(res, l) := Put key value (ldb db) in (res, withLdb db l).
Definition dbDelete (key : list byte) (db : Provider)
    : option error * Provider :=
  let '(res, l) := Delete key (ldb db) in (res, withLdb db l).

(** The result triple of [LoadChunk]. *)
Record LoadChunkResult := {
  lc_c : option Chunk;
  lc_exists : bool;
  lc_err : option error
}.

(** The loop reading the sub chunks of [LoadChunk], from index [i] on,
    over the [n] remaining slots of [data.SubChunks]. *)
Fixpoint loadSubChunks (n i : nat) (key : list byte) (dim : Dimension)
    (subChunks : list (list byte)) (db : Provider)
    : (error + list (list byte)) * Provider :=
  match n with
  | O => (inr subChunks, db)
  | S n =>
      let '(res, db) :=
        dbGet (key ++ [keySubChunkData;
                       u8 (Z.of_nat i + Z.shiftr (Range dim).1 4)]) db in
      match res with
      | inl ErrNotFound =>
          loadSubChunks n (S i) key dim (<[i := []]> subChunks) db
      | inl err =>
          (inl (Wrap "error reading sub chunk data" err), db)
      | inr v => loadSubChunks n (S i) key dim (<[i := v]> subChunks) db
      end
  end.

(** [LoadChunk], after the version keys have been read. *)
Definition loadChunkData (reg : Registry) (key : list byte)
    (dim : Dimension) (db : Provider) : outcome (LoadChunkResult * Provider) :=
  let '(res, db) := dbGet (key ++ [key3DData]) db in
  if decide (is_inl res ∧ inl_err res ≠ Some ErrNotFound) then
    Return ({| lc_c := None; lc_exists := true;
               lc_err := Wrap "error reading 3D data" <$> inl_err res |}, db)
  else
    let biomes := match res with inr v => v | inl _ => [] end in
    let biomes := if decide (512 < length biomes)%nat
                  then drop 512 biomes else biomes in
    let n := Z.to_nat (Z.shiftr (Height (Range dim)) 4 + 1) in
    let '(res, db) := loadSubChunks n 0 key dim (replicate n []) db in
    match res with
    | inl err =>
        Return ({| lc_c := None; lc_exists := true; lc_err := Some err |}, db)
    | inr subChunks =>
        res ← DiskDecode reg {| SubChunks := subChunks; Biomes := biomes |}
                (Range dim);
        match res with
        | inl err =>
            Return ({| lc_c := None; lc_exists := true;
                       lc_err := Some err |}, db)
        | inr c =>
            Return ({| lc_c := Some c; lc_exists := true;
                       lc_err := None |}, db)
        end
    end.

(** [LoadChunk]. *)
Definition LoadChunk (reg : Registry) (position : ChunkPos) (dim : Dimension)
    (db : Provider) : outcome (LoadChunkResult * Provider) :=
  let key := index position dim in
  let '(res, db) := dbGet (key ++ [keyVersion]) db in
  match res with
  | inl ErrNotFound =>
      let '(res, db) := dbGet (key ++ [keyVersionOld]) db in
      match res with
      | inl _ =>
          Return ({| lc_c := None; lc_exists := false; lc_err := None |}, db)
      | inr _ => loadChunkData reg key dim db
      end
  | inl err =>
      Return ({| lc_c := None; lc_exists := true;
                 lc_err := Some (Wrap "error reading version" err) |}, db)
  | inr _ => loadChunkData reg key dim db
  end.

(** The loop [for i, sub := range data.SubChunks] of [SaveChunk]; the
    error of [Put] is assigned to the blank identifier. *)
Fixpoint saveSubChunks (subs : list (list byte)) (i : nat)
    (key : list byte) (c : Chunk) (db : Provider) : Provider :=
  match subs with
  | [] => db
  | s :: subs =>
      let '(_, db) :=
        dbPut (key ++ [keySubChunkData;
                       u8 (Z.of_nat i + Z.shiftr (r c).1 4)]) s db in
      saveSubChunks subs (S i) key c db
  end.

(** [SaveChunk]: the error returned and the provider afterwards. *)
Definition SaveChunk (position : ChunkPos) (c : Chunk) (dim : Dimension)
    (db : Provider) : option error * Provider :=
  let data := Encode c DiskEncoding in
  let key := index position dim in
  let '(_, db) := dbPut (key ++ [keyVersion]) [chunkVersion] db in
  let '(_, db) := dbPut (key ++ [key3DData])
                    (replicate 512 x00 ++ Biomes data) db in
  let finalisation := PutUint32 0 2 (replicate 4 x00) in
  let '(_, db) := dbPut (key ++ [keyFinalisation]) finalisation db in
  let db := saveSubChunks (SubChunks data) 0 key c db in
  (None, db).

(** [actorIndex]. *)
Definition actorIndex (uniqueID : Z) : list byte :=
  AppendUint64 (bytesOf "actorprefix") (uint64 uniqueID).

(** [loadEntity]: the entity, or [None] for nil. *)
Definition loadEntity (m : gmap string Tag) (pos : ChunkPos)
    (reg : string -> option EntityType) (db : Provider)
    : option Entity * Provider :=
  match m !! "identifier" with
  | None => (None, logErrorf db (LogNoIdentifier pos m))
  | Some id =>
      let name := match id with TagString v => v | _ => EmptyString end in
      match reg name with
      | None => (None, logErrorf db (LogNotRegistered pos name m))
      | Some t =>
          match saveable t with
          | Some s =>
              let '(m, db) :=
                match m !! "UniqueID" with
                | Some _ => (m, db)
                | None =>
                    let '(v, db) := Int63 db in
                    (<["UniqueID" := TagInt64 v]> m, db)
                end in
              (DecodeNBT s m, db)
          | None => (None, db)
          end
      end
  end.

Definition appendEntity (a : list Entity) (e : option Entity) : list Entity :=
  match e with
  | Some e => a ++ [e]
  | None => a
  end.

(** The loop [for buf.Len() != 0] over the legacy inline stream.
    [fuel] bounds the iterations; the length of the buffer is enough. *)
Fixpoint loadInlineEntities (fuel : nat) (buf : list byte)
    (pos : ChunkPos) (reg : string -> option EntityType)
    (a : list Entity) (db : Provider) : (error + list Entity) * Provider :=
  match fuel with
  | O => (inr a, db)
  | S fuel =>
      match buf with
      | [] => (inr a, db)
      | _ =>
          match nbtDecode LittleEndian false buf with
          | inl err => (inl (Wrap "error decoding entity NBT" err), db)
          | inr (m, buf) =>
              let '(e, db) := loadEntity m pos reg db in
              loadInlineEntities fuel buf pos reg (appendEntity a e) db
          end
      end
  end.

(** The loop [for i := 0; i < len(digp); i += 8] of [LoadEntities] over
    the unread part [digp[i:]].  The slice [digp[i:i+8]] is out of
    bounds when fewer than eight bytes are left (the capacity of the
    value is taken to be its length). *)
Fixpoint loadActorEntities (fuel : nat) (digp : list byte)
    (pos : ChunkPos) (reg : string -> option EntityType)
    (a : list Entity) (db : Provider)
    : outcome ((error + list Entity) * Provider) :=
  match fuel with
  | O => Return (inr a, db)
  | S fuel =>
      match digp with
      | [] => Return (inr a, db)
      | _ =>
          if decide (length digp < 8)%nat then
            Panic "slice bounds out of range"
          else
            let key := bytesOf "actorprefix" ++ take 8 digp in
            let '(res, db) := dbGet key db in
            if decide (is_inl res ∧ inl_err res ≠ Some ErrNotFound) then
              Return (inl (default ErrNotFound (inl_err res)), db)
            else
              let data := match res with inr v => v | inl _ => [] end in
              match nbtDecode LittleEndian false data with
              | inl err =>
                  Return (inl (Wrap "error decoding entity NBT" err), db)
              | inr (m, _) =>
                  let '(e, db) := loadEntity m pos reg db in
                  loadActorEntities fuel (drop 8 digp) pos reg
                    (appendEntity a e) db
              end
      end
  end.

(** [LoadEntities]. *)
Definition LoadEntities (pos : ChunkPos) (dim : Dimension)
    (reg : string -> option EntityType) (db : Provider)
    : outcome ((error + list Entity) * Provider) :=
  let '(res, db) := dbGet (index pos dim ++ [keyEntities]) db in
  if decide (is_inl res ∧ inl_err res ≠ Some ErrNotFound) then
    Return (inl (default ErrNotFound (inl_err res)), db)
  else
    let data := match res with inr v => v | inl _ => [] end in
    let '(res, db) := loadInlineEntities (length data) data pos reg [] db in
    match res with
    | inl err => Return (inl err, db)
    | inr a =>
        let '(res, db) := dbGet (bytesOf "digp" ++ index pos dim) db in
        match res with
        | inl ErrNotFound => Return (inr a, db)
        | inl err => Return (inl err, db)
        | inr digp => loadActorEntities (length digp) digp pos reg a db
        end
    end.

(** The loop reading the previous unique IDs in [SaveEntities]. *)
Fixpoint previousIDs (fuel : nat) (digpPrev : list byte) (ids : list Z)
    : outcome (list Z) :=
  match fuel with
  | O => Return ids
  | S fuel =>
      match digpPrev with
      | [] => Return ids
      | _ =>
          if decide (length digpPrev < 8)%nat then
            Panic "slice bounds out of range"
          else
            previousIDs fuel (drop 8 digpPrev)
              (ids ++ [int64 (Uint64 (take 8 digpPrev))])
      end
  end.

(** The loop [for _, e := range entities] of [SaveEntities]: the error
    that ends the call early, or the unique IDs written. *)
Fixpoint saveEntityRecords (entities : list Entity) (uniqueIDs : list Z)
    (db : Provider) : (error + list Z) * Provider :=
  match entities with
  | [] => (inr uniqueIDs, db)
  | e :: entities =>
      let t := Type_ e in
      match saveable t with
      | None => saveEntityRecords entities uniqueIDs db
      | Some s =>
          let x := EncodeNBT s e in
          let x := <["identifier" := TagString (EncodeEntity t)]> x in
          match nbtEncode LittleEndian x with
          | inl err =>
              (inl (Wrap "save entities: error encoding NBT" err), db)
          | inr buf =>
              let '(uniqueID, db) :=
                match x !! "UniqueID" with
                | Some (TagInt64 v) => (v, db)
                | _ => Int63 db
                end in
              let '(err, db) := dbPut (actorIndex uniqueID) buf db in
              match err with
              | Some err =>
                  (inl (Wrap "save entities: error Adding to db" err), db)
              | None =>
                  saveEntityRecords entities (uniqueIDs ++ [uniqueID]) db
              end
          end
      end
  end.

(** The loop removing the records that are not referenced any more; the
    error of [Delete] is dropped. *)
Fixpoint deleteStale (previousUniqueIDs uniqueIDs : list Z) (db : Provider)
    : Provider :=
  match previousUniqueIDs with
  | [] => db
  | uniqueID :: previousUniqueIDs =>
      let db := if decide (uniqueID ∈ uniqueIDs) then db
                else (dbDelete (actorIndex uniqueID) db).2 in
      deleteStale previousUniqueIDs uniqueIDs db
  end.

(** [SaveEntities]: the error returned and the provider afterwards. *)
Definition SaveEntities (pos : ChunkPos) (entities : list Entity)
    (dim : Dimension) (db : Provider) : outcome (option error * Provider) :=
  let digpKey := bytesOf "digp" ++ index pos dim in
  let '(res, db) := dbGet digpKey db in
  if decide (is_inl res ∧ inl_err res ≠ Some ErrNotFound) then
    Return (inl_err res, db)
  else
    previousUniqueIDs ←
      match res with
      | inr digpPrev => previousIDs (length digpPrev) digpPrev []
      | inl _ => Return []
      end;
    let '(res, db) := saveEntityRecords entities [] db in
    match res with
    | inl err => Return (Some err, db)
    | inr uniqueIDs =>
        let db := deleteStale previousUniqueIDs uniqueIDs db in
        if decide (length entities = 0%nat) then Return (dbDelete digpKey db)
        else
          let digp := foldl (fun digp uniqueID =>
                               AppendUint64 digp (uint64 uniqueID))
                            [] uniqueIDs in
          let '(err, db) := dbPut digpKey digp db in
          match err with
          | Some err =>
              Return (Some (Wrap "save entities: error Adding to db" err), db)
          | None =>
              let db := (dbDelete (index pos dim ++ [keyEntities]) db).2 in
              Return (None, db)
          end
    end.

End Provider.

(** *** Block entities *)

Section BlockEntities.
Context `{NbtCodec}.

(** The loop [for buf.Len() != 0] of [LoadBlockNBT].  [fuel] bounds the
    iterations; the length of the buffer is enough. *)
Fixpoint loadBlockNBTs (fuel : nat) (buf : list byte)
    (a : list (gmap string Tag)) : error + list (gmap string Tag) :=
  match fuel with
  | O => inr a
  | S fuel =>
      match buf with
      | [] => inr a
      | _ =>
          match nbtDecode LittleEndian false buf with
          | inl err => inl (Wrap "error decoding block NBT" err)
          | inr (m, buf) => loadBlockNBTs fuel buf (a ++ [m])
          end
      end
  end.

(** [LoadBlockNBT]. *)
Definition LoadBlockNBT (position : ChunkPos) (dim : Dimension)
    (db : Provider) : (error + list (gmap string Tag)) * Provider :=
  let '(res, db) := dbGet (index position dim ++ [keyBlockEntities]) db in
  if decide (is_inl res ∧ inl_err res ≠ Some ErrNotFound) then
    (inl (default ErrNotFound (inl_err res)), db)
  else
    let data := match res with inr v => v | inl _ => [] end in
    (loadBlockNBTs (length data) data [], db).

(** The loop [for _, d := range data] of [SaveBlockNBT], writing to the
    buffer [buf]. *)
Fixpoint encodeBlockNBTs (data : list (gmap string Tag)) (buf : list byte)
    : error + list byte :=
  match data with
  | [] => inr buf
  | d :: data =>
      match nbtEncode LittleEndian d with
      | inl err => inl (Wrap "error encoding block NBT" err)
      | inr b => encodeBlockNBTs data (buf ++ b)
      end
  end.

(** [SaveBlockNBT]. *)
Definition SaveBlockNBT (position : ChunkPos) (data : list (gmap string Tag))
    (dim : Dimension) (db : Provider) : option error * Provider :=
  if decide (length data = 0%nat) then
    dbDelete (index position dim ++ [keyBlockEntities]) db
  else
    match encodeBlockNBTs data [] with
    | inl err => (Some err, db)
    | inr buf => dbPut (index position dim ++ [keyBlockEntities]) buf db
    end.

End BlockEntities.

(** *** Player data *)

(** [playerData]. *)
Record playerData := {
  UUID : string;
  ServerID : string;
  SelfSignedID : string
}.

(** [nbt.MarshalEncoding] and [nbt.UnmarshalEncoding] of gophertunnel at
    the two types the provider uses them at: a [map[string]any] ([None]
    is the nil map) and the struct [playerData]. *)
Class NbtMarshal := {
  marshalMap : NbtEncoding -> option (gmap string Tag) -> error + list byte;
  unmarshalMap : NbtEncoding -> list byte -> error + gmap string Tag;
  marshalPlayerData : NbtEncoding -> playerData -> error + list byte;
  unmarshalPlayerData : NbtEncoding -> list byte -> error + playerData
}.

(** Conversion to [int32]. *)
Definition int32 (z : Z) : Z := (z + 2 ^ 31) mod 2 ^ 32 - 2 ^ 31.

(** [errors.Is]: the error or one of the errors it wraps is the target. *)
Fixpoint errorsIs (err target : error) : bool :=
  bool_decide (err = target) ||
  match err with
  | Wrap _ e => errorsIs e target
  | _ => false
  end.

(** [cube.Pos]. *)
Definition Pos := (Z * Z * Z)%type.

(** The results of [LoadPlayerData] and of [LoadPlayerSpawnPosition]. *)
Record PlayerDataResult := {
  pd_serverData : option (gmap string Tag);
  pd_key : string;
  pd_exists : bool;
  pd_err : option error
}.

Record SpawnResult := {
  sp_pos : Pos;
  sp_exists : bool;
  sp_err : option error
}.

Section Players.
Context `{NbtMarshal}.

(** [LoadPlayerData]; [id] is the text [id.String()] of the UUID. *)
Definition LoadPlayerData (id : string) (db : Provider)
    : PlayerDataResult * Provider :=
  let '(res, db) := dbGet (bytesOf ("player_" +:+ id)) db in
  match res with
  | inl ErrNotFound =>
      ({| pd_serverData := None; pd_key := EmptyString;
          pd_exists := false; pd_err := None |}, db)
  | inl err =>
      ({| pd_serverData := None; pd_key := EmptyString; pd_exists := true;
          pd_err := Some (Wrap "error reading player data" err) |}, db)
  | inr data =>
      match unmarshalPlayerData LittleEndian data with
      | inl err =>
          ({| pd_serverData := None; pd_key := EmptyString;
              pd_exists := true;
              pd_err := Some (Wrap "error decoding player data" err) |}, db)
      | inr d =>
          if decide (UUID d ≠ id ∨ ServerID d = EmptyString) then
            ({| pd_serverData := None; pd_key := ServerID d;
                pd_exists := true;
                pd_err := Some (Errorf "invalid player data") |}, db)
          else
            let '(res, db) := dbGet (bytesOf (ServerID d)) db in
            match res with
            | inl err =>
                ({| pd_serverData := None; pd_key := ServerID d;
                    pd_exists := true;
                    pd_err := Some (Wrap "error reading server data" err) |},
                 db)
            | inr serverDB =>
                match unmarshalMap LittleEndian serverDB with
                | inl _ =>
                    ({| pd_serverData := None; pd_key := ServerID d;
                        pd_exists := true;
                        pd_err := Some (Errorf "error decoding server data") |},
                     db)
                | inr serverData =>
                    ({| pd_serverData := Some serverData;
                        pd_key := ServerID d; pd_exists := true;
                        pd_err := None |}, db)
                end
            end
      end
  end.

(** [LoadPlayerSpawnPosition].  A read of the nil map gives nil; the
    type assertions [x.(int32)] panic on a value of another type. *)
Definition LoadPlayerSpawnPosition (id : string) (db : Provider)
    : outcome (SpawnResult * Provider) :=
  let '(r, db) := LoadPlayerData id db in
  if decide (pd_exists r = false ∨ pd_err r ≠ None) then
    Return ({| sp_pos := (0, 0, 0); sp_exists := pd_exists r;
               sp_err := pd_err r |}, db)
  else
    let serverData := default ∅ (pd_serverData r) in
    match serverData !! "SpawnX", serverData !! "SpawnY",
          serverData !! "SpawnZ" with
    | Some x, Some y, Some z =>
        match x, y, z with
        | TagInt32 x, TagInt32 y, TagInt32 z =>
            Return ({| sp_pos := (x, y, z); sp_exists := true;
                       sp_err := None |}, db)
        | _, _, _ => Panic "interface conversion: interface {} is not int32"
        end
    | _, _, _ =>
        Return ({| sp_pos := (0, 0, 0); sp_exists := true;
                   sp_err := Some (Errorf "error reading spawn fields from server data") |},
                db)
    end.

(** [SavePlayerSpawnPosition].  The first part leaves the server data
    [d] and its key [k], or the error returned early. *)
Definition SavePlayerSpawnPosition (id : string) (pos : Pos) (db : Provider)
    : outcome (option error * Provider) :=
  let '(res, db) := dbGet (bytesOf ("player_" +:+ id)) db in
  let k := "player_server_" +:+ id in
  '(r, db) ←
    (if match res with
        | inl err => errorsIs err ErrNotFound
        | inr _ => false
        end
     then
       match marshalPlayerData LittleEndian
               {| UUID := id; ServerID := k; SelfSignedID := EmptyString |} with
       | inl _ => Panic "error encoding player data"
       | inr data =>
           let '(err, db) := dbPut (bytesOf ("player_" +:+ id)) data db in
           match err with
           | Some err =>
               Return (inl (Wrap "error writing player data" err), db)
           | None => Return (inr (Some (∅ : gmap string Tag), k), db)
           end
       end
     else
       let '(r, db) := LoadPlayerData id db in
       match pd_err r with
       | Some err => Return (inl err, db)
       | None => Return (inr (pd_serverData r, pd_key r), db)
       end);
  match r with
  | inl err => Return (Some err, db)
  | inr (d, k) =>
      match d with
      | None => Panic "assignment to entry in nil map"
      | Some d =>
          let d := <["SpawnX" := TagInt32 (int32 pos.1.1)]> d in
          let d := <["SpawnY" := TagInt32 (int32 pos.1.2)]> d in
          let d := <["SpawnZ" := TagInt32 (int32 pos.2)]> d in
          match marshalMap LittleEndian (Some d) with
          | inl _ => Panic "error encoding server data"
          | inr data =>
              let '(err, db) := dbPut (bytesOf k) data db in
              Return (Wrap "error writing server data" <$> err, db)
          end
      end
  end.

End Players.

End Mcdb.

(** * Properties of the embedding *)

(** ** Maps built by successive assignments *)

Module MapFacts.

Section Assignments.
Context `{Countable K} {V A : Type}.
Variable f : A -> K * V.

Definition step (m : gmap K V) (a : A) : gmap K V := <[(f a).1 := (f a).2]> m.

Lemma foldl_step_union (l : list A) (m : gmap K V) :
  NoDup (f <$> l).*1 ->
  foldl step m l = list_to_map (f <$> l) ∪ m.
Proof.
  revert m. induction l as [|a l IH]; intros m Hnd.
  - cbn. by rewrite (left_id_L ∅ (∪)).
  - cbn in *. apply NoDup_cons in Hnd as [Hnotin Hnd].
    rewrite IH by done. unfold step at 1.
    rewrite <- insert_union_l, <- insert_union_r; [done|].
    by apply not_elem_of_list_to_map_1.
Qed.

Lemma foldl_step_perm (l1 l2 : list A) (m : gmap K V) :
  NoDup (f <$> l1).*1 -> l1 ≡ₚ l2 ->
  foldl step m l1 = foldl step m l2.
Proof.
  intros Hnd Hperm.
  assert (NoDup (f <$> l2).*1) by (by rewrite <- Hperm).
  rewrite !foldl_step_union by done. f_equal.
  apply list_to_map_proper; [done|]. by rewrite Hperm.
Qed.
End Assignments.

End MapFacts.

(** ** Sequencing of outcomes *)

Module OutcomeFacts.

Lemma bind_Return {A B} (a : A) (f : A -> outcome B) :
  (Return a ≫= f) = f a.
Proof. reflexivity. Qed.

Lemma bind_Return_inv {A B} (m : outcome A) (f : A -> outcome B) (b : B) :
  (m ≫= f) = Return b -> exists a, m = Return a ∧ f a = Return b.
Proof. destruct m as [a|reason]; [eauto|discriminate]. Qed.

End OutcomeFacts.

(** ** Chunk index keys *)

Module IndexFacts.

Lemma DimensionID_values :
  DimensionID Overworld = (0, true) ∧ DimensionID Nether = (1, true) ∧
  DimensionID End = (2, true) ∧ DimensionID Overworld_legacy = (0, true) ∧
  DimensionID nopDim = (0, false).
Proof. vm_compute. done. Qed.

(** The IDs do not depend on the order in which the runtime ranges over
    the map of dimensions. *)
Lemma newDimensionRegistry_order (dim : gmap Z Dimension) order :
  NoDup (map_to_list dim).*2 ->
  order ≡ₚ map_to_list dim ->
  newDimensionRegistryIter order dim = newDimensionRegistry dim.
Proof.
  intros Hnd Hperm. unfold newDimensionRegistry, newDimensionRegistryIter.
  f_equal.
  pose (f := fun kv : Z * Dimension =>
               (kv.2, match kv.2 with overworld true => kv.1 - 10 | _ => kv.1 end)).
  assert (Hstep : forall m kv, registerID m kv = MapFacts.step f m kv).
  { by intros m [k v]. }
  assert (Hfold : forall l m, foldl registerID m l = foldl (MapFacts.step f) m l).
  { induction l as [|a l IH]; intros m; [done|]. cbn. by rewrite Hstep, IH. }
  rewrite !Hfold. apply MapFacts.foldl_step_perm; [|done].
  rewrite Hperm. by rewrite <- list_fmap_compose.
Qed.

Lemma dimensionReg_order order :
  order ≡ₚ map_to_list registeredDimensions ->
  newDimensionRegistryIter order registeredDimensions = dimensionReg.
Proof.
  intros Hperm. apply newDimensionRegistry_order; [|done].
  apply (bool_decide_unpack _). vm_compute. exact I.
Qed.

Lemma u8_shiftr v n : 0 <= n -> u8 (Z.shiftr v n) = u8 (v / 2 ^ n).
Proof. intros Hn. by rewrite Z.shiftr_div_pow2. Qed.

Lemma index_bytes x z d :
  index (x, z) d =
    little_endian_u32 (uint32 x) ++ little_endian_u32 (uint32 z) ++
    (if decide ((DimensionID d).1 = 0) then []
     else little_endian_u32 (uint32 (DimensionID d).1)).
Proof.
  unfold index, little_endian_u32, PutUint32. cbn [fst snd].
  rewrite !u8_shiftr by lia.
  case_decide; reflexivity.
Qed.

Lemma index_length position d :
  length (index position d) = 8%nat ∨ length (index position d) = 12%nat.
Proof.
  destruct position as [x z]. rewrite index_bytes.
  case_decide; [by left|by right].
Qed.

(** C9.  The chunk index key is the little-endian u32 of x followed by
    the little-endian u32 of z, with the little-endian u32 of the
    dimension ID appended exactly when that ID is non-zero, so that the
    key has 8 or 12 bytes; the legacy overworld is registered with ID 0
    and gets the 8-byte key. *)
Theorem index_key_layout (x z : Z) (d : Dimension) :
  index (x, z) d =
    little_endian_u32 (uint32 x) ++ little_endian_u32 (uint32 z) ++
    (if decide ((DimensionID d).1 = 0) then []
     else little_endian_u32 (uint32 (DimensionID d).1))
  ∧ length (index (x, z) d)
    = (if decide ((DimensionID d).1 = 0) then 8%nat else 12%nat)
  ∧ DimensionID Overworld_legacy = (0, true)
  ∧ index (x, z) Overworld_legacy =
      little_endian_u32 (uint32 x) ++ little_endian_u32 (uint32 z).
Proof.
  split; [apply index_bytes|]. split.
  { rewrite index_bytes. case_decide; reflexivity. }
  split; [apply DimensionID_values|].
  rewrite index_bytes.
  replace (DimensionID Overworld_legacy) with (0, true)
    by (symmetry; apply DimensionID_values).
  cbn. reflexivity.
Qed.

End IndexFacts.

(** ** Property hashing *)

Module HashFacts.

(** Sorting forgets the order in which the keys were collected. *)
Lemma sortKeys_perm (l1 l2 : list string) :
  l1 ≡ₚ l2 -> sortKeys l1 = sortKeys l2.
Proof.
  intros Hperm. unfold sortKeys.
  apply (Sorted_unique String.le).
  - apply Sorted_merge_sort; apply _.
  - apply Sorted_merge_sort; apply _.
  - by rewrite !merge_sort_Permutation.
Qed.

Lemma hashPropertiesIter_order (iter : list string) (p : Properties) :
  iter ≡ₚ keysOf p -> hashPropertiesIter iter p = hashProperties p.
Proof.
  intros Hperm. unfold hashProperties, hashPropertiesIter.
  destruct p as [m|]; [|done]. by rewrite (sortKeys_perm _ _ Hperm).
Qed.

Lemma writeProperties_ext (p q : Properties) keys b :
  (forall k, get p k = get q k) ->
  writeProperties p keys b = writeProperties q keys b.
Proof.
  intros Heq. revert b. induction keys as [|k keys IH]; intros b; [done|].
  cbn. rewrite Heq. destruct (writeProperty b (get q k)); auto.
Qed.

(** Maps with the same reads are the same map, up to nil against empty. *)
Lemma get_ext_cases (p q : Properties) :
  (forall k, get p k = get q k) ->
  p = q ∨ (p = None ∧ q = Some ∅) ∨ (p = Some ∅ ∧ q = None).
Proof.
  intros Heq. destruct p as [m|], q as [n|]; cbn in Heq.
  - left. f_equal. by apply map_eq.
  - right; right. split; [|done]. f_equal. apply map_eq. intros k.
    by rewrite Heq, lookup_empty.
  - right; left. split; [done|]. f_equal. apply map_eq. intros k.
    by rewrite <- Heq, lookup_empty.
  - by left.
Qed.

Lemma hashProperties_empty : hashProperties (Some ∅) = Return EmptyString.
Proof. reflexivity. Qed.

Lemma hashProperties_ext (p q : Properties) :
  (forall k, get p k = get q k) -> hashProperties p = hashProperties q.
Proof.
  intros Heq. destruct (get_ext_cases p q Heq) as [->|[[-> ->]|[-> ->]]]; done.
Qed.

(** *** When equal hashes give equal maps *)

Lemma app_cons c a b : String c a +:+ b = String c (a +:+ b).
Proof. reflexivity. Qed.

Lemma app_inj_length a a' b b' :
  String.length a = String.length a' ->
  a +:+ b = a' +:+ b' -> a = a' ∧ b = b'.
Proof.
  revert a'. induction a as [|c a IH]; intros [|c' a'] Hlen Heq;
    try discriminate Hlen.
  - done.
  - rewrite !app_cons in Heq. injection Heq as -> Heq.
    injection Hlen as Hlen. destruct (IH a' Hlen Heq) as [-> ->]. done.
Qed.

Lemma length_app_string a b :
  String.length (a +:+ b) = (String.length a + String.length b)%nat.
Proof.
  induction a as [|c a IH]; [done|]. rewrite app_cons. cbn. by rewrite IH.
Qed.

Lemma byteZ_u8 z : byteZ (u8 z) = z mod 256.
Proof.
  unfold byteZ, u8.
  pose proof (Z.mod_pos_bound z 256 ltac:(lia)) as Hbound.
  destruct (Byte.of_N (Z.to_N (z mod 256))) as [b|] eqn:Hb.
  - cbn. apply Byte.to_of_N in Hb. rewrite Hb. lia.
  - apply Byte.of_N_None_iff in Hb. lia.
Qed.

Lemma u8_inj a b : u8 a = u8 b -> a mod 256 = b mod 256.
Proof. intros Heq. by rewrite <- !byteZ_u8, Heq. Qed.

Lemma int32Bytes_inj v w :
  - 2 ^ 31 <= v < 2 ^ 31 -> - 2 ^ 31 <= w < 2 ^ 31 ->
  int32Bytes v = int32Bytes w -> v = w.
Proof.
  intros Hv Hw Heq. unfold int32Bytes in Heq.
  apply (f_equal String.list_byte_of_string) in Heq.
  rewrite !String.list_byte_of_string_of_list_byte in Heq.
  injection Heq as H0 H1 H2 H3.
  apply u8_inj in H0, H1, H2, H3.
  rewrite !Z.shiftr_div_pow2 in * by lia.
  change (2 ^ 8) with 256 in *. change (2 ^ 16) with 65536 in *.
  change (2 ^ 24) with 16777216 in *. change (2 ^ 31) with 2147483648 in *.
  Z.div_mod_to_equations. lia.
Qed.

(** Two values have the same shape when they are of the same one of the
    four types and are written with the same number of bytes; an [int32] is
    within its range. *)
Definition sameShape (v w : Value) : Prop :=
  match v, w with
  | VBool _, VBool _ => True
  | VUint8 _, VUint8 _ => True
  | VInt32 a, VInt32 b => - 2 ^ 31 <= a < 2 ^ 31 ∧ - 2 ^ 31 <= b < 2 ^ 31
  | VString a, VString b => String.length a = String.length b
  | _, _ => False
  end.

(** Two maps have the same shape when they have the same keys and, under
    every key, values of the same shape. *)
Definition sameShapes (p q : Properties) : Prop :=
  forall k,
    match get p k, get q k with
    | Some v, Some w => sameShape v w
    | None, None => True
    | _, _ => False
    end.

(** The bytes written for a value. *)
Definition bytesWritten (v : Value) : string :=
  match v with
  | VBool true => byteString x01
  | VBool false => byteString x00
  | VUint8 v => byteString v
  | VInt32 v => int32Bytes v
  | VString v => v
  | VOther => EmptyString
  end.

Lemma writeProperty_bytes b v w :
  sameShape v w ->
  writeProperty b (Some v) = Some (b +:+ bytesWritten v) ∧
  writeProperty b (Some w) = Some (b +:+ bytesWritten w).
Proof. by destruct v as [[]| | | |], w as [[]| | | |]. Qed.

Lemma sameShape_length v w :
  sameShape v w ->
  String.length (bytesWritten v) = String.length (bytesWritten w).
Proof. by destruct v as [[]| | | |], w as [[]| | | |]. Qed.

Lemma sameShape_inj v w :
  sameShape v w -> bytesWritten v = bytesWritten w -> v = w.
Proof.
  destruct v as [[]|a|a|a|], w as [[]|b|b|b|]; try done; cbn.
  - intros _ [= Heq]. f_equal.
    by rewrite <- (byte_of_ascii_of_byte a), Heq, byte_of_ascii_of_byte.
  - intros [Ha Hb] Heq. f_equal. by apply int32Bytes_inj.
  - by intros _ ->.
Qed.

Lemma writeProperties_inj (p q : Properties) keys b1 b2 h :
  (forall k, k ∈ keys ->
     exists v w, get p k = Some v ∧ get q k = Some w ∧ sameShape v w) ->
  String.length b1 = String.length b2 ->
  writeProperties p keys b1 = Some h ->
  writeProperties q keys b2 = Some h ->
  b1 = b2 ∧ forall k, k ∈ keys -> get p k = get q k.
Proof.
  revert b1 b2. induction keys as [|k keys IH]; intros b1 b2 Hshape Hlen; cbn.
  - intros [= <-] [= <-]. split; [done|]. intros k Hk. by inv Hk.
  - destruct (Hshape k) as (v & w & Hv & Hw & Hvw); [by left|].
    rewrite Hv, Hw.
    destruct (writeProperty_bytes b1 v w Hvw) as [-> _].
    destruct (writeProperty_bytes b2 v w Hvw) as [_ ->].
    intros H1 H2.
    destruct (IH (b1 +:+ bytesWritten v) (b2 +:+ bytesWritten w))
      as [Happ Hrest]; [| |done|done|].
    { intros k' Hk'. apply Hshape. by right. }
    { rewrite !length_app_string, Hlen. f_equal. by apply sameShape_length. }
    apply app_inj_length in Happ as [-> Hbytes]; [|done].
    apply sameShape_inj in Hbytes; [|done]. subst w.
    split; [done|]. intros k' Hk'. inv Hk'; [congruence|by apply Hrest].
Qed.

Lemma writeProperties_Some (p q : Properties) keys b1 b2 :
  (forall k, k ∈ keys ->
     exists v w, get p k = Some v ∧ get q k = Some w ∧ sameShape v w) ->
  is_Some (writeProperties p keys b1) ∧ is_Some (writeProperties q keys b2).
Proof.
  revert b1 b2. induction keys as [|k keys IH]; intros b1 b2 Hshape; cbn.
  - split; by eexists.
  - destruct (Hshape k) as (v & w & Hv & Hw & Hvw); [by left|].
    rewrite Hv, Hw.
    destruct (writeProperty_bytes b1 v w Hvw) as [-> _].
    destruct (writeProperty_bytes b2 v w Hvw) as [_ ->].
    apply IH. intros k' Hk'. apply Hshape. by right.
Qed.

Lemma sameShapes_keys (mp mq : gmap string Value) :
  sameShapes (Some mp) (Some mq) ->
  (map_to_list mp).*1 ≡ₚ (map_to_list mq).*1.
Proof.
  intros Hshape. apply NoDup_Permutation; [apply NoDup_fst_map_to_list..|].
  intros k. specialize (Hshape k). cbn in Hshape.
  rewrite !list_elem_of_fmap. split.
  - intros ([k' v] & -> & Hin%elem_of_map_to_list). cbn in *.
    rewrite Hin in Hshape. destruct (mq !! k') as [w|] eqn:Hw; [|done].
    exists (k', w). split; [done|]. by apply elem_of_map_to_list.
  - intros ([k' w] & -> & Hin%elem_of_map_to_list). cbn in *.
    rewrite Hin in Hshape. destruct (mp !! k') as [v|] eqn:Hv; [|done].
    exists (k', v). split; [done|]. by apply elem_of_map_to_list.
Qed.

(** Among maps of the same shape, equal hashes give equal maps. *)
Lemma hashProperties_injective (p q : Properties) :
  sameShapes p q ->
  hashProperties p = hashProperties q ->
  forall k, get p k = get q k.
Proof.
  intros Hshape Hhash k.
  destruct p as [mp|], q as [mq|]; cbn.
  - pose proof (sameShapes_keys mp mq Hshape) as Hkeys.
    unfold hashProperties, hashPropertiesIter in Hhash. cbn [keysOf] in Hhash.
    rewrite (sortKeys_perm _ _ Hkeys) in Hhash.
    set (keys := sortKeys (map_to_list mq).*1) in *.
    assert (Hin : forall k, k ∈ keys -> is_Some (mq !! k)).
    { intros k' Hk'. unfold keys, sortKeys in Hk'.
      rewrite merge_sort_Permutation in Hk'.
      apply list_elem_of_fmap in Hk' as ([k'' w] & -> & Hw%elem_of_map_to_list).
      by eexists. }
    assert (Hall : forall k, k ∈ keys ->
              exists v w, get (Some mp) k = Some v ∧ get (Some mq) k = Some w ∧
                          sameShape v w).
    { intros k' [w Hw]%Hin. specialize (Hshape k'). cbn in Hshape |- *.
      rewrite Hw in Hshape |- *. destruct (mp !! k') as [v|]; [|done].
      by exists v, w. }
    destruct (writeProperties_Some _ _ keys EmptyString EmptyString Hall)
      as [[hp Hp] [hq Hq]].
    rewrite Hp, Hq in Hhash. injection Hhash as <-.
    destruct (writeProperties_inj _ _ keys EmptyString EmptyString hp Hall)
      as [_ Hget]; [done..|].
    destruct (decide (k ∈ keys)) as [Hk|Hk]; [by apply Hget|].
    specialize (Hshape k). cbn in Hshape.
    destruct (mq !! k) as [w|] eqn:Hw.
    + destruct Hk. unfold keys, sortKeys. rewrite merge_sort_Permutation.
      apply list_elem_of_fmap. exists (k, w).
      split; [done|]. by apply elem_of_map_to_list.
    + by destruct (mp !! k).
  - specialize (Hshape k). cbn in Hshape. by destruct (mp !! k).
  - specialize (Hshape k). cbn in Hshape. by destruct (mq !! k).
  - done.
Qed.

(** C1 (amended).  Property maps with the same key set and equal values
    for every key have the same hash, whatever the order in which the
    keys of either map are ranged over.  Conversely, equal hashes give
    equal maps among maps of the same shape: the same key set and, under
    every key, values of the same one of the four types written with the
    same number of bytes. *)
Theorem hashProperties_semantic (p q : Properties) (ip iq : list string)
    (Hip : ip ≡ₚ keysOf p) (Hiq : iq ≡ₚ keysOf q) :
  ((forall k, get p k = get q k) ->
   hashPropertiesIter ip p = hashPropertiesIter iq q) ∧
  (sameShapes p q ->
   hashPropertiesIter ip p = hashPropertiesIter iq q ->
   forall k, get p k = get q k).
Proof.
  rewrite !hashPropertiesIter_order by done. split.
  - apply hashProperties_ext.
  - apply hashProperties_injective.
Qed.

Lemma hashProperties_semantic_witness :
  let p := makeMap [("a", VBool true); ("b", VString "x")] in
  let q := makeMap [("b", VString "x"); ("a", VBool true)] in
  hashPropertiesIter ["b"; "a"] p = hashPropertiesIter ["a"; "b"] q ∧
  (hashPropertiesIter ["b"; "a"] p = hashPropertiesIter ["a"; "b"] q ->
   forall k, get p k = get q k).
Proof.
  intros p q.
  assert (Hpq : p = q) by (vm_compute; reflexivity).
  destruct (hashProperties_semantic p q ["b"; "a"] ["a"; "b"]) as [Hfwd Hbwd].
  - vm_compute. apply perm_swap.
  - vm_compute. reflexivity.
  - split.
    + apply Hfwd. intros k. by rewrite Hpq.
    + apply Hbwd. intros k. rewrite Hpq.
      destruct (get q k) as [v|] eqn:Hv; [|done].
      unfold q, makeMap, get in Hv. cbn in Hv.
      apply lookup_insert_Some in Hv as [[_ <-]|[_ Hv]]; [done|].
      apply lookup_insert_Some in Hv as [[_ <-]|[_ Hv]]; [done|].
      by rewrite lookup_empty in Hv.
Defined.

(** The hash does not depend on the order of the assignments that built
    the map. *)
Lemma makeMap_order (kvs1 kvs2 : list (string * Value)) :
  NoDup kvs1.*1 -> kvs1 ≡ₚ kvs2 -> makeMap kvs1 = makeMap kvs2.
Proof.
  intros Hnd Hperm. unfold makeMap. f_equal.
  apply (MapFacts.foldl_step_perm id); [|done]. by rewrite list_fmap_id.
Qed.

Lemma hashProperties_insertion_order (kvs1 kvs2 : list (string * Value)) :
  NoDup kvs1.*1 -> kvs1 ≡ₚ kvs2 ->
  hashProperties (makeMap kvs1) = hashProperties (makeMap kvs2).
Proof. intros Hnd Hperm. by rewrite (makeMap_order kvs1 kvs2). Qed.

(** C1 (as stated) fails from right to left: neither the keys nor the
    types of the values are written to the hash.  Two maps with
    different key sets, and two maps with one key and values of different
    types, hash to the single byte 1. *)
Lemma hashProperties_collision :
  let p := makeMap [("a", VBool true)] in
  let q := makeMap [("b", VBool true)] in
  let q' := makeMap [("a", VUint8 x01)] in
  hashProperties p = Return (byteString x01) ∧
  hashProperties q = Return (byteString x01) ∧
  hashProperties q' = Return (byteString x01) ∧
  get p "a" ≠ get q "a" ∧ get p "a" ≠ get q' "a" ∧
  ¬ (forall p q : Properties,
       hashProperties p = hashProperties q <-> (forall k, get p k = get q k)).
Proof.
  assert (Hp : hashProperties (makeMap [("a", VBool true)])
               = Return (byteString x01)) by (vm_compute; reflexivity).
  assert (Hq : hashProperties (makeMap [("b", VBool true)])
               = Return (byteString x01)) by (vm_compute; reflexivity).
  assert (Hne : get (makeMap [("a", VBool true)]) "a"
                ≠ get (makeMap [("b", VBool true)]) "a")
    by (vm_compute; discriminate).
  cbv zeta. repeat split; try done.
  intros Hiff. apply Hne.
    apply (proj1 (Hiff (makeMap [("a", VBool true)]) (makeMap [("b", VBool true)]))).
    by rewrite Hp, Hq.
Qed.

End HashFacts.

(** ** The block-state registry *)

Module RegistryFacts.

(** The first state of a list that carries the name, with its index. *)
Definition firstNamed (name : string) (ss : list blockState)
    : option (nat * blockState) :=
  list_find (fun s => Name s = name) ss.

(** The properties recorded as default for a name; nil when there are
    none. *)
Definition defaultProperties (reg : Registry) (name : string) : Properties :=
  default None (blockProperties reg !! name).

(** What registration maintains: the default properties of a name are
    those of the first block with that name, and every block is found
    under its state hash at its index. *)
Record registry_inv (reg : Registry) : Prop := {
  inv_props : forall name,
    blockProperties reg !! name
    = (fun hit => Properties_ hit.2) <$> firstNamed name (blocks reg);
  inv_rids : forall i s,
    blocks reg !! i = Some s ->
    exists h, hashProperties (Properties_ s) = Return h ∧
              stateRuntimeIDs reg !! (Name s, h) = Some (uint32 (Z.of_nat i))
}.

Lemma registry_inv_clear : registry_inv ClearStates.
Proof. split; [done|]. intros i s Hi. cbn in Hi. by destruct i. Qed.

Lemma registerBlockState_inv (s : blockState) (reg reg' : Registry) :
  registry_inv reg ->
  registerBlockState s reg = Return reg' ->
  registry_inv reg' ∧ blocks reg' = blocks reg ++ [s].
Proof.
  intros [Hprops Hrids]. unfold registerBlockState.
  destruct (hashProperties (Properties_ s)) as [hp|] eqn:Hhp; cbn; [|discriminate].
  destruct (stateRuntimeIDs reg !! (Name s, hp)) eqn:Hfresh; cbn; [discriminate|].
  intros [= <-]. cbn. split; [|done]. split; cbn.
  - intros name. unfold firstNamed.
    destruct (list_find (fun s0 => Name s0 = name) (blocks reg))
      as [[i s0]|] eqn:Hfind.
    + rewrite (proj2 (list_find_app_Some _ _ _ i s0)) by (by left).
      specialize (Hprops name). unfold firstNamed in Hprops.
      rewrite Hfind in Hprops. cbn in Hprops |- *.
      destruct (blockProperties reg !! Name s) eqn:Hs; [done|].
      rewrite lookup_insert_ne; [done|]. intros <-. congruence.
    + pose proof (Hprops name) as Hname. unfold firstNamed in Hname.
      rewrite Hfind in Hname. cbn in Hname.
      destruct (decide (Name s = name)) as [<-|Hne].
      * rewrite Hname. rewrite lookup_insert_eq.
        rewrite (proj2 (list_find_app_Some _ _ _
                          (length (blocks reg)) s)); [done|].
        right. split; [lia|]. split; [done|].
        rewrite Nat.sub_diag. cbn. by rewrite decide_True.
      * assert (list_find (fun s0 => Name s0 = name) (blocks reg ++ [s]) = None)
          as ->.
        { apply list_find_app_None. split; [done|]. cbn.
          by rewrite decide_False. }
        cbn. destruct (blockProperties reg !! Name s); [done|].
        by rewrite lookup_insert_ne.
  - intros i s0 [Hi|[Hlen Hi]]%lookup_app_Some.
    + destruct (Hrids i s0 Hi) as (h & Hh & Hrid).
      exists h. split; [done|].
      rewrite lookup_insert_ne; [done|]. intros Heq. congruence.
    + apply list_lookup_singleton_Some in Hi as [Hi <-].
      exists hp. split; [done|]. rewrite lookup_insert_eq.
      do 3 f_equal. lia.
Qed.

Lemma registerBlockStates_inv (ss : list blockState) (reg reg' : Registry) :
  registry_inv reg ->
  registerBlockStates ss reg = Return reg' ->
  registry_inv reg' ∧ blocks reg' = blocks reg ++ ss.
Proof.
  revert reg. induction ss as [|s ss IH]; intros reg Hinv; cbn.
  - intros [= <-]. by rewrite app_nil_r.
  - destruct (registerBlockState s reg) as [reg1|] eqn:Hreg; cbn; [|discriminate].
    intros Hrest.
    destruct (registerBlockState_inv _ _ _ Hinv Hreg) as [Hinv1 Hblocks1].
    destruct (IH _ Hinv1 Hrest) as [Hinv' Hblocks'].
    split; [done|]. by rewrite Hblocks', Hblocks1, <- app_assoc.
Qed.

(** The two lookups, on any registry whose default properties hash. *)
Lemma StateToRuntimeID_protocol (reg : Registry) (name : string)
    (properties : Properties) (hp hd : string) :
  hashProperties properties = Return hp ->
  hashProperties (defaultProperties reg name) = Return hd ->
  StateToRuntimeID reg name properties =
    Return (match stateRuntimeIDs reg !! (name, hp) with
            | Some rid => (rid, true)
            | None =>
                match stateRuntimeIDs reg !! (name, hd) with
                | Some rid => (rid, true)
                | None => (0, false)
                end
            end).
Proof.
  intros Hhp Hhd. unfold StateToRuntimeID. rewrite Hhp. cbn.
  destruct (stateRuntimeIDs reg !! (name, hp)); [done|].
  fold (defaultProperties reg name). rewrite Hhd. cbn.
  by destruct (stateRuntimeIDs reg !! (name, hd)).
Qed.

(** C6.  After the states [ss] have been registered, the lookup of
    [(name, properties)] first tries the exact pair of the name and the
    canonical hash of the properties; on a miss it retries with the
    default properties of the name, which are those of the first state
    registered under the name, and returns the runtime ID of that state
    with found=true; found=false is returned only when both lookups
    miss. *)
Theorem StateToRuntimeID_fallback (ss : list blockState) (reg : Registry)
    (name : string) (properties : Properties) (hp : string)
    (Hreg : registerBlockStates ss ClearStates = Return reg)
    (Hhp : hashProperties properties = Return hp) :
  exists hd,
    defaultProperties reg name
      = from_option (fun hit => Properties_ hit.2) None (firstNamed name ss) ∧
    hashProperties (defaultProperties reg name) = Return hd ∧
    StateToRuntimeID reg name properties =
      Return (match stateRuntimeIDs reg !! (name, hp) with
              | Some rid => (rid, true)
              | None =>
                  match stateRuntimeIDs reg !! (name, hd) with
                  | Some rid => (rid, true)
                  | None => (0, false)
                  end
              end) ∧
    (forall i s, firstNamed name ss = Some (i, s) ->
       stateRuntimeIDs reg !! (name, hd) = Some (uint32 (Z.of_nat i))).
Proof.
  destruct (registerBlockStates_inv ss _ _ registry_inv_clear Hreg)
    as [[Hprops Hrids] Hblocks].
  cbn in Hblocks. subst ss.
  assert (Hdef : defaultProperties reg name
                 = from_option (fun hit => Properties_ hit.2) None
                     (firstNamed name (blocks reg))).
  { unfold defaultProperties. rewrite Hprops.
    by destruct (firstNamed name (blocks reg)). }
  assert (Hhd : exists hd,
             hashProperties (defaultProperties reg name) = Return hd ∧
             forall i s, firstNamed name (blocks reg) = Some (i, s) ->
               stateRuntimeIDs reg !! (name, hd) = Some (uint32 (Z.of_nat i))).
  { rewrite Hdef.
    destruct (firstNamed name (blocks reg)) as [[i s]|] eqn:Hfind; cbn.
    - apply list_find_Some in Hfind as (Hi & Hname & _).
      destruct (Hrids i s Hi) as (h & Hh & Hrid).
      exists h. split; [done|]. intros ? ? [= <- <-]. by rewrite <- Hname.
    - exists EmptyString. split; [done|]. done. }
  destruct Hhd as (hd & Hhd & Hfirst).
  exists hd. split; [done|]. split; [done|]. split; [|done].
  by apply StateToRuntimeID_protocol.
Qed.

End RegistryFacts.

(** ** Biome storages and the marker pointing to the previous storage *)

Module BiomeFacts.

Section Biomes.
Context `{ChunkCodec}.





Lemma decodePalettedStorage_marker_rest hdr tl e pe :
  Z.shiftr (byteZ hdr) 1 = 127 ->
  decodePalettedStorage (hdr :: tl) e pe = inr (None, tl).
Proof. intros Hm. cbn. by rewrite decide_True. Qed.





Lemma decodeBiomes_marker_first hdr tl c e :
  (0 < length (sub c))%nat ->
  Z.shiftr (byteZ hdr) 1 = 127 ->
  decodeBiomes (hdr :: tl) c e =
    Return (inl (Errorf "first biome storage pointed to previous one")).
Proof.
  intros Hsub Hm. unfold decodeBiomes.
  rewrite decide_True by done.
  destruct (length (sub c)) as [|n]; [lia|].
  cbn -[decodePalettedStorage].
  rewrite decodePalettedStorage_marker_rest by done.
  by rewrite decide_True.
Qed.

(** [DiskDecode] returns that error, and no chunk, when the biome data
    start with the marker. *)
Lemma DiskDecode_marker_first reg data rg hdr tl airRID :
  StateToRuntimeID reg "minecraft:air" None = Return (airRID, true) ->
  Biomes data = hdr :: tl ->
  Z.shiftr (byteZ hdr) 1 = 127 ->
  (0 < length (sub (New airRID rg)))%nat ->
  DiskDecode reg data rg =
    Return (inl (Errorf "first biome storage pointed to previous one")).
Proof.
  intros Hair Hbiomes Hm Hsub. unfold DiskDecode.
  rewrite Hair, OutcomeFacts.bind_Return. cbn [snd fst negb].
  rewrite Hbiomes, decodeBiomes_marker_first by done.
  by rewrite OutcomeFacts.bind_Return.
Qed.


End Biomes.

End BiomeFacts.

(** ** Hashed runtime IDs in network chunks *)

Module NetworkFacts.

Section Network.
Context `{ChunkCodec} `{NbtCodec}.
Variable ridHashLookup : gmap Z Z.

(** A storage and a sub chunk with every palette entry replaced by its
    image under the lookup table. *)
Definition remapPalette (st : PalettedStorage) : PalettedStorage :=
  {| indices := indices st;
     palette := {| size := size (palette st);
                   values := lookupRid ridHashLookup <$> values (palette st) |} |}.

Definition remapSub (s : SubChunk) : SubChunk :=
  {| sub_air := sub_air s;
     storages := option_map remapPalette <$> storages s |}.

(** The sub chunks that the first [n] iterations from [i] on decode,
    each with the index it is stored at, in the order of decoding.  The
    trace ends at the first sub chunk that fails to decode. *)
Fixpoint subChunkTrace (n i : nat) (buf : list byte) (c : Chunk)
    : list (Z * SubChunk) :=
  match n with
  | O => []
  | S n =>
      match decodeSubChunk buf c (uint8 (Z.of_nat i)) NetworkEncoding with
      | (inr (s, buf), index) => (index, s) :: subChunkTrace n (S i) buf c
      | (inl _, _) => []
      end
  end.

Definition writeSub (f : SubChunk -> SubChunk) (subs : list SubChunk)
    (w : Z * SubChunk) : list SubChunk :=
  <[Z.to_nat w.1 := f w.2]> subs.

Lemma lookupRid_absent v : ridHashLookup !! v = None -> lookupRid ridHashLookup v = 0.
Proof. unfold lookupRid. by intros ->. Qed.

Lemma remapValues_loop (pre todo : list Z) :
  foldl (fun vals i2 =>
           match vals !! i2 with
           | Some v => <[i2 := lookupRid ridHashLookup v]> vals
           | None => vals
           end) (pre ++ todo) (seq (length pre) (length todo))
  = pre ++ (lookupRid ridHashLookup <$> todo).
Proof.
  revert pre. induction todo as [|v todo IH]; intros pre; [done|].
  cbn [length seq foldl].
  rewrite list_lookup_middle by done.
  replace (<[length pre := lookupRid ridHashLookup v]> (pre ++ v :: todo))
    with ((pre ++ [lookupRid ridHashLookup v]) ++ todo).
  2:{ rewrite <- app_assoc. cbn.
      pose proof (insert_app_r pre (v :: todo) 0
                    (lookupRid ridHashLookup v)) as Hins.
      rewrite Nat.add_0_r in Hins. by rewrite Hins. }
  replace (S (length pre))
    with (length (pre ++ [lookupRid ridHashLookup v]))
    by (rewrite length_app; cbn; lia).
  rewrite IH. by rewrite <- app_assoc.
Qed.

Lemma remapValues_fmap (vals : list Z) :
  remapValues ridHashLookup vals = lookupRid ridHashLookup <$> vals.
Proof. apply (remapValues_loop [] vals). Qed.

Lemma remapStorages_ok ss ss' :
  remapStorages ridHashLookup ss = Return ss' ->
  Forall is_Some ss ∧ ss' = option_map remapPalette <$> ss.
Proof.
  revert ss'. induction ss as [|[st|] ss IH]; intros ss'; cbn.
  - by intros [= <-].
  - destruct (remapStorages ridHashLookup ss) as [ss1|] eqn:Hss;
      cbn; [|discriminate].
    intros [= <-]. destruct (IH _ eq_refl) as [Hall ->].
    split; [by constructor|].
    cbn. unfold remapPalette. by rewrite remapValues_fmap.
  - discriminate.
Qed.

Lemma remapSubChunk_ok c index s c' :
  sub c !! Z.to_nat index = Some s ->
  remapSubChunk ridHashLookup c index = Return c' ->
  Forall is_Some (storages s) ∧
  c' = withSub c (<[Z.to_nat index := remapSub s]> (sub c)).
Proof.
  unfold remapSubChunk. intros ->.
  destruct (remapStorages ridHashLookup (storages s)) as [ss|] eqn:Hss;
    cbn; [|discriminate].
  intros [= <-]. destruct (remapStorages_ok _ _ Hss) as [Hall ->]. done.
Qed.

Lemma assignSubChunk_ok buf c i e c' index buf' :
  assignSubChunk buf c i e = Return (inr (c', index, buf')) ->
  exists s,
    decodeSubChunk buf c i e = (inr (s, buf'), index) ∧
    (Z.to_nat index < length (sub c))%nat ∧
    c' = withSub c (<[Z.to_nat index := s]> (sub c)).
Proof.
  unfold assignSubChunk.
  destruct (decodeSubChunk buf c i e) as [[err|[s rest]] index0].
  - case_decide; discriminate.
  - case_decide; [discriminate|]. intros [= <- <- <-].
    exists s. split; [done|]. split; [lia|done].
Qed.

(** [decodeSubChunk] reads the air runtime ID and the range of the
    chunk, and nothing else of it. *)
Lemma decodeSubChunk_ext buf c1 c2 i e :
  air c1 = air c2 -> r c1 = r c2 ->
  decodeSubChunk buf c1 i e = decodeSubChunk buf c2 i e.
Proof. intros Hair Hr. unfold decodeSubChunk. by rewrite Hair, Hr. Qed.

Lemma subChunkTrace_ext n i buf c1 c2 :
  air c1 = air c2 -> r c1 = r c2 ->
  subChunkTrace n i buf c1 = subChunkTrace n i buf c2.
Proof.
  intros Hair Hr. revert i buf. induction n as [|n IH]; intros i buf; [done|].
  cbn. rewrite (decodeSubChunk_ext buf c1 c2) by done.
  destruct (decodeSubChunk buf c2 _ _) as [[?|[s rest]] index]; [done|].
  by rewrite IH.
Qed.

(** The loop over the sub chunks with [hashedRids] set: every decoded
    sub chunk is stored with its palettes remapped. *)
Lemma networkSubChunks_hashed n i buf c c' buf' :
  networkSubChunks ridHashLookup n i buf c true = Return (inr (c', buf')) ->
  air c' = air c ∧ r c' = r c ∧ biomes c' = biomes c ∧
  length (subChunkTrace n i buf c) = n ∧
  sub c' = foldl (writeSub remapSub) (sub c) (subChunkTrace n i buf c) ∧
  Forall (fun w => Forall is_Some (storages w.2)) (subChunkTrace n i buf c).
Proof.
  revert i buf c. induction n as [|n IH]; intros i buf c; cbn.
  - intros [= <- <-]. done.
  - destruct (assignSubChunk buf c _ _) as [[err|[[c1 index] buf1]]|]
      eqn:Hassign; cbn; [discriminate| |discriminate].
    apply assignSubChunk_ok in Hassign as (s & Hdec & Hidx & ->).
    rewrite Hdec.
    destruct (remapSubChunk ridHashLookup _ index) as [c2|] eqn:Hremap;
      cbn; [|discriminate].
    apply (remapSubChunk_ok _ _ s) in Hremap as [Hall ->];
      [|by apply list_lookup_insert_eq].
    intros Hloop. apply IH in Hloop as (Hair & Hr & Hbiomes & Hlen & Hsub & Hfa).
    rewrite (subChunkTrace_ext n (S i) buf1 _ c) in Hlen by done.
    rewrite (subChunkTrace_ext n (S i) buf1 _ c) in Hsub by done.
    rewrite (subChunkTrace_ext n (S i) buf1 _ c) in Hfa by done.
    cbn in Hair, Hr, Hbiomes, Hsub.
    rewrite list_insert_insert_eq in Hsub.
    repeat split; try done.
    + cbn. by rewrite Hlen.
    + by constructor.
Qed.

(** The fuel handed to the loop over the block entity compounds is
    enough: more of it changes nothing. *)
Lemma blockNBTLoop_fuel fuel1 fuel2 buf blockNBTs :
  (length buf <= fuel1)%nat -> (length buf <= fuel2)%nat ->
  blockNBTLoop fuel1 buf blockNBTs = blockNBTLoop fuel2 buf blockNBTs.
Proof.
  revert fuel2 buf blockNBTs.
  induction fuel1 as [|fuel1 IH]; intros fuel2 buf blockNBTs H1 H2.
  { destruct buf; [|cbn in H1; lia]. by destruct fuel2. }
  destruct fuel2 as [|fuel2].
  { destruct buf; [done|cbn in H2; lia]. }
  cbn. destruct buf as [|b buf]; [done|].
  destruct (nbtDecode NetworkLittleEndian true (b :: buf)) as [err|[m rest]]
    eqn:Hdec; [done|].
  apply nbtDecode_progress in Hdec.
  apply IH; cbn in *; lia.
Qed.

Lemma foldl_sub {A} (f : Chunk -> A -> Chunk) (l : list A) (c : Chunk) :
  (forall c a, sub (f c a) = sub c) -> sub (foldl f c l) = sub c.
Proof.
  intros Hf. revert c. induction l as [|a l IH]; intros c; [done|].
  cbn. by rewrite IH, Hf.
Qed.

Lemma setOldBiomes_sub biomes rg c : sub (setOldBiomes biomes rg c) = sub c.
Proof.
  unfold setOldBiomes. apply foldl_sub. intros c1 x.
  apply foldl_sub. intros c2 z. apply foldl_sub. intros c3 k.
  apply SetBiome_sub.
Qed.

(** The image of a palette entry under the table: the runtime ID filed
    under the hash, and 0 for a hash that the table does not hold. *)
Definition tableImage (v : Z) : Z :=
  match ridHashLookup !! v with
  | Some rid => rid
  | None => 0
  end.

Definition imagePalette (st : PalettedStorage) : PalettedStorage :=
  {| indices := indices st;
     palette := {| size := size (palette st);
                   values := tableImage <$> values (palette st) |} |}.

Definition imageSub (s : SubChunk) : SubChunk :=
  {| sub_air := sub_air s;
     storages := option_map imagePalette <$> storages s |}.

Lemma remapStorages_nonnil ss :
  Forall is_Some ss -> exists ss', remapStorages ridHashLookup ss = Return ss'.
Proof.
  induction 1 as [|st ss [st' ->] _ [ss' IH]]; cbn; [eauto|].
  rewrite IH. cbn. eauto.
Qed.

(** What is left of [NetworkDecode] after the loop over the sub chunks:
    the biomes and the block entity compounds. *)
Definition finishDecode (oldBiomes : bool) (rg : Range_) (c : Chunk)
    (buf : list byte) : outcome (error + (Chunk * list (gmap string Tag))) :=
  res ← (if oldBiomes then
           match readOldBiomes buf with
           | inl err => Return (inl err)
           | inr (biomes, buf) => Return (inr (setOldBiomes biomes rg c, buf))
           end
         else
           res ← networkBiomesLoop (length (sub c)) 0 None buf (biomes c);
           match res with
           | inl err => Return (inl err)
           | inr (bs, buf) => Return (inr (withBiomes c bs, buf))
           end);
  match res with
  | inl err => Return (inl err)
  | inr (c, buf) =>
      match blockNBTLoop (length buf) buf [] with
      | inl err => Return (inl err)
      | inr blockNBTs => Return (inr (c, blockNBTs))
      end
  end.

Lemma NetworkDecode_finish air data count oldBiomes hashedRids rg :
  NetworkDecode ridHashLookup air data count oldBiomes hashedRids rg
  = (res ← networkSubChunks ridHashLookup (Z.to_nat count) 0 data
             (New air rg) hashedRids;
     match res with
     | inl err => Return (inl err)
     | inr (c, buf) => finishDecode oldBiomes rg c buf
     end).
Proof. reflexivity. Qed.

(** The biomes and the block entity compounds are read alike into two
    chunks that have as many sub chunks and the same biomes. *)
Lemma finishDecode_ext oldBiomes rg c1 c2 buf c1' blockNBTs :
  length (sub c1) = length (sub c2) -> biomes c1 = biomes c2 ->
  finishDecode oldBiomes rg c1 buf = Return (inr (c1', blockNBTs)) ->
  exists c2',
    finishDecode oldBiomes rg c2 buf = Return (inr (c2', blockNBTs)) ∧
    sub c2' = sub c2.
Proof.
  intros Hlen Hbiomes Hfin. unfold finishDecode in *.
  apply OutcomeFacts.bind_Return_inv in Hfin as (res & Hres & Hfin).
  destruct res as [err|[c3 buf3]]; [discriminate|].
  destruct (blockNBTLoop _ _ _) as [err|nbts] eqn:Hnbt; [discriminate|].
  injection Hfin as _ <-.
  destruct oldBiomes.
  - destruct (readOldBiomes buf) as [err|[bio buf4]]; [discriminate|].
    injection Hres as _ <-.
    exists (setOldBiomes bio rg c2). rewrite OutcomeFacts.bind_Return.
    cbv beta iota. rewrite Hnbt. split; [done|]. apply setOldBiomes_sub.
  - rewrite <- Hlen, <- Hbiomes.
    apply OutcomeFacts.bind_Return_inv in Hres as (res & -> & Hres).
    destruct res as [err|[bs buf4]]; [discriminate|].
    injection Hres as _ <-.
    eexists. cbv beta iota delta [mbind outcome_bind]. rewrite Hnbt. done.
Qed.

Lemma length_writeSubs (f : SubChunk -> SubChunk) trace subs :
  length (foldl (writeSub f) subs trace) = length subs.
Proof.
  revert subs. induction trace as [|w trace IH]; intros subs; [done|].
  cbn [foldl]. rewrite IH. unfold writeSub. apply length_insert.
Qed.

(** The loop over the sub chunks without [hashedRids]. *)
Lemma networkSubChunks_plain n i buf c c' buf' :
  networkSubChunks ridHashLookup n i buf c false = Return (inr (c', buf')) ->
  biomes c' = biomes c ∧ length (sub c') = length (sub c).
Proof.
  revert i buf c. induction n as [|n IH]; intros i buf c; cbn.
  - intros [= <- <-]. done.
  - destruct (assignSubChunk buf c _ _) as [[err|[[c1 index] buf1]]|]
      eqn:Hassign; cbn; [discriminate| |discriminate].
    apply assignSubChunk_ok in Hassign as (s & Hdec & Hidx & ->).
    intros Hloop. apply IH in Hloop as [Hb Hl]. cbn in Hb, Hl.
    rewrite length_insert in Hl. done.
Qed.

(** The two loops read the same bytes: they differ in the palettes they
    store, and in the panic at a nil storage. *)
Lemma networkSubChunks_plain_hashed n : forall i buf ca cb ca' buf',
  air ca = air cb -> r ca = r cb -> length (sub ca) = length (sub cb) ->
  networkSubChunks ridHashLookup n i buf ca false = Return (inr (ca', buf')) ->
  Forall (fun w => Forall is_Some (storages w.2)) (subChunkTrace n i buf ca) ->
  exists cb',
    networkSubChunks ridHashLookup n i buf cb true = Return (inr (cb', buf')).
Proof.
  induction n as [|n IH]; intros i buf ca cb ca' buf' Hair Hr Hlen; cbn.
  - intros [= <- <-] _. eauto.
  - unfold assignSubChunk.
    rewrite (decodeSubChunk_ext buf cb ca) by done. rewrite <- Hlen.
    destruct (decodeSubChunk buf ca _ _) as [[err|[s buf1]] index] eqn:Hdec.
    { case_decide; cbn; discriminate. }
    case_decide as Hidx; cbn; [discriminate|].
    intros Hloop Hnonnil. apply Forall_cons in Hnonnil as [Hs Hnonnil].
    cbn in Hs. unfold remapSubChunk. cbn.
    rewrite list_lookup_insert_eq by lia.
    destruct (remapStorages_nonnil _ Hs) as [ss ->]. cbn.
    eapply IH; [| | |exact Hloop|]; cbn; [done|done| |].
    + by rewrite !length_insert.
    + by rewrite (subChunkTrace_ext n (S i) buf1 _ ca).
Qed.

Lemma networkSubChunks_hashed_plain n : forall i buf ca cb cb' buf',
  air ca = air cb -> r ca = r cb -> length (sub ca) = length (sub cb) ->
  networkSubChunks ridHashLookup n i buf cb true = Return (inr (cb', buf')) ->
  exists ca',
    networkSubChunks ridHashLookup n i buf ca false = Return (inr (ca', buf')).
Proof.
  induction n as [|n IH]; intros i buf ca cb cb' buf' Hair Hr Hlen; cbn.
  - intros [= <- <-]. eauto.
  - unfold assignSubChunk.
    rewrite (decodeSubChunk_ext buf cb ca) by done. rewrite <- Hlen.
    destruct (decodeSubChunk buf ca _ _) as [[err|[s buf1]] index] eqn:Hdec.
    { case_decide; cbn; discriminate. }
    case_decide as Hidx; cbn; [discriminate|].
    destruct (remapSubChunk _ _ _) as [c2|] eqn:Hremap; cbn; [|discriminate].
    apply (remapSubChunk_ok _ _ s) in Hremap as [_ ->];
      [|cbn; apply list_lookup_insert_eq; lia].
    intros Hloop. eapply IH; [| | |exact Hloop]; cbn; [done|done|].
    by rewrite !length_insert.
Qed.

(** C10.  [NetworkDecode] with [hashedRids] set returns a chunk exactly
    when it returns one without [hashedRids] and no decoded block
    storage is nil: whatever the hash-to-runtime-ID table holds, no
    error and no panic arises from a palette entry whose hash is absent
    from it.  The sub chunks of the chunk returned are those of the new
    chunk overwritten, in the order of decoding, by every decoded sub
    chunk with each palette entry replaced by its image under the
    table; the image of a hash that is absent from the table is the
    runtime ID 0. *)
Theorem NetworkDecode_hashedRids (air : Z) (data : list byte) (count : Z)
    (oldBiomes : bool) (r : Range_) (blockNBTs : list (gmap string Tag)) :
  let trace := subChunkTrace (Z.to_nat count) 0 data (New air r) in
  ((exists c, NetworkDecode ridHashLookup air data count oldBiomes true r
              = Return (inr (c, blockNBTs)))
   <-> (exists c0, NetworkDecode ridHashLookup air data count oldBiomes false r
                   = Return (inr (c0, blockNBTs)))
       ∧ Forall (fun w => Forall is_Some (storages w.2)) trace) ∧
  (forall c,
     NetworkDecode ridHashLookup air data count oldBiomes true r
     = Return (inr (c, blockNBTs)) ->
     length trace = Z.to_nat count ∧
     sub c = foldl (writeSub imageSub) (sub (New air r)) trace).
Proof.
  intros trace.
  assert (Hhashed : forall c,
            NetworkDecode ridHashLookup air data count oldBiomes true r
            = Return (inr (c, blockNBTs)) ->
            exists c1 buf1,
              networkSubChunks ridHashLookup (Z.to_nat count) 0 data
                (New air r) true = Return (inr (c1, buf1)) ∧
              finishDecode oldBiomes r c1 buf1 = Return (inr (c, blockNBTs)) ∧
              biomes c1 = biomes (New air r) ∧
              length trace = Z.to_nat count ∧
              sub c1 = foldl (writeSub imageSub) (sub (New air r)) trace ∧
              Forall (fun w => Forall is_Some (storages w.2)) trace).
  { intros c Hdec. rewrite NetworkDecode_finish in Hdec.
    apply OutcomeFacts.bind_Return_inv in Hdec as (res & Hloop & Hdec).
    destruct res as [err|[c1 buf1]]; [discriminate|].
    exists c1, buf1. split; [done|]. split; [done|].
    by apply networkSubChunks_hashed in Hloop as (_ & _ & ? & ? & ? & ?). }
  split; [split|].
  - intros [c Hdec].
    destruct (Hhashed c Hdec)
      as (c1 & buf1 & Hloop & Hfin & Hbiomes & _ & Hsub & Hnonnil).
    split; [|done].
    destruct (networkSubChunks_hashed_plain (Z.to_nat count) 0 data
                (New air r) (New air r) c1 buf1 eq_refl eq_refl eq_refl Hloop)
      as [c0 Hplain].
    destruct (networkSubChunks_plain _ _ _ _ _ _ Hplain) as [Hb0 Hl0].
    destruct (finishDecode_ext oldBiomes r c1 c0 buf1 c blockNBTs)
      as (c0' & Hfin0 & _); [|congruence|done|].
    { by rewrite Hl0, Hsub, length_writeSubs. }
    exists c0'. rewrite NetworkDecode_finish, Hplain.
    by rewrite OutcomeFacts.bind_Return.
  - intros [[c0 Hdec] Hnonnil]. rewrite NetworkDecode_finish in Hdec.
    apply OutcomeFacts.bind_Return_inv in Hdec as (res & Hplain & Hdec).
    destruct res as [err|[c1 buf1]]; [discriminate|].
    destruct (networkSubChunks_plain _ _ _ _ _ _ Hplain) as [Hb0 Hl0].
    destruct (networkSubChunks_plain_hashed (Z.to_nat count) 0 data
                (New air r) (New air r) c1 buf1 eq_refl eq_refl eq_refl
                Hplain Hnonnil) as [c2 Hloop].
    pose proof Hloop as Hfacts.
    apply networkSubChunks_hashed in Hfacts as (_ & _ & Hb2 & _ & Hsub & _).
    destruct (finishDecode_ext oldBiomes r c1 c2 buf1 c0 blockNBTs)
      as (c & Hfin & _); [|congruence|done|].
    { by rewrite Hl0, Hsub, length_writeSubs. }
    exists c. rewrite NetworkDecode_finish, Hloop.
    by rewrite OutcomeFacts.bind_Return.
  - intros c Hdec.
    destruct (Hhashed c Hdec)
      as (c1 & buf1 & _ & Hfin & _ & Hlen & Hsub & _).
    split; [done|].
    destruct (finishDecode_ext oldBiomes r c1 c1 buf1 c blockNBTs)
      as (c' & Hfin' & Hsub'); [done..|].
    rewrite Hfin in Hfin'. injection Hfin' as <-. by rewrite Hsub'.
Qed.

End Network.

End NetworkFacts.

(** ** The key-value store *)

Module StoreFacts.
Import LevelDB Mcdb.

(** The first pending fault decides the outcome of an operation. *)
Lemma dbGet_fault key db cause rest :
  faults (ldb db) = Some cause :: rest ->
  (dbGet key db).1 = inl (ErrStore cause) ∧
  faults (ldb (dbGet key db).2) = rest ∧
  kv (ldb (dbGet key db).2) = kv (ldb db).
Proof.
  intros Hf. unfold dbGet, Get, nextFault. rewrite Hf. done.
Qed.

Lemma dbGet_no_fault key db rest :
  faults (ldb db) = None :: rest ->
  (dbGet key db).1 = from_option inr (inl ErrNotFound) (kv (ldb db) !! key) ∧
  faults (ldb (dbGet key db).2) = rest ∧
  kv (ldb (dbGet key db).2) = kv (ldb db).
Proof.
  intros Hf. unfold dbGet, Get, nextFault. rewrite Hf. cbn.
  by destruct (kv (ldb db) !! key).
Qed.

Lemma dbPut_fault key value db cause rest :
  faults (ldb db) = Some cause :: rest ->
  (dbPut key value db).1 = Some (ErrStore cause) ∧
  kv (ldb (dbPut key value db).2) = kv (ldb db).
Proof.
  intros Hf. unfold dbPut, Put, nextFault. rewrite Hf. done.
Qed.

(** A read, by the head of the fault schedule. *)
Lemma dbGet_cases key db :
  (exists cause,
     (nextFault (ldb db)).1 = Some cause ∧
     (dbGet key db).1 = inl (ErrStore cause)) ∨
  ((nextFault (ldb db)).1 = None ∧
   (dbGet key db).1
   = from_option inr (inl ErrNotFound) (kv (ldb db) !! key)).
Proof.
  unfold dbGet, Get, nextFault.
  destruct (faults (ldb db)) as [|[cause|] fs]; cbn.
  - right. split; [done|]. by destruct (kv (ldb db) !! key).
  - left. eauto.
  - right. split; [done|]. by destruct (kv (ldb db) !! key).
Qed.

Lemma dbGet_ldb key db :
  ldb (dbGet key db).2 = (nextFault (ldb db)).2.
Proof.
  unfold dbGet, Get.
  destruct (nextFault (ldb db)) as [[cause|] l]; [done|].
  by destruct (kv l !! key).
Qed.

Lemma nextFault_kv l : kv (nextFault l).2 = kv l.
Proof. unfold nextFault. by destruct (faults l). Qed.

Lemma dbPut_lookup_ne key value db key' :
  key ≠ key' ->
  kv (ldb (dbPut key value db).2) !! key' = kv (ldb db) !! key'.
Proof.
  intros Hne. unfold dbPut, Put, nextFault.
  destruct (faults (ldb db)) as [|[cause|] fs]; cbn; try done;
    by rewrite lookup_insert_ne.
Qed.

Lemma withLdb_id (db : Provider) : withLdb db (ldb db) = db.
Proof. by destruct db. Qed.

Lemma dbGet_quiet key db :
  faults (ldb db) = [] ->
  dbGet key db = (from_option inr (inl ErrNotFound) (kv (ldb db) !! key), db).
Proof.
  intros Hf. unfold dbGet, Get, nextFault. rewrite Hf.
  destruct (kv (ldb db) !! key); cbn; by rewrite withLdb_id.
Qed.


Lemma dbDelete_lookup_ne key db key' :
  key ≠ key' ->
  kv (ldb (dbDelete key db).2) !! key' = kv (ldb db) !! key'.
Proof.
  intros Hne. unfold dbDelete, Delete, nextFault.
  destruct (faults (ldb db)) as [|[cause|] fs]; cbn; try done;
    by rewrite lookup_delete_ne.
Qed.

Lemma dbPut_quiet key value db :
  faults (ldb db) = [] ->
  (dbPut key value db).1 = None ∧
  kv (ldb (dbPut key value db).2) = <[key := value]> (kv (ldb db)) ∧
  faults (ldb (dbPut key value db).2) = [].
Proof. intros Hf. unfold dbPut, Put, nextFault. by rewrite Hf. Qed.

Lemma dbDelete_quiet key db :
  faults (ldb db) = [] ->
  (dbDelete key db).1 = None ∧
  kv (ldb (dbDelete key db).2) = delete key (kv (ldb db)) ∧
  faults (ldb (dbDelete key db).2) = [].
Proof. intros Hf. unfold dbDelete, Delete, nextFault. by rewrite Hf. Qed.

End StoreFacts.

(** ** The world provider: chunks *)

Module ChunkStoreFacts.
Import LevelDB Mcdb StoreFacts.

Section Chunks.
Context `{ChunkCodec} `{NbtCodec}.
Variable chunkVersion : byte.

(** [SaveChunk] returns nil whatever the store does. *)
Lemma SaveChunk_nil position c dim db :
  (SaveChunk chunkVersion position c dim db).1 = None.
Proof.
  unfold SaveChunk.
  destruct (dbPut _ _ db) as [e1 db1].
  destruct (dbPut _ _ db1) as [e2 db2].
  destruct (dbPut _ _ db2) as [e3 db3]. done.
Qed.

Lemma saveSubChunks_lookup subs i key c db tag :
  kv (ldb (saveSubChunks subs i key c db)) !! (key ++ [tag])
  = kv (ldb db) !! (key ++ [tag]).
Proof.
  revert i db. induction subs as [|s subs IH]; intros i db; [done|].
  cbn. destruct (dbPut _ s db) as [e db1] eqn:Hput.
  rewrite IH. change db1 with (e, db1).2. rewrite <- Hput.
  apply dbPut_lookup_ne. intros Heq. by apply app_inv_head in Heq.
Qed.

(** C2 (amended).  [SaveChunk] returns a nil error in every case: the
    errors of its store writes are dropped.  In particular, when the
    write of the version byte fails, the call still returns nil and the
    version key holds what it held before. *)
Theorem SaveChunk_drops_store_errors (position : ChunkPos) (c : Chunk)
    (dim : Dimension) (db : Provider) :
  (SaveChunk chunkVersion position c dim db).1 = None ∧
  forall cause rest,
    faults (ldb db) = Some cause :: rest ->
    kv (ldb (SaveChunk chunkVersion position c dim db).2)
      !! (index position dim ++ [keyVersion])
    = kv (ldb db) !! (index position dim ++ [keyVersion]).
Proof.
  split; [apply SaveChunk_nil|]. intros cause rest Hf.
  unfold SaveChunk.
  destruct (dbPut _ _ db) as [e1 db1] eqn:Hput1.
  destruct (dbPut _ _ db1) as [e2 db2] eqn:Hput2.
  destruct (dbPut _ _ db2) as [e3 db3] eqn:Hput3. cbn.
  rewrite saveSubChunks_lookup.
  change db3 with (e3, db3).2. rewrite <- Hput3.
  rewrite dbPut_lookup_ne
    by (intros Heq; by apply app_inv_head in Heq).
  change db2 with (e2, db2).2. rewrite <- Hput2.
  rewrite dbPut_lookup_ne
    by (intros Heq; by apply app_inv_head in Heq).
  change db1 with (e1, db1).2. rewrite <- Hput1.
  by rewrite (proj2 (dbPut_fault _ _ _ cause rest Hf)).
Qed.

Lemma loadChunkData_exists reg key dim db res db' :
  loadChunkData reg key dim db = Return (res, db') ->
  lc_exists res = true.
Proof.
  unfold loadChunkData.
  destruct (dbGet _ db) as [r1 d1]. case_decide; [by intros [= <- _]|].
  destruct (loadSubChunks _ _ _ _ _ _) as [[err|subs] d2];
    [by intros [= <- _]|].
  intros Hdec.
  apply OutcomeFacts.bind_Return_inv in Hdec as ([err|c] & _ & Hdec);
    by injection Hdec as <- _.
Qed.

(** When [LoadChunk] reports exists=false: the read of the current
    version key is answered with "not found", and the read of the
    legacy version key gives any error at all, "not found" or a failure
    of the store.  The error returned is then nil. *)
Lemma LoadChunk_exists_false reg position dim db res db' :
  LoadChunk reg position dim db = Return (res, db') ->
  (lc_exists res = false <->
   (dbGet (index position dim ++ [keyVersion]) db).1 = inl ErrNotFound ∧
   is_inl (dbGet (index position dim ++ [keyVersionOld])
             (dbGet (index position dim ++ [keyVersion]) db).2).1) ∧
  (lc_exists res = false -> lc_err res = None).
Proof.
  unfold LoadChunk.
  destruct (dbGet (index position dim ++ [keyVersion]) db) as [r1 d1].
  cbn [fst snd].
  destruct r1 as [err|v].
  - destruct (decide (err = ErrNotFound)) as [->|Hne].
    + destruct (dbGet (index position dim ++ [keyVersionOld]) d1)
        as [r2 d2]. cbn [fst snd].
      destruct r2 as [err|v].
      * intros [= <- _]. cbn. split; [|done].
        split; [|done]. intros _. split; [done|]. by eexists.
      * intros Hdata%loadChunkData_exists. rewrite Hdata.
        split; [|done]. split; [done|].
        intros [_ [? [=]]].
    + assert (Hret : forall k,
                match err with
                | ErrNotFound => k
                | _ => Return ({| lc_c := None; lc_exists := true;
                                  lc_err := Some (Wrap "error reading version" err) |},
                               d1)
                end = Return (res, db') -> lc_exists res = true).
      { intros k. destruct err; try (by intros [= <- _]). done. }
      intros Hres%Hret. rewrite Hres. split; [|done]. split; [done|].
      intros [[= ->] _]. done.
  - intros Hdata%loadChunkData_exists. rewrite Hdata.
    split; [|done]. split; [done|]. intros [[=] _].
Qed.

(** A failed read of the legacy version key is taken for an absent
    chunk: exists=false and a nil error, whether or not the key is
    there. *)
Lemma LoadChunk_legacy_error reg position dim db cause rest :
  faults (ldb db) = None :: Some cause :: rest ->
  kv (ldb db) !! (index position dim ++ [keyVersion]) = None ->
  exists db',
    LoadChunk reg position dim db
    = Return ({| lc_c := None; lc_exists := false; lc_err := None |}, db').
Proof.
  intros Hf Hnew. unfold LoadChunk, dbGet, Get, nextFault. rewrite Hf.
  cbn. rewrite Hnew. cbn. eauto.
Qed.

End Chunks.

End ChunkStoreFacts.

(** ** The world provider: entities *)

Module EntityFacts.
Import LevelDB Mcdb StoreFacts.

Section Entities.
Context `{NbtCodec} {Entity : Type}.
Variable Type_ : Entity -> @EntityType Entity.
Variables (pos : ChunkPos) (reg : string -> option (@EntityType Entity)).

(** The compounds of a stream, one [Decode] after the other until the
    buffer is empty. *)
Fixpoint decodeStream (fuel : nat) (buf : list byte)
    : error + list (gmap string Tag) :=
  match fuel with
  | O => inr []
  | S fuel =>
      match buf with
      | [] => inr []
      | _ =>
          match nbtDecode LittleEndian false buf with
          | inl err => inl err
          | inr (m, rest) =>
              match decodeStream fuel rest with
              | inl err => inl err
              | inr ms => inr (m :: ms)
              end
          end
      end
  end.

(** The keys of the records that a [digp] value lists. *)
Fixpoint actorKeys (fuel : nat) (digp : list byte) : list (list byte) :=
  match fuel with
  | O => []
  | S fuel =>
      match digp with
      | [] => []
      | _ => (bytesOf "actorprefix" ++ take 8 digp)
               :: actorKeys fuel (drop 8 digp)
      end
  end.

(** The compounds of the records under the keys; an absent record reads
    as the empty buffer. *)
Fixpoint decodeRecords (store : gmap (list byte) (list byte))
    (keys : list (list byte)) : error + list (gmap string Tag) :=
  match keys with
  | [] => inr []
  | key :: keys =>
      match nbtDecode LittleEndian false (default [] (store !! key)) with
      | inl err => inl err
      | inr (m, _) =>
          match decodeRecords store keys with
          | inl err => inl err
          | inr ms => inr (m :: ms)
          end
      end
  end.

(** The compounds of records, each decoded on its own; the first record
    that fails to decode gives the error. *)
Fixpoint decodeEach (records : list (list byte))
    : error + list (gmap string Tag) :=
  match records with
  | [] => inr []
  | record :: records =>
      match nbtDecode LittleEndian false record with
      | inl err => inl err
      | inr (m, _) =>
          match decodeEach records with
          | inl err => inl err
          | inr ms => inr (m :: ms)
          end
      end
  end.

(** The records that the store holds under the keys. *)
Definition storedRecords (store : gmap (list byte) (list byte))
    (keys : list (list byte)) : list (list byte) :=
  omap (fun key => store !! key) keys.

(** [loadEntity] on each compound in turn; nil results are left out. *)
Definition loadAll (ms : list (gmap string Tag)) (a : list Entity)
    (db : Provider) : list Entity * Provider :=
  foldl (fun st m =>
           let '(e, db) := loadEntity m pos reg st.2 in
           (appendEntity st.1 e, db)) (a, db) ms.

Lemma mod8_sub (n : nat) :
  (n mod 8 = 0 -> 8 <= n -> (n - 8) mod 8 = 0)%nat.
Proof.
  intros Hm Hle. pose proof (Nat.div_mod_eq n 8) as Hn.
  rewrite Hm in Hn.
  replace (n - 8)%nat with ((n / 8 - 1) * 8)%nat by lia.
  apply Nat.Div0.mod_mul.
Qed.

Lemma index_length_9_13 dim :
  length (index pos dim) = 8%nat ∨ length (index pos dim) = 12%nat.
Proof. apply IndexFacts.index_length. Qed.

Lemma loadEntity_ldb m db : ldb (loadEntity m pos reg db).2 = ldb db.
Proof.
  unfold loadEntity. destruct (m !! "identifier") as [id|]; [|done].
  destruct (reg _) as [ty|]; [|done].
  destruct (saveable ty) as [sv|]; [|done].
  by destruct (m !! "UniqueID").
Qed.

Lemma loadAll_ldb ms a db : ldb (loadAll ms a db).2 = ldb db.
Proof.
  revert a db. induction ms as [|m ms IH]; intros a db; [done|].
  unfold loadAll in *. cbn.
  destruct (loadEntity m pos reg db) as [e db1] eqn:Hload.
  rewrite IH. replace db1 with (loadEntity m pos reg db).2
    by (by rewrite Hload).
  apply loadEntity_ldb.
Qed.

Lemma loadAll_cons m ms a db :
  loadAll (m :: ms) a db
  = loadAll ms (appendEntity a (loadEntity m pos reg db).1)
      (loadEntity m pos reg db).2.
Proof. unfold loadAll. cbn. by destruct (loadEntity m pos reg db). Qed.

Lemma loadAll_app ms1 ms2 a db :
  loadAll (ms1 ++ ms2) a db
  = loadAll ms2 (loadAll ms1 a db).1 (loadAll ms1 a db).2.
Proof.
  unfold loadAll. rewrite foldl_app.
  by destruct (foldl _ (a, db) ms1).
Qed.

(** The loop over the inline stream: it stops with an error at the
    first compound that fails to decode, and otherwise hands every
    compound to [loadEntity]. *)
Lemma loadInlineEntities_spec fuel buf a db :
  (loadInlineEntities fuel buf pos reg a db).1
    = match decodeStream fuel buf with
      | inl err => inl (Wrap "error decoding entity NBT" err)
      | inr ms => inr (loadAll ms a db).1
      end ∧
  ldb (loadInlineEntities fuel buf pos reg a db).2 = ldb db ∧
  forall ms, decodeStream fuel buf = inr ms ->
             (loadInlineEntities fuel buf pos reg a db).2 = (loadAll ms a db).2.
Proof.
  revert buf a db. induction fuel as [|fuel IH]; intros buf a db; cbn.
  { split; [done|]. split; [done|]. by intros ms [= <-]. }
  destruct buf as [|b buf].
  { split; [done|]. split; [done|]. by intros ms [= <-]. }
  destruct (nbtDecode LittleEndian false (b :: buf)) as [err|[m rest]];
    [done|].
  destruct (loadEntity m pos reg db) as [e db1] eqn:Hload.
  destruct (IH rest (appendEntity a e) db1) as (Hres & Hldb & Hst).
  assert (Hdb1 : ldb db1 = ldb db).
  { replace db1 with (loadEntity m pos reg db).2 by (by rewrite Hload).
    apply loadEntity_ldb. }
  rewrite Hres, Hldb.
  destruct (decodeStream fuel rest) as [err|ms].
  - done.
  - rewrite loadAll_cons, Hload. cbn. split; [done|]. split; [done|].
    intros ms' [= <-]. rewrite loadAll_cons, Hload. cbn. by apply Hst.
Qed.

(** The loop over the records listed in [digp], on a quiet store. *)
Lemma loadActorEntities_spec fuel digp a db :
  faults (ldb db) = [] ->
  (length digp mod 8 = 0)%nat ->
  exists db',
    loadActorEntities fuel digp pos reg a db
    = Return (match decodeRecords (kv (ldb db)) (actorKeys fuel digp) with
              | inl err => inl (Wrap "error decoding entity NBT" err)
              | inr ms => inr (loadAll ms a db).1
              end, db').
Proof.
  revert digp a db. induction fuel as [|fuel IH]; intros digp a db Hf Hal.
  { cbn. eauto. }
  cbn [loadActorEntities actorKeys].
  destruct digp as [|b digp]; [cbn; eauto|].
  set (d := b :: digp) in *.
  assert (8 <= length d)%nat.
  { assert (length d ≠ 0)%nat by done.
    destruct (decide (length d < 8)%nat) as [Hlt|]; [|lia].
    rewrite Nat.mod_small in Hal by done. lia. }
  rewrite decide_False by lia.
  rewrite dbGet_quiet by done. cbn [decodeRecords].
  set (key := bytesOf "actorprefix" ++ take 8 d).
  rewrite decide_False by (destruct (kv (ldb db) !! key); cbn; intros [[? ?] ?]; done).
  replace (match from_option inr (inl ErrNotFound) (kv (ldb db) !! key) with
           | inl _ => []
           | inr v => v
           end) with (default [] (kv (ldb db) !! key))
    by (by destruct (kv (ldb db) !! key)).
  destruct (nbtDecode LittleEndian false _) as [err|[m rest]]; [eauto|].
  destruct (loadEntity m pos reg db) as [e db1] eqn:Hload.
  assert (Hdb1 : ldb db1 = ldb db).
  { replace db1 with (loadEntity m pos reg db).2 by (by rewrite Hload).
    apply loadEntity_ldb. }
  destruct (IH (drop 8 d) (appendEntity a e) db1) as (db' & ->).
  { by rewrite Hdb1. }
  { rewrite length_drop. by apply mod8_sub. }
  rewrite Hdb1. exists db'.
  destruct (decodeRecords _ _) as [err|ms]; [done|].
  by rewrite loadAll_cons, Hload.
Qed.

(** The fuel handed to the loops is enough: more of it changes
    nothing. *)
Lemma loadInlineEntities_fuel fuel1 fuel2 buf a db :
  (length buf <= fuel1)%nat -> (length buf <= fuel2)%nat ->
  loadInlineEntities fuel1 buf pos reg a db
  = loadInlineEntities fuel2 buf pos reg a db.
Proof.
  revert fuel2 buf a db.
  induction fuel1 as [|fuel1 IH]; intros fuel2 buf a db H1 H2.
  { destruct buf; [|cbn in H1; lia]. by destruct fuel2. }
  destruct fuel2 as [|fuel2].
  { destruct buf; [done|cbn in H2; lia]. }
  cbn. destruct buf as [|b buf]; [done|].
  destruct (nbtDecode LittleEndian false (b :: buf)) as [err|[m rest]]
    eqn:Hdec; [done|].
  apply nbtDecode_progress in Hdec.
  destruct (loadEntity m pos reg db) as [e db1].
  apply IH; cbn in *; lia.
Qed.

Lemma decodeStream_fuel fuel1 fuel2 buf :
  (length buf <= fuel1)%nat -> (length buf <= fuel2)%nat ->
  decodeStream fuel1 buf = decodeStream fuel2 buf.
Proof.
  revert fuel2 buf.
  induction fuel1 as [|fuel1 IH]; intros fuel2 buf H1 H2.
  { destruct buf; [|cbn in H1; lia]. by destruct fuel2. }
  destruct fuel2 as [|fuel2].
  { destruct buf; [done|cbn in H2; lia]. }
  cbn. destruct buf as [|b buf]; [done|].
  destruct (nbtDecode LittleEndian false (b :: buf)) as [err|[m rest]]
    eqn:Hdec; [done|].
  apply nbtDecode_progress in Hdec.
  rewrite (IH fuel2 rest); [done|cbn in *; lia..].
Qed.

Lemma loadActorEntities_fuel fuel1 fuel2 digp a db :
  (length digp <= fuel1)%nat -> (length digp <= fuel2)%nat ->
  loadActorEntities fuel1 digp pos reg a db
  = loadActorEntities fuel2 digp pos reg a db.
Proof.
  revert fuel2 digp a db.
  induction fuel1 as [|fuel1 IH]; intros fuel2 digp a db H1 H2.
  { destruct digp; [|cbn in H1; lia]. by destruct fuel2. }
  destruct fuel2 as [|fuel2].
  { destruct digp; [done|cbn in H2; lia]. }
  cbn [loadActorEntities]. destruct digp as [|b digp]; [done|].
  set (d := b :: digp) in *.
  case_decide; [done|].
  destruct (dbGet _ db) as [res db0]. case_decide; [done|].
  destruct (nbtDecode LittleEndian false _) as [err|[m rest]]; [done|].
  destruct (loadEntity m pos reg db0) as [e db1].
  apply IH; rewrite length_drop; lia.
Qed.

Lemma previousIDs_fuel fuel1 fuel2 digpPrev ids :
  (length digpPrev <= fuel1)%nat -> (length digpPrev <= fuel2)%nat ->
  previousIDs fuel1 digpPrev ids = previousIDs fuel2 digpPrev ids.
Proof.
  revert fuel2 digpPrev ids.
  induction fuel1 as [|fuel1 IH]; intros fuel2 digpPrev ids H1 H2.
  { destruct digpPrev; [|cbn in H1; lia]. by destruct fuel2. }
  destruct fuel2 as [|fuel2].
  { destruct digpPrev; [done|cbn in H2; lia]. }
  cbn [previousIDs]. destruct digpPrev as [|b digpPrev]; [done|].
  set (d := b :: digpPrev) in *.
  case_decide; [done|].
  apply IH; rewrite length_drop; lia.
Qed.

Lemma length_actorIndex uniqueID : length (actorIndex uniqueID) = 19%nat.
Proof. reflexivity. Qed.

Lemma deleteStale_lookup previousUniqueIDs uniqueIDs db key :
  length key ≠ 19%nat ->
  kv (ldb (deleteStale previousUniqueIDs uniqueIDs db)) !! key
  = kv (ldb db) !! key.
Proof.
  intros Hkey. revert db.
  induction previousUniqueIDs as [|uniqueID ids IH]; intros db; [done|].
  cbn. rewrite IH. case_decide; [done|].
  apply dbDelete_lookup_ne. intros Heq. apply Hkey. rewrite <- Heq.
  apply length_actorIndex.
Qed.

Lemma saveEntityRecords_unsaveable entities uniqueIDs db :
  Forall (fun e => saveable (Type_ e) = None) entities ->
  saveEntityRecords Type_ entities uniqueIDs db = (inr uniqueIDs, db).
Proof.
  induction 1 as [|e entities He _ IH]; [done|]. cbn. by rewrite He.
Qed.

(** With the empty entity list, [SaveEntities] leaves the legacy inline
    entity stream key as it is, whatever the store holds and does. *)
Lemma SaveEntities_empty_keeps_inline dim db res db' :
  SaveEntities Type_ pos [] dim db = Return (res, db') ->
  kv (ldb db') !! (index pos dim ++ [keyEntities])
  = kv (ldb db) !! (index pos dim ++ [keyEntities]).
Proof.
  unfold SaveEntities.
  destruct (dbGet (bytesOf "digp" ++ index pos dim) db) as [r0 db0] eqn:Hget.
  assert (Hkv0 : kv (ldb db0) = kv (ldb db)).
  { change db0 with (r0, db0).2. rewrite <- Hget.
    by rewrite dbGet_ldb, nextFault_kv. }
  case_decide.
  { intros Heq. simplify_eq. by rewrite Hkv0. }
  intros Hsave.
  apply OutcomeFacts.bind_Return_inv in Hsave as (prev & _ & Hsave).
  cbn [saveEntityRecords length] in Hsave.
  rewrite decide_True in Hsave by done.
  injection Hsave as Hsave.
  change db' with (res, db').2. rewrite <- Hsave.
  pose proof (index_length_9_13 dim) as Hlen.
  rewrite dbDelete_lookup_ne, deleteStale_lookup, Hkv0; [done|..].
  - rewrite length_app. cbn. lia.
  - intros Heq. apply (f_equal length) in Heq.
    rewrite !length_app in Heq. cbn in Heq. lia.
Qed.

(** When the entity list is not empty and none of its entities is of a
    saveable type, [SaveEntities] writes an empty value under the
    [digp] key. *)
Lemma SaveEntities_unsaveable dim db entities :
  faults (ldb db) = [] ->
  kv (ldb db) !! (bytesOf "digp" ++ index pos dim) = None ->
  entities ≠ [] ->
  Forall (fun e => saveable (Type_ e) = None) entities ->
  exists db',
    SaveEntities Type_ pos entities dim db = Return (None, db') ∧
    kv (ldb db') !! (bytesOf "digp" ++ index pos dim) = Some [].
Proof.
  intros Hf Hdigp Hne Hall. unfold SaveEntities.
  rewrite dbGet_quiet by done. rewrite Hdigp. cbn [from_option].
  rewrite decide_False by (intros [_ ?]; done).
  rewrite OutcomeFacts.bind_Return.
  rewrite saveEntityRecords_unsaveable by done. cbn [deleteStale].
  rewrite decide_False by (by destruct entities).
  cbn [foldl].
  destruct (dbPut_quiet (bytesOf "digp" ++ index pos dim) [] db Hf)
    as (Herr & Hkv & Hf1).
  destruct (dbPut _ [] db) as [err db1]. cbn in Herr, Hkv, Hf1. subst err.
  eexists. split; [done|].
  rewrite dbDelete_lookup_ne.
  - by rewrite Hkv, lookup_insert_eq.
  - intros Heq. apply (f_equal length) in Heq.
    rewrite !length_app in Heq. cbn in Heq. lia.
Qed.

Lemma decodeRecords_present (store : gmap (list byte) (list byte))
    (keys : list (list byte)) :
  Forall (fun key => is_Some (store !! key)) keys ->
  decodeRecords store keys = decodeEach (storedRecords store keys).
Proof.
  induction 1 as [|key keys [record Hkey] _ IH]; [done|].
  unfold storedRecords. cbn [decodeRecords omap list_omap]. rewrite Hkey.
  cbn [default from_option decodeEach]. unfold id.
  fold (storedRecords store keys). by rewrite IH.
Qed.

(** C4 (amended).  On a store that answers every read, with a [digp]
    value made of whole 8-byte IDs and with the record of every ID that
    [digp] lists: [LoadEntities] returns an error as soon as a record
    of the inline stream or a record listed in [digp] fails to decode
    as NBT; when every record decodes, it returns the entities that
    [loadEntity] makes of the compounds, in order, and leaves out the
    compounds for which [loadEntity] returns nil.  A compound without
    identifier and a compound whose identifier is not registered are
    logged and make [loadEntity] return nil. *)
Theorem LoadEntities_decode_errors (dim : Dimension) (db : Provider)
    (Hf : faults (ldb db) = [])
    (Halign : (length (default [] (kv (ldb db)
                                     !! (bytesOf "digp" ++ index pos dim)))
               mod 8 = 0)%nat)
    (Hpresent :
       let digp := default [] (kv (ldb db)
                                 !! (bytesOf "digp" ++ index pos dim)) in
       Forall (fun key => is_Some (kv (ldb db) !! key))
         (actorKeys (length digp) digp)) :
  let data := default [] (kv (ldb db) !! (index pos dim ++ [keyEntities])) in
  let digp := default [] (kv (ldb db) !! (bytesOf "digp" ++ index pos dim)) in
  (exists db',
     LoadEntities pos dim reg db
     = Return (match decodeStream (length data) data with
               | inl err => inl (Wrap "error decoding entity NBT" err)
               | inr ms =>
                   match decodeEach
                           (storedRecords (kv (ldb db))
                              (actorKeys (length digp) digp)) with
                   | inl err => inl (Wrap "error decoding entity NBT" err)
                   | inr ms' => inr (loadAll (ms ++ ms') [] db).1
                   end
               end, db')) ∧
  (forall m d,
     m !! "identifier" = None ->
     loadEntity m pos reg d = (None, logErrorf d (LogNoIdentifier pos m))) ∧
  (forall m d name,
     m !! "identifier" = Some (TagString name) -> reg name = None ->
     loadEntity m pos reg d
     = (None, logErrorf d (LogNotRegistered pos name m))) ∧
  (forall m ms a d,
     (loadEntity m pos reg d).1 = None ->
     loadAll (m :: ms) a d = loadAll ms a (loadEntity m pos reg d).2).
Proof.
  intros data digp. split; [|split; [|split]].
  - unfold LoadEntities. rewrite dbGet_quiet by done.
    set (key := index pos dim ++ [keyEntities]) in *.
    rewrite decide_False
      by (destruct (kv (ldb db) !! key); cbn; intros [[? ?] ?]; done).
    replace (match from_option inr (inl ErrNotFound) (kv (ldb db) !! key) with
             | inl _ => []
             | inr v => v
             end) with data by (subst data; by destruct (kv (ldb db) !! key)).
    destruct (loadInlineEntities_spec (length data) data [] db)
      as (Hres & Hldb & Hst).
    destruct (loadInlineEntities _ _ _ _ _ _) as [res db1].
    cbn in Hres, Hldb, Hst. subst res.
    destruct (decodeStream (length data) data) as [err|ms]; [eauto|].
    specialize (Hst ms eq_refl). subst db1.
    rewrite dbGet_quiet by (by rewrite Hldb). rewrite Hldb.
    rewrite <- (decodeRecords_present (kv (ldb db))
                  (actorKeys (length digp) digp)) by exact Hpresent.
    fold digp. subst digp.
    destruct (kv (ldb db) !! (bytesOf "digp" ++ index pos dim))
      as [digp|] eqn:Hdigp; cbn [from_option default].
    + destruct (loadActorEntities_spec (length digp) digp
                  (loadAll ms [] db).1 (loadAll ms [] db).2)
        as (db' & ->); [by rewrite Hldb|exact Halign|].
      exists db'. rewrite Hldb. unfold id.
      destruct (decodeRecords _ _) as [err|ms']; [done|].
      by rewrite loadAll_app.
    + cbn. rewrite app_nil_r. eauto.
  - intros m d Hid. unfold loadEntity. by rewrite Hid.
  - intros m d name Hid Hreg. unfold loadEntity. by rewrite Hid, Hreg.
  - intros m ms a d Hnil. rewrite loadAll_cons. by rewrite Hnil.
Qed.

End Entities.

End EntityFacts.

(** * Further properties: keys, registries, decoders and round trips *)

(** ** Arithmetic of the little-endian encodings *)

Module WordFacts.

Lemma uint32_range z : 0 <= uint32 z < 2 ^ 32.
Proof. unfold uint32. apply Z.mod_pos_bound. lia. Qed.

Lemma uint32_small z : 0 <= z < 2 ^ 32 -> uint32 z = z.
Proof. intros Hz. unfold uint32. by apply Z.mod_small. Qed.

Lemma little_endian_u32_inj v w :
  0 <= v < 2 ^ 32 -> 0 <= w < 2 ^ 32 ->
  little_endian_u32 v = little_endian_u32 w -> v = w.
Proof.
  intros Hv Hw Heq. unfold little_endian_u32 in Heq.
  injection Heq as H0 H1 H2 H3.
  apply HashFacts.u8_inj in H0, H1, H2, H3.
  change (2 ^ 8) with 256 in *. change (2 ^ 16) with 65536 in *.
  change (2 ^ 24) with 16777216 in *. change (2 ^ 32) with 4294967296 in *.
  Z.div_mod_to_equations. lia.
Qed.

(** The eight bytes that [AppendUint64] appends. *)
Definition bytes8 (v : Z) : list byte :=
  map (fun i => u8 (Z.shiftr v (8 * Z.of_nat i))) (seq 0 8).

Lemma AppendUint64_bytes8 b v : AppendUint64 b v = b ++ bytes8 v.
Proof. reflexivity. Qed.

Lemma length_bytes8 v : length (bytes8 v) = 8%nat.
Proof. reflexivity. Qed.

Lemma lor_byte a acc :
  0 <= a < 256 -> 0 <= acc -> Z.lor a (Z.shiftl acc 8) = a + 256 * acc.
Proof.
  intros Ha Hacc.
  assert (Hland : Z.land a (Z.shiftl acc 8) = 0).
  { apply Z.bits_inj'. intros n Hn. rewrite Z.land_spec, Z.bits_0.
    destruct (decide (n < 8)) as [Hlt|Hge].
    - by rewrite Z.shiftl_spec_low, andb_false_r.
    - rewrite (Z.bits_above_log2 a n), andb_false_l; [done|lia|].
      destruct (decide (a = 0)) as [->|]; [cbn; lia|].
      apply Z.log2_lt_pow2; [lia|].
      apply Z.lt_le_trans with (2 ^ 8); [lia|].
      apply Z.pow_le_mono_r; lia. }
  rewrite <- Z.lxor_lor by done.
  rewrite <- Z.add_nocarry_lxor by done.
  rewrite Z.shiftl_mul_pow2 by lia. lia.
Qed.

Lemma Uint64_bytes (v : Z) (k n : nat) :
  Uint64 (map (fun i => u8 (Z.shiftr v (8 * Z.of_nat i))) (seq k n))
  = (v / 2 ^ (8 * Z.of_nat k)) mod 2 ^ (8 * Z.of_nat n).
Proof.
  revert k. induction n as [|n IH]; intros k.
  - cbn. by rewrite Z.mod_1_r.
  - cbn [seq map]. unfold Uint64 in *. cbn [foldr]. rewrite IH.
    rewrite HashFacts.byteZ_u8, Z.shiftr_div_pow2 by lia.
    rewrite lor_byte.
    + replace (8 * Z.of_nat (S n)) with (8 + 8 * Z.of_nat n) by lia.
      rewrite Z.pow_add_r by lia. change (2 ^ 8) with 256.
      rewrite Z.rem_mul_r by lia.
      replace (8 * Z.of_nat (S k)) with (8 * Z.of_nat k + 8) by lia.
      rewrite Z.pow_add_r by lia. change (2 ^ 8) with 256.
      rewrite Z.div_div by lia. reflexivity.
    + apply Z.mod_pos_bound. lia.
    + apply Z.mod_pos_bound. lia.
Qed.

Lemma Uint64_bytes8 v : 0 <= v < 2 ^ 64 -> Uint64 (bytes8 v) = v.
Proof.
  intros Hv. unfold bytes8. rewrite Uint64_bytes.
  change (8 * Z.of_nat 0) with 0. change (8 * Z.of_nat 8) with 64.
  rewrite Z.pow_0_r, Z.div_1_r. by apply Z.mod_small.
Qed.

Lemma int64_uint64 id : - 2 ^ 63 <= id < 2 ^ 63 -> int64 (uint64 id) = id.
Proof.
  intros Hid. unfold int64, uint64.
  change (2 ^ 64) with 18446744073709551616 in *.
  change (2 ^ 63) with 9223372036854775808 in *.
  Z.div_mod_to_equations. lia.
Qed.

Lemma uint64_range z : 0 <= uint64 z < 2 ^ 64.
Proof. unfold uint64. apply Z.mod_pos_bound. lia. Qed.

Lemma uint64_inj a b :
  - 2 ^ 63 <= a < 2 ^ 63 -> - 2 ^ 63 <= b < 2 ^ 63 ->
  uint64 a = uint64 b -> a = b.
Proof.
  intros Ha Hb Heq. rewrite <- (int64_uint64 a), <- (int64_uint64 b) by done.
  by rewrite Heq.
Qed.

Lemma bytes8_inj v w :
  0 <= v < 2 ^ 64 -> 0 <= w < 2 ^ 64 -> bytes8 v = bytes8 w -> v = w.
Proof.
  intros Hv Hw Heq.
  rewrite <- (Uint64_bytes8 v), <- (Uint64_bytes8 w) by done. by rewrite Heq.
Qed.

End WordFacts.

(** ** The key schema of the provider *)

Module KeyFacts.
Import LevelDB Mcdb WordFacts.

Lemma DimensionID_cases d :
  (DimensionID d).1 = 0 ∨ (DimensionID d).1 = 1 ∨ (DimensionID d).1 = 2.
Proof. destruct d as [[]| | |]; vm_compute; auto. Qed.

Lemma length_index_8 position d :
  (DimensionID d).1 = 0 -> length (index position d) = 8%nat.
Proof.
  intros Hd. destruct position as [x z]. rewrite IndexFacts.index_bytes.
  by rewrite decide_True.
Qed.

Lemma actorIndex_bytes8 uniqueID :
  actorIndex uniqueID = bytesOf "actorprefix" ++ bytes8 (uint64 uniqueID).
Proof. reflexivity. Qed.

Lemma actorIndex_inj a b :
  - 2 ^ 63 <= a < 2 ^ 63 -> - 2 ^ 63 <= b < 2 ^ 63 ->
  actorIndex a = actorIndex b -> a = b.
Proof.
  intros Ha Hb Heq. rewrite !actorIndex_bytes8 in Heq.
  apply app_inv_head in Heq.
  apply bytes8_inj in Heq; [|apply uint64_range..].
  by apply uint64_inj.
Qed.

(** X1.  Two chunk index keys are equal exactly when the
    positions agree as 32-bit words and the dimensions have the same
    registered ID.  Dimensions that share an ID share their keys: the
    legacy overworld and [nopDim], which is not registered, use the
    keys of the overworld. *)
Theorem index_injective (p p' : ChunkPos) (d d' : Dimension) :
  (index p d = index p' d' <->
   uint32 p.1 = uint32 p'.1 ∧ uint32 p.2 = uint32 p'.2 ∧
   (DimensionID d).1 = (DimensionID d').1)
  ∧ index p Overworld_legacy = index p Overworld
  ∧ index p nopDim = index p Overworld.
Proof.
  destruct p as [x z], p' as [x' z']. cbn [fst snd].
  split; [|split; reflexivity].
  rewrite !IndexFacts.index_bytes. split.
  - intros Heq.
    apply app_inj_1 in Heq as [Hx Heq]; [|done].
    apply app_inj_1 in Heq as [Hz Hd]; [|done].
    apply little_endian_u32_inj in Hx; [|apply uint32_range..].
    apply little_endian_u32_inj in Hz; [|apply uint32_range..].
    split; [done|]. split; [done|].
    destruct (DimensionID_cases d) as [Hc|[Hc|Hc]],
             (DimensionID_cases d') as [Hc'|[Hc'|Hc']];
      rewrite Hc, Hc' in *; try reflexivity; by vm_compute in Hd.
  - intros (-> & -> & ->). reflexivity.
Qed.

Lemma chunk_key_split (p p' : ChunkPos) (d d' : Dimension)
    (suffix suffix' : list byte) :
  (1 <= length suffix <= 2)%nat -> (1 <= length suffix' <= 2)%nat ->
  index p d ++ suffix = index p' d' ++ suffix' ->
  index p d = index p' d' ∧ suffix = suffix'.
Proof.
  intros Hs Hs' Heq.
  pose proof (IndexFacts.index_length p d) as Hl.
  pose proof (IndexFacts.index_length p' d') as Hl'.
  apply app_inj_1; [|done].
  apply (f_equal length) in Heq. rewrite !length_app in Heq. lia.
Qed.

(** X2.  The keys of the three families never
    coincide: a chunk data key (the chunk index followed by a tag byte,
    or by a tag byte and a sub chunk byte) splits in one way only into
    index and suffix, and is neither a ["digp"] key nor an actor key;
    a ["digp"] key is no actor key. *)
Theorem chunk_keys_unambiguous (p p' : ChunkPos) (d d' : Dimension)
    (suffix suffix' : list byte) (uniqueID : Z)
    (Hs : (1 <= length suffix <= 2)%nat)
    (Hs' : (1 <= length suffix' <= 2)%nat) :
  (index p d ++ suffix = index p' d' ++ suffix' ->
   index p d = index p' d' ∧ suffix = suffix') ∧
  index p d ++ suffix ≠ bytesOf "digp" ++ index p' d' ∧
  index p d ++ suffix ≠ actorIndex uniqueID ∧
  bytesOf "digp" ++ index p' d' ≠ actorIndex uniqueID.
Proof.
  pose proof (IndexFacts.index_length p d) as Hl.
  pose proof (IndexFacts.index_length p' d') as Hl'.
  pose proof (EntityFacts.length_actorIndex uniqueID) as Ha.
  assert (Hdigp : length (bytesOf "digp") = 4%nat) by reflexivity.
  split; [|split; [|split]].
  - by apply chunk_key_split.
  - intros Heq. apply (f_equal length) in Heq.
    rewrite !length_app in Heq. lia.
  - intros Heq. apply (f_equal length) in Heq.
    rewrite !length_app in Heq. lia.
  - intros Heq. apply (f_equal length) in Heq.
    rewrite !length_app in Heq. lia.
Qed.

End KeyFacts.

(** ** The dimension registry *)

Module DimensionFacts.

(** The ID under which the loop of [newDimensionRegistry] records the
    dimension [v] found at key [k]. *)
Definition registeredID (k : Z) (v : Dimension) : Z :=
  match v with
  | overworld true => k - 10
  | _ => k
  end.

Lemma IDs_list_to_map (order : list (Z * Dimension)) :
  NoDup order.*2 ->
  foldl registerID ∅ order
  = list_to_map ((fun kv => (kv.2, registeredID kv.1 kv.2)) <$> order).
Proof.
  intros Hnd.
  pose (f := fun kv : Z * Dimension => (kv.2, registeredID kv.1 kv.2)).
  assert (Hfold : forall l m, foldl registerID m l = foldl (MapFacts.step f) m l).
  { induction l as [|[k v] l IH]; intros m; [done|]. cbn. by rewrite IH. }
  rewrite Hfold, MapFacts.foldl_step_union.
  - by rewrite (right_id_L ∅ (∪)).
  - by rewrite <- list_fmap_compose.
Qed.

(** X3.  For a map of dimensions that holds
    no dimension twice, and whatever the order in which the runtime
    ranges over it: [LookupID] finds every dimension of the map, with the
    key it stands at (less 10 for the legacy overworld); it finds no
    other dimension; and looking up the ID found gives back the
    dimension, unless the dimension is the legacy overworld. *)
Theorem newDimensionRegistry_LookupID (dim : gmap Z Dimension)
    (order : list (Z * Dimension))
    (Hinj : NoDup (map_to_list dim).*2)
    (Hord : order ≡ₚ map_to_list dim) :
  let reg := newDimensionRegistryIter order dim in
  (forall k v, dim !! k = Some v ->
     LookupID reg v = (registeredID k v, true)) ∧
  (forall v, (forall k, dim !! k ≠ Some v) -> LookupID reg v = (0, false)) ∧
  (forall k v, dim !! k = Some v -> v ≠ Overworld_legacy ->
     Lookup reg (LookupID reg v).1 = (v, true)).
Proof.
  intros reg.
  assert (Hnd : NoDup order.*2) by (by rewrite Hord).
  assert (Hids : forall k v, dim !! k = Some v ->
            IDs reg !! v = Some (registeredID k v)).
  { intros k v Hkv. unfold reg, newDimensionRegistryIter. cbn [IDs].
    rewrite IDs_list_to_map by done.
    apply elem_of_list_to_map_1.
    - by rewrite <- list_fmap_compose.
    - apply list_elem_of_fmap. exists (k, v). split; [done|].
      rewrite Hord. by apply elem_of_map_to_list. }
  split; [|split].
  - intros k v Hkv. unfold LookupID. by rewrite (Hids k v Hkv).
  - intros v Hv. unfold LookupID.
    destruct (IDs reg !! v) as [id|] eqn:Hid; [|done]. exfalso.
    unfold reg, newDimensionRegistryIter in Hid. cbn [IDs] in Hid.
    rewrite IDs_list_to_map in Hid by done.
    apply elem_of_list_to_map_2, list_elem_of_fmap in Hid
      as ([k v'] & [= -> ->] & Hin).
    rewrite Hord in Hin. apply elem_of_map_to_list in Hin. by eapply Hv.
  - intros k v Hkv Hlegacy. unfold LookupID. rewrite (Hids k v Hkv).
    cbn [fst]. unfold Lookup, reg, newDimensionRegistryIter.
    cbn [dimensions].
    assert (registeredID k v = k) as ->.
    { destruct v as [[]| | |]; try reflexivity. by destruct Hlegacy. }
    by rewrite Hkv.
Qed.

End DimensionFacts.

(** ** Property hashing: when it panics *)

Module HashPanicFacts.
Import HashFacts.

Lemma writeProperties_None (p : Properties) keys b :
  writeProperties p keys b = None <->
  exists k, k ∈ keys ∧ (get p k = None ∨ get p k = Some VOther).
Proof.
  revert b. induction keys as [|k keys IH]; intros b; cbn.
  - split; [done|]. intros (k & Hk & _). by apply elem_of_nil in Hk.
  - destruct (get p k) as [[[]| | | |]|] eqn:Hget; cbn;
      try (rewrite IH; split;
           [ intros (k' & Hk' & Hbad); exists k'; split; [by right|done]
           | intros (k' & [->|Hk']%elem_of_cons & Hbad);
             [ destruct Hbad; congruence | by exists k' ] ]).
    + split; [|done]. intros _. exists k. split; [by left|]. by right.
    + split; [|done]. intros _. exists k. split; [by left|]. by left.
Qed.

Lemma elem_of_keysOf (m : gmap string Value) k :
  k ∈ keysOf (Some m) <-> is_Some (m !! k).
Proof.
  unfold keysOf. rewrite list_elem_of_fmap. split.
  - intros ([k' v] & -> & Hin). apply elem_of_map_to_list in Hin. by exists v.
  - intros [v Hv]. exists (k, v). split; [done|]. by apply elem_of_map_to_list.
Qed.

(** X4.  [hashProperties] panics exactly when the
    map holds a value that is neither a bool, a uint8, an int32 nor a
    string; the nil map and every map of values of these four types are
    hashed, whatever the order in which the runtime ranges over the
    keys. *)
Theorem hashProperties_panics (p : Properties) (iter : list string)
    (Hiter : iter ≡ₚ keysOf p) :
  (exists reason, hashPropertiesIter iter p = Panic reason) <->
  (exists k, get p k = Some VOther).
Proof.
  rewrite (hashPropertiesIter_order iter p Hiter).
  unfold hashProperties, hashPropertiesIter.
  destruct p as [m|]; [|cbn].
  - destruct (writeProperties (Some m) (sortKeys (keysOf (Some m))) "")
      as [h|] eqn:Hw.
    + split; [by intros [? ?]|]. intros [k Hk]. exfalso.
      assert (writeProperties (Some m) (sortKeys (keysOf (Some m))) "" = None)
        as Hnone; [|congruence].
      apply writeProperties_None. exists k. split; [|by right].
      unfold sortKeys. rewrite merge_sort_Permutation.
      apply elem_of_keysOf. cbn in Hk. by rewrite Hk.
    + split; [|by eauto]. intros _.
      apply writeProperties_None in Hw as (k & Hin & Hbad).
      unfold sortKeys in Hin. rewrite merge_sort_Permutation in Hin.
      apply elem_of_keysOf in Hin as [v Hv]. cbn in Hbad.
      exists k. cbn. destruct Hbad as [Hbad|Hbad]; congruence.
  - split; [by intros [? ?]|]. by intros [k ?].
Qed.

End HashPanicFacts.

(** ** Runtime IDs: registration and the two lookups *)

Module RuntimeIDFacts.
Import RegistryFacts.

(** The key under which [registerBlockState] files a state; [None] when
    the properties of the state do not hash. *)
Definition stateKey (s : blockState) : option stateHash :=
  match hashProperties (Properties_ s) with
  | Return h => Some (Name s, h)
  | Panic _ => None
  end.

(** The keys of [stateRuntimeIDs] are those of the registered blocks. *)
Definition registry_keys (reg : Registry) : Prop :=
  forall key,
    is_Some (stateRuntimeIDs reg !! key) <-> Some key ∈ stateKey <$> blocks reg.

Lemma registry_keys_clear : registry_keys ClearStates.
Proof.
  intros key. cbn. rewrite lookup_empty. split; [by intros [? ?]|].
  intros Hin. by apply elem_of_nil in Hin.
Qed.

Lemma registerBlockState_succeeds (s : blockState) (reg : Registry) :
  registry_keys reg ->
  (exists reg', registerBlockState s reg = Return reg') <->
  is_Some (stateKey s) ∧ stateKey s ∉ stateKey <$> blocks reg.
Proof.
  intros Hkeys. unfold registerBlockState, stateKey.
  destruct (hashProperties (Properties_ s)) as [hp|] eqn:Hhp; cbn.
  - destruct (stateRuntimeIDs reg !! (Name s, hp)) as [rid|] eqn:Hfresh.
    + split; [by intros [? ?]|]. intros [_ Hnotin]. destruct Hnotin.
      apply Hkeys. by rewrite Hfresh.
    + split; [|by eauto]. intros _. split; [by eauto|].
      intros Hin. apply Hkeys in Hin. rewrite Hfresh in Hin.
      by destruct Hin.
  - split; [by intros [? ?]|]. by intros [[? ?] _].
Qed.

Lemma registerBlockState_keys (s : blockState) (reg reg' : Registry) :
  registry_keys reg ->
  registerBlockState s reg = Return reg' ->
  registry_keys reg' ∧ blocks reg' = blocks reg ++ [s].
Proof.
  intros Hkeys. unfold registerBlockState.
  destruct (hashProperties (Properties_ s)) as [hp|] eqn:Hhp; cbn; [|discriminate].
  destruct (stateRuntimeIDs reg !! (Name s, hp)) eqn:Hfresh; cbn; [discriminate|].
  intros [= <-]. cbn. split; [|done].
  intros key. cbn. rewrite fmap_app, elem_of_app. cbn.
  rewrite list_elem_of_singleton. unfold stateKey at 2. rewrite Hhp.
  destruct (decide (key = (Name s, hp))) as [->|Hne].
  - rewrite lookup_insert_eq. split; [by right|by eauto].
  - rewrite lookup_insert_ne by done. rewrite (Hkeys key).
    split; [by left|]. intros [Hin|Heq]; [done|]. congruence.
Qed.

Lemma registerBlockStates_succeeds_from (ss : list blockState) (reg : Registry) :
  registry_keys reg ->
  (exists reg', registerBlockStates ss reg = Return reg') <->
  Forall (fun s => is_Some (stateKey s)) ss ∧
  NoDup (stateKey <$> ss) ∧
  (forall s, s ∈ ss -> stateKey s ∉ stateKey <$> blocks reg).
Proof.
  revert reg. induction ss as [|s ss IH]; intros reg Hkeys; cbn.
  - split; [|by eauto]. intros _. split; [done|]. split; [constructor|].
    intros s Hs. by apply elem_of_nil in Hs.
  - destruct (registerBlockState s reg) as [reg1|reason] eqn:Hreg; cbn.
    + destruct (registerBlockState_keys _ _ _ Hkeys Hreg) as [Hkeys1 Hblocks1].
      assert (Hok : exists reg', registerBlockState s reg = Return reg')
        by eauto.
      apply registerBlockState_succeeds in Hok as [Hsome Hnew]; [|done].
      rewrite (IH reg1 Hkeys1), Hblocks1. split.
      * intros (Hall & Hnd & Hfresh). split; [by constructor|]. split.
        -- constructor; [|done]. intros Hin.
           apply list_elem_of_fmap in Hin as (t & Heq & Ht).
           apply (Hfresh t Ht). rewrite fmap_app, elem_of_app. right.
           cbn. rewrite list_elem_of_singleton. done.
        -- intros t [->|Ht]%elem_of_cons; [done|].
           intros Hin. apply (Hfresh t Ht).
           rewrite fmap_app, elem_of_app. by left.
      * intros (Hall & Hnd & Hfresh).
        apply Forall_cons in Hall as [_ Hall].
        apply NoDup_cons in Hnd as [Hnotin Hnd].
        split; [done|]. split; [done|].
        intros t Ht. rewrite fmap_app, elem_of_app. cbn.
        rewrite list_elem_of_singleton. intros [Hin|Heq].
        -- apply (Hfresh t); [by right|done].
        -- apply Hnotin. rewrite <- Heq. apply list_elem_of_fmap. eauto.
    + split; [by intros [? ?]|]. intros (Hall & Hnd & Hfresh). exfalso.
      assert (Hok : exists reg', registerBlockState s reg = Return reg').
      { apply registerBlockState_succeeds; [done|].
        apply Forall_cons in Hall as [Hsome _]. split; [done|].
        apply Hfresh. by left. }
      destruct Hok as [? Hok]. congruence.
Qed.

(** X5.  Registering a list of states on the
    cleared registry returns (rather than panics) exactly when the
    properties of every state hash and no two states of the list have
    the same name and the same property hash; the blocks of the registry
    are then the states, in order. *)
Theorem registerBlockStates_succeeds (ss : list blockState) :
  ((exists reg, registerBlockStates ss ClearStates = Return reg) <->
   Forall (fun s => is_Some (stateKey s)) ss ∧ NoDup (stateKey <$> ss)) ∧
  (forall reg, registerBlockStates ss ClearStates = Return reg ->
     blocks reg = ss).
Proof.
  split.
  - rewrite (registerBlockStates_succeeds_from ss _ registry_keys_clear).
    split; [by intros (? & ? & _)|]. intros [Hall Hnd].
    split; [done|]. split; [done|]. intros s _ Hin.
    by apply elem_of_nil in Hin.
  - intros reg Hreg.
    by destruct (registerBlockStates_inv ss _ _ registry_inv_clear Hreg)
      as [_ ->].
Qed.

Lemma StateToRuntimeID_hit (reg : Registry) (name : string)
    (properties : Properties) (h : string) (rid : Z) :
  hashProperties properties = Return h ->
  stateRuntimeIDs reg !! (name, h) = Some rid ->
  StateToRuntimeID reg name properties = Return (rid, true).
Proof.
  intros Hh Hrid. unfold StateToRuntimeID. rewrite Hh. cbn. by rewrite Hrid.
Qed.

(** X6.  After fewer than 2^32 states have been
    registered on the cleared registry, the two lookups are inverse to
    each other: the state with index [i] has runtime ID [i], and
    [RuntimeIDToState] gives back its name and properties; a runtime ID
    from the number of states on belongs to no state. *)
Theorem runtimeID_roundtrip (ss : list blockState) (reg : Registry)
    (Hreg : registerBlockStates ss ClearStates = Return reg)
    (Hlen : Z.of_nat (length ss) < 2 ^ 32) :
  (forall i s, ss !! i = Some s ->
     StateToRuntimeID reg (Name s) (Properties_ s)
       = Return (Z.of_nat i, true) ∧
     RuntimeIDToState reg (Z.of_nat i)
       = Return (Name s, Properties_ s, true)) ∧
  (forall rid name properties,
     0 <= rid ->
     RuntimeIDToState reg rid = Return (name, properties, true) ->
     StateToRuntimeID reg name properties = Return (rid, true)) ∧
  (forall rid, Z.of_nat (length ss) <= rid ->
     RuntimeIDToState reg rid = Return (EmptyString, None, false)).
Proof.
  destruct (registerBlockStates_inv ss _ _ registry_inv_clear Hreg)
    as [[_ Hrids] Hblocks].
  cbn in Hblocks. subst ss.
  assert (Hu : uint32 (Z.of_nat (length (blocks reg)))
               = Z.of_nat (length (blocks reg))).
  { apply WordFacts.uint32_small. lia. }
  assert (Hfwd : forall i s, blocks reg !! i = Some s ->
            StateToRuntimeID reg (Name s) (Properties_ s)
              = Return (Z.of_nat i, true)).
  { intros i s Hi. destruct (Hrids i s Hi) as (h & Hh & Hrid).
    rewrite (StateToRuntimeID_hit reg _ _ h _ Hh Hrid).
    rewrite WordFacts.uint32_small; [done|].
    apply lookup_lt_Some in Hi. lia. }
  split; [|split].
  - intros i s Hi. split; [by apply Hfwd|].
    unfold RuntimeIDToState. rewrite Hu.
    pose proof (lookup_lt_Some _ _ _ Hi) as Hlt.
    rewrite decide_False by lia. by rewrite Nat2Z.id, Hi.
  - intros rid name properties Hrid. unfold RuntimeIDToState. rewrite Hu.
    case_decide; [by intros [= ]|].
    destruct (blocks reg !! Z.to_nat rid) as [b|] eqn:Hb; [|discriminate].
    intros [= <- <-]. rewrite (Hfwd _ _ Hb). by rewrite Z2Nat.id.
  - intros rid Hrid. unfold RuntimeIDToState. rewrite Hu.
    by rewrite decide_True.
Qed.

End RuntimeIDFacts.

(** ** Namespaces of identifiers *)

Module NamespaceFacts.

(** A string without a colon. *)
Fixpoint colonFree (s : string) : Prop :=
  match s with
  | EmptyString => True
  | String c s => c ≠ ":"%char ∧ colonFree s
  end.

Lemma splitColon_colonFree s : colonFree s -> splitColon s = [s].
Proof.
  induction s as [|c s IH]; cbn; [done|]. intros [Hc Hs].
  rewrite decide_False by done. by rewrite IH.
Qed.

Lemma splitColon_cons s : exists piece pieces, splitColon s = piece :: pieces.
Proof.
  induction s as [|c s (piece & pieces & IH)]; cbn; [by eauto|].
  case_decide; [by eauto|]. rewrite IH. by eauto.
Qed.

Lemma app_nil_string (t : string) : EmptyString +:+ t = t.
Proof. reflexivity. Qed.

Lemma splitColon_pieces (s t : string) :
  splitColon (s +:+ String ":" t) = splitColon s ++ splitColon t.
Proof.
  induction s as [|c s IH].
  - rewrite app_nil_string. cbn. by rewrite decide_True.
  - rewrite HashFacts.app_cons. cbn. rewrite IH.
    case_decide; [done|].
    by destruct (splitColon_cons s) as (p & ps & ->).
Qed.

Lemma splitColon_app (s t : string) :
  colonFree s ->
  splitColon (s +:+ String ":" t) = s :: splitColon t.
Proof.
  intros Hs. by rewrite splitColon_pieces, splitColon_colonFree.
Qed.

Lemma last_splitColon (s t : string) :
  colonFree t ->
  last (splitColon (s +:+ String ":" t)) = Some t.
Proof.
  intros Ht. rewrite splitColon_pieces, (splitColon_colonFree t Ht).
  apply last_snoc.
Qed.

(** X7.  [splitNamespace] returns the text before the
    first colon and the text after the last colon of the identifier: an
    identifier [ns:name] gives [(ns, name)], whatever stands between the
    first and the last colon is dropped, and an identifier without a
    colon is returned as both the namespace and the name. *)
Theorem splitNamespace_spec (ns name : string)
    (Hns : colonFree ns) (Hname : colonFree name) :
  splitNamespace (ns +:+ ":" +:+ name) = (ns, name) ∧
  (forall middle,
     splitNamespace (ns +:+ ":" +:+ middle +:+ ":" +:+ name) = (ns, name)) ∧
  splitNamespace ns = (ns, ns).
Proof.
  unfold splitNamespace. split; [|split].
  - change (ns +:+ ":" +:+ name) with (ns +:+ String ":" name).
    rewrite (last_splitColon ns name Hname).
    by rewrite splitColon_app.
  - intros middle.
    change (ns +:+ ":" +:+ middle +:+ ":" +:+ name)
      with (ns +:+ String ":" (middle +:+ String ":" name)).
    rewrite splitColon_app by done. cbn [head default].
    destruct (splitColon_cons (middle +:+ String ":" name)) as (p & ps & Hp).
    pose proof (last_splitColon middle name Hname) as Hlast.
    rewrite Hp in Hlast |- *. cbn [last] in Hlast |- *.
    by rewrite Hlast.
  - by rewrite splitColon_colonFree.
Qed.

End NamespaceFacts.

(** ** The decoders of paletted storages and sub chunks *)

Module DecoderFacts.
Import WordFacts.

Lemma lor_shiftl a b n :
  0 <= n -> 0 <= a < 2 ^ n -> 0 <= b -> Z.lor a (Z.shiftl b n) = a + b * 2 ^ n.
Proof.
  intros Hn Ha Hb.
  assert (Hland : Z.land a (Z.shiftl b n) = 0).
  { destruct (decide (a = 0)) as [->|Hne]; [apply Z.land_0_l|].
    apply Z.bits_inj'. intros k Hk. rewrite Z.land_spec, Z.bits_0.
    destruct (decide (k < n)) as [Hlt|Hge].
    - by rewrite Z.shiftl_spec_low, andb_false_r.
    - rewrite (Z.bits_above_log2 a k), andb_false_l; [done|lia|].
      apply Z.lt_le_trans with n; [|lia].
      apply Z.log2_lt_pow2; lia. }
  rewrite <- Z.lxor_lor by done.
  rewrite <- Z.add_nocarry_lxor by done.
  by rewrite Z.shiftl_mul_pow2.
Qed.

Lemma word32_head w data :
  0 <= w < 2 ^ 32 -> word32 (little_endian_u32 w ++ data) 0 = w.
Proof.
  intros Hw. unfold word32, little_endian_u32.
  cbn -[Z.lor Z.shiftl Z.div Z.pow byteZ u8].
  rewrite !HashFacts.byteZ_u8.
  assert (H0 : 0 <= w mod 256 < 256) by (apply Z.mod_pos_bound; lia).
  assert (H1 : 0 <= (w / 2 ^ 8) mod 256 < 256) by (apply Z.mod_pos_bound; lia).
  assert (H2 : 0 <= (w / 2 ^ 16) mod 256 < 256) by (apply Z.mod_pos_bound; lia).
  assert (H3 : 0 <= (w / 2 ^ 24) mod 256 < 256) by (apply Z.mod_pos_bound; lia).
  rewrite (lor_shiftl (w mod 256)) by lia.
  rewrite (lor_shiftl _ _ 16) by lia.
  rewrite (lor_shiftl _ _ 24) by lia.
  change (2 ^ 8) with 256 in *. change (2 ^ 16) with 65536 in *.
  change (2 ^ 24) with 16777216 in *. change (2 ^ 32) with 4294967296 in *.
  Z.div_mod_to_equations. lia.
Qed.

Lemma word32_tail w data i :
  word32 (little_endian_u32 w ++ data) (S i) = word32 data i.
Proof.
  unfold word32, little_endian_u32. cbn [app].
  replace (S i * 4 + 0)%nat with (S (S (S (S (i * 4 + 0))))) by lia.
  replace (S i * 4 + 1)%nat with (S (S (S (S (i * 4 + 1))))) by lia.
  replace (S i * 4 + 2)%nat with (S (S (S (S (i * 4 + 2))))) by lia.
  replace (S i * 4 + 3)%nat with (S (S (S (S (i * 4 + 3))))) by lia.
  reflexivity.
Qed.

Lemma word32_words (ws : list Z) (rest : list byte) :
  Forall (fun w => 0 <= w < 2 ^ 32) ws ->
  word32 (concat (little_endian_u32 <$> ws) ++ rest) <$> seq 0 (length ws) = ws.
Proof.
  induction 1 as [|w ws Hw Hws IH]; [done|].
  cbn [length seq fmap list_fmap concat]. rewrite <- app_assoc.
  rewrite word32_head by done. f_equal.
  rewrite <- fmap_S_seq, <- list_fmap_compose.
  etrans; [|exact IH]. apply list_fmap_ext. intros _ i _. cbn.
  apply word32_tail.
Qed.

Lemma length_words (ws : list Z) :
  length (concat (little_endian_u32 <$> ws)) = (length ws * 4)%nat.
Proof.
  induction ws as [|w ws IH]; [done|].
  cbn [fmap list_fmap concat]. rewrite length_app. fold (fmap little_endian_u32 ws).
  rewrite IH. cbn [length little_endian_u32]. lia.
Qed.

Section Decoders.
Context `{ChunkCodec}.

(** X8.  [decodePalettedStorage] reads back
    what was written: after a header byte holding the palette size
    [bits] (other than the marker 127) and a flag in its lowest bit, the
    index words written little-endian are the indices of the storage;
    the palette is decoded from the bytes that follow, with the
    persistent network encoding when the encoding is the network one and
    the flag is not set. *)
Theorem decodePalettedStorage_words (bits : Z) (flag : bool) (ws : list Z)
    (rest : list byte) (e : Encoding) (pe : paletteEncoding)
    (Hbits : 0 <= bits < 127)
    (Hlen : length ws = uint32s bits)
    (Hws : Forall (fun w => 0 <= w < 2 ^ 32) ws) :
  decodePalettedStorage
    (u8 (2 * bits + (if flag then 1 else 0))
       :: concat (little_endian_u32 <$> ws) ++ rest) e pe
  = match decodePalette
            (if decide (e = NetworkEncoding ∧ flag = false)
             then NetworkPersistentEncoding else e) rest bits pe with
    | inl err => inl err
    | inr (p, rest') => inr (Some (newPalettedStorage ws p), rest')
    end.
Proof.
  unfold decodePalettedStorage.
  rewrite HashFacts.byteZ_u8.
  assert (Hmod : (2 * bits + (if flag then 1 else 0)) mod 256
                 = 2 * bits + (if flag then 1 else 0)).
  { apply Z.mod_small. destruct flag; lia. }
  rewrite Hmod.
  assert (Hshift : Z.shiftr (2 * bits + (if flag then 1 else 0)) 1 = bits).
  { rewrite Z.shiftr_div_pow2 by lia. change (2 ^ 1) with 2.
    destruct flag; Z.div_mod_to_equations; lia. }
  assert (Hland : Z.land (2 * bits + (if flag then 1 else 0)) 1
                  = if flag then 1 else 0).
  { change 1 with (Z.ones 1) at 2. rewrite Z.land_ones by lia.
    change (2 ^ 1) with 2. destruct flag; Z.div_mod_to_equations; lia. }
  rewrite Hshift, Hland. rewrite decide_False by lia.
  rewrite <- Hlen.
  rewrite take_app_length' by (by rewrite length_words).
  rewrite drop_app_length' by (by rewrite length_words).
  rewrite decide_False by (rewrite length_words; lia).
  assert (Hwords : word32 (concat (little_endian_u32 <$> ws))
                     <$> seq 0 (length ws) = ws).
  { rewrite <- (app_nil_r (concat _)). by apply word32_words. }
  rewrite Hwords.
  assert (Henc : (if decide (e = NetworkEncoding ∧ (if flag then 1 else 0) ≠ 1)
                  then NetworkPersistentEncoding else e)
                 = (if decide (e = NetworkEncoding ∧ flag = false)
                    then NetworkPersistentEncoding else e)).
  { destruct flag.
    - rewrite !decide_False; [done|by intros [_ ?]..].
    - destruct (decide (e = NetworkEncoding)) as [->|Hne].
      + rewrite !decide_True; done.
      + rewrite !decide_False; [done|by intros [? _]..]. }
  by rewrite Henc.
Qed.

Lemma int8_mod z : int8 z mod 256 = z mod 256.
Proof. unfold int8. Z.div_mod_to_equations. lia. Qed.

Lemma index_translation (i m : Z) :
  uint8 (int8 (int8 (byteZ (u8 (i + m))) - int8 m)) = uint8 i.
Proof.
  rewrite HashFacts.byteZ_u8. unfold uint8. change (2 ^ 8) with 256.
  rewrite int8_mod, Zminus_mod, !int8_mod, Z.mod_mod by lia.
  rewrite <- Zminus_mod. f_equal. lia.
Qed.

(** X9.  A version 9 sub chunk carries the byte that
    the provider puts in the key of the sub chunk with index [i], which
    is [byte(i + (range[0]>>4))]; [decodeSubChunk] translates it back to
    the index [uint8(i)], for every range and whatever follows.  For
    every other version the index is left as it was passed.  The
    exported [DecodeSubChunk] does the same as [decodeSubChunk] on a
    chunk with that air runtime ID and range. *)
Theorem decodeSubChunk_index (c : Chunk) (i index : Z) (count : byte)
    (tl : list byte) (e : Encoding) :
  (decodeSubChunk (x09 :: count :: u8 (i + Z.shiftr (r c).1 4) :: tl)
     c index e).2 = uint8 i ∧
  (forall ver buf, byteZ ver ≠ 9 ->
     (decodeSubChunk (ver :: buf) c index e).2 = index) ∧
  (forall buf,
     DecodeSubChunk buf (air c) (r c) index e = decodeSubChunk buf c index e).
Proof.
  split; [|split].
  - unfold decodeSubChunk.
    rewrite decide_False by (by vm_compute).
    rewrite decide_True by (right; by vm_compute).
    rewrite decide_True by (by vm_compute).
    rewrite index_translation.
    by destruct (decodeStorages _ _ _) as [?|[? ?]].
  - intros ver buf Hver. unfold decodeSubChunk.
    case_decide.
    { by destruct (decodePalettedStorage _ _ _) as [?|[? ?]]. }
    case_decide; [|done].
    destruct buf as [|storageCount buf]; [done|].
    rewrite decide_False by done.
    by destruct (decodeStorages _ _ _) as [?|[? ?]].
  - intros buf. unfold DecodeSubChunk.
    by apply NetworkFacts.decodeSubChunk_ext.
Qed.

Lemma decodeStorages_length n buf e ss rest :
  decodeStorages n buf e = inr (ss, rest) -> length ss = n.
Proof.
  revert buf ss rest. induction n as [|n IH]; intros buf ss rest; cbn.
  - by intros [= <- _].
  - destruct (decodePalettedStorage _ _ _) as [?|[s buf1]]; [done|].
    destruct (decodeStorages n buf1 e) as [?|[ss1 buf2]] eqn:Hrec; [done|].
    intros [= <- _]. cbn. f_equal. by eapply IH.
Qed.

(** X10.  [decodeSubChunk] decodes the versions 1,
    8 and 9 only: any other version byte is an error.  A sub chunk of
    version 1 has one storage more than a new sub chunk; one of version
    8 or 9 has as many storages as its storage count byte says. *)
Theorem decodeSubChunk_versions (ver : byte) (tl : list byte) (c : Chunk)
    (index : Z) (e : Encoding) :
  (byteZ ver ≠ 1 -> byteZ ver ≠ 8 -> byteZ ver ≠ 9 ->
   (decodeSubChunk (ver :: tl) c index e).1
   = inl (Errorf "unknown sub chunk version: can't decode")) ∧
  (forall s rest,
     (decodeSubChunk (ver :: tl) c index e).1 = inr (s, rest) ->
     sub_air s = sub_air (NewSubChunk (air c)) ∧
     ((byteZ ver = 1 ∧
       exists storage,
         storages s = storages (NewSubChunk (air c)) ++ [storage]) ∨
      ((byteZ ver = 8 ∨ byteZ ver = 9) ∧
       exists storageCount tl',
         tl = storageCount :: tl' ∧
         length (storages s) = Z.to_nat (byteZ storageCount)))).
Proof.
  unfold decodeSubChunk. split.
  - intros H1 H8 H9. rewrite decide_False by done.
    rewrite decide_False by (by intros [|]). done.
  - intros s rest. case_decide as H1.
    { destruct (decodePalettedStorage _ _ _) as [?|[storage buf]]; [done|].
      cbn. intros [= <- _]. cbn. split; [done|]. left. eauto. }
    case_decide as H89; [|done].
    destruct tl as [|storageCount tl']; [done|].
    set (rd := if decide (byteZ ver = 9) then _ else _).
    destruct rd as [?|[index' buf]]; [done|].
    destruct (decodeStorages _ _ _) as [?|[ss buf']] eqn:Hss; [done|].
    cbn. intros [= <- _]. cbn. split; [done|]. right. split; [done|].
    exists storageCount, tl'. split; [done|].
    by eapply decodeStorages_length.
Qed.

End Decoders.

Section BlockNBTs.
Context `{ChunkCodec} `{NbtCodec}.

Lemma blockNBTLoop_nonempty fuel buf acc res :
  Forall (fun m : gmap string Tag => m ≠ ∅) acc ->
  blockNBTLoop fuel buf acc = inr res ->
  Forall (fun m : gmap string Tag => m ≠ ∅) res.
Proof.
  revert buf acc. induction fuel as [|fuel IH]; intros buf acc Hacc; cbn.
  - by intros [= <-].
  - destruct buf as [|b buf]; [by intros [= <-]|].
    destruct (nbtDecode NetworkLittleEndian true (b :: buf))
      as [?|[blockNBT rest]]; [done|].
    apply IH. case_decide as Hsize; [|done].
    apply Forall_app. split; [done|]. constructor; [|done].
    intros ->. rewrite map_size_empty in Hsize. lia.
Qed.

(** X11.  The block entity compounds that
    [NetworkDecode] returns are never empty: a compound without entries
    read from the tail of the data is left out. *)
Theorem NetworkDecode_blockNBTs (ridHashLookup : gmap Z Z) (air : Z)
    (data : list byte) (count : Z) (oldBiomes hashedRids : bool)
    (r : Range_) (c : Chunk) (blockNBTs : list (gmap string Tag))
    (Hdec : NetworkDecode ridHashLookup air data count oldBiomes hashedRids r
            = Return (inr (c, blockNBTs))) :
  Forall (fun m : gmap string Tag => m ≠ ∅) blockNBTs.
Proof.
  unfold NetworkDecode in Hdec.
  apply OutcomeFacts.bind_Return_inv in Hdec as (res1 & _ & Hdec).
  destruct res1 as [?|[c1 buf1]]; [done|].
  apply OutcomeFacts.bind_Return_inv in Hdec as (res2 & _ & Hdec).
  destruct res2 as [?|[c2 buf2]]; [done|].
  destruct (blockNBTLoop (length buf2) buf2 []) as [?|res] eqn:Hloop; [done|].
  injection Hdec as _ <-.
  by eapply blockNBTLoop_nonempty.
Qed.

End BlockNBTs.

End DecoderFacts.

(** ** The air runtime ID of the disk decoder, and chunks without data *)

Module DiskFacts.
Import RegistryFacts RuntimeIDFacts.

Lemma registerBlockStates_keys (ss : list blockState) (reg reg' : Registry) :
  registry_keys reg ->
  registerBlockStates ss reg = Return reg' ->
  registry_keys reg'.
Proof.
  revert reg. induction ss as [|s ss IH]; intros reg Hkeys; cbn.
  - by intros [= <-].
  - destruct (registerBlockState s reg) as [reg1|] eqn:Hreg; cbn; [|discriminate].
    apply IH. by destruct (registerBlockState_keys _ _ _ Hkeys Hreg).
Qed.

Lemma stateKey_name (s : blockState) (name h : string) :
  stateKey s = Some (name, h) -> Name s = name.
Proof.
  unfold stateKey. destruct (hashProperties (Properties_ s)); [|done].
  by intros [= <- _].
Qed.

(** Whether a state named "minecraft:air" is registered decides whether
    the lookup of air with nil properties finds a runtime ID. *)
Lemma air_lookup (ss : list blockState) (reg : Registry) :
  registerBlockStates ss ClearStates = Return reg ->
  (exists rid, StateToRuntimeID reg "minecraft:air" None = Return (rid, true))
  ∨ (StateToRuntimeID reg "minecraft:air" None = Return (0, false) ∧
     forall s, s ∈ ss -> Name s ≠ "minecraft:air").
Proof.
  intros Hreg.
  destruct (registerBlockStates_inv ss _ _ registry_inv_clear Hreg)
    as [[Hprops Hrids] Hblocks].
  pose proof (registerBlockStates_keys ss _ _ registry_keys_clear Hreg)
    as Hkeys.
  cbn in Hblocks. subst ss.
  assert (Hnil : hashProperties None = Return EmptyString) by reflexivity.
  destruct (firstNamed "minecraft:air" (blocks reg)) as [[i s0]|] eqn:Hfind.
  - left.
    assert (Hdef : defaultProperties reg "minecraft:air" = Properties_ s0).
    { unfold defaultProperties. by rewrite Hprops, Hfind. }
    apply list_find_Some in Hfind as (Hi & Hname & _).
    destruct (Hrids i s0 Hi) as (h & Hh & Hrid).
    rewrite Hname in Hrid.
    rewrite (StateToRuntimeID_protocol reg _ None EmptyString h Hnil)
      by (by rewrite Hdef).
    destruct (stateRuntimeIDs reg !! ("minecraft:air", EmptyString));
      [by eauto|].
    rewrite Hrid. by eauto.
  - right.
    assert (Hnone : forall s, s ∈ blocks reg -> Name s ≠ "minecraft:air").
    { intros s Hs Hname.
      apply list_find_None in Hfind.
      rewrite Forall_forall in Hfind. by apply (Hfind s Hs). }
    split; [|done].
    assert (Hmiss : forall h, stateRuntimeIDs reg !! ("minecraft:air", h) = None).
    { intros h. apply eq_None_not_Some. intros Hsome.
      apply Hkeys, list_elem_of_fmap in Hsome as (s & Hkey & Hs).
      symmetry in Hkey. apply stateKey_name in Hkey. by apply (Hnone s Hs). }
    assert (Hdef : defaultProperties reg "minecraft:air" = None).
    { unfold defaultProperties. by rewrite Hprops, Hfind. }
    rewrite (StateToRuntimeID_protocol reg _ None EmptyString EmptyString Hnil)
      by (by rewrite Hdef).
    by rewrite Hmiss.
Qed.

Section Disk.
Context `{ChunkCodec}.

Lemma diskSubChunks_empty (subs : list (list byte)) (i : nat) (c : Chunk) :
  Forall (fun s => s = []) subs ->
  diskSubChunks subs i c = Return (inr c).
Proof.
  intros Hsubs. revert i. induction Hsubs as [|s subs -> _ IH]; intros i; [done|].
  cbn. apply IH.
Qed.

Lemma DiskDecode_empty (reg : Registry) (data : SerialisedData) (rg : Range_)
    (airRID : Z) :
  StateToRuntimeID reg "minecraft:air" None = Return (airRID, true) ->
  Biomes data = [] ->
  Forall (fun s => s = []) (SubChunks data) ->
  DiskDecode reg data rg = Return (inr (New airRID rg)).
Proof.
  intros Hair Hbiomes Hsubs. unfold DiskDecode. rewrite Hair. cbn.
  rewrite Hbiomes. unfold decodeBiomes. cbn.
  by apply diskSubChunks_empty.
Qed.

(** X12.  After the states [ss] have been registered, the
    lookup of "minecraft:air" with nil properties that [DiskDecode]
    starts with finds a runtime ID exactly when some state of that name
    is registered (by the exact pair or by the default properties of
    the name); when none is, [DiskDecode] panics on every input. *)
Theorem DiskDecode_air (ss : list blockState) (reg : Registry)
    (Hreg : registerBlockStates ss ClearStates = Return reg) :
  ((exists rid,
      StateToRuntimeID reg "minecraft:air" None = Return (rid, true)) <->
   (exists s, s ∈ ss ∧ Name s = "minecraft:air")) ∧
  ((forall s, s ∈ ss -> Name s ≠ "minecraft:air") ->
   forall data rg,
     DiskDecode reg data rg = Panic "cannot find air runtime ID").
Proof.
  destruct (air_lookup ss reg Hreg) as [[rid Hfound]|[Hmiss Hnone]].
  - assert (Hair : exists s, s ∈ ss ∧ Name s = "minecraft:air").
    { destruct (registerBlockStates_inv ss _ _ registry_inv_clear Hreg)
        as [[Hprops _] Hblocks].
      pose proof (registerBlockStates_keys ss _ _ registry_keys_clear Hreg)
        as Hkeys.
      cbn in Hblocks. subst ss.
      unfold StateToRuntimeID in Hfound. cbn in Hfound.
      destruct (stateRuntimeIDs reg !! ("minecraft:air", EmptyString))
        as [rid0|] eqn:Hexact.
      - assert (Hsome : is_Some (stateRuntimeIDs reg
                                   !! ("minecraft:air", EmptyString)))
          by (by rewrite Hexact).
        apply Hkeys, list_elem_of_fmap in Hsome as (s & Hkey & Hs).
        symmetry in Hkey. apply stateKey_name in Hkey. eauto.
      - destruct (hashProperties
                    (default None (blockProperties reg !! "minecraft:air")))
          as [hd|] eqn:Hhd; cbn in Hfound; [|discriminate].
        destruct (stateRuntimeIDs reg !! ("minecraft:air", hd))
          as [rid1|] eqn:Hdef; [|discriminate].
        assert (Hsome : is_Some (stateRuntimeIDs reg !! ("minecraft:air", hd)))
          by (by rewrite Hdef).
        apply Hkeys, list_elem_of_fmap in Hsome as (s & Hkey & Hs).
        symmetry in Hkey. apply stateKey_name in Hkey. eauto. }
    split; [split; by eauto|].
    intros Hnone. destruct Hair as (s & Hs & Hname). by destruct (Hnone s Hs).
  - split.
    + split.
      * intros [rid Hfound]. rewrite Hmiss in Hfound. discriminate.
      * intros (s & Hs & Hname). by destruct (Hnone s Hs).
    + intros _ data rg. unfold DiskDecode. by rewrite Hmiss.
Qed.

End Disk.

End DiskFacts.

(** ** The world provider on a store that answers every operation *)

Module QuietStoreFacts.
Import LevelDB Mcdb StoreFacts.

(** The provider with the contents [m] and no failure to come. *)
Definition withKv (db : Provider) (m : gmap (list byte) (list byte)) : Provider :=
  withLdb db {| kv := m; faults := [] |}.

Lemma withKv_id (db : Provider) :
  faults (ldb db) = [] -> withKv db (kv (ldb db)) = db.
Proof. destruct db as [[m f] ? ? ?]. cbn. by intros ->. Qed.

Lemma withKv_withKv db m1 m2 : withKv (withKv db m1) m2 = withKv db m2.
Proof. reflexivity. Qed.

Lemma kv_withKv db m : kv (ldb (withKv db m)) = m.
Proof. reflexivity. Qed.

Lemma faults_withKv db m : faults (ldb (withKv db m)) = [].
Proof. reflexivity. Qed.

Lemma dbPut_withKv key value db :
  faults (ldb db) = [] ->
  dbPut key value db = (None, withKv db (<[key := value]> (kv (ldb db)))).
Proof.
  intros Hf. unfold dbPut, Put, nextFault, withKv. rewrite Hf. cbn.
  by rewrite Hf.
Qed.

Lemma dbDelete_withKv key db :
  faults (ldb db) = [] ->
  dbDelete key db = (None, withKv db (delete key (kv (ldb db)))).
Proof.
  intros Hf. unfold dbDelete, Delete, nextFault, withKv. rewrite Hf. cbn.
  by rewrite Hf.
Qed.

(** The result of a call, without the provider. *)
Definition resultOf {A} (o : outcome (A * Provider)) : outcome A :=
  '(a, _) ← o; Return a.

Lemma foldl_insert_seq {A} (f : nat -> A) (acc : list A) (i n : nat) :
  (i + n <= length acc)%nat ->
  foldl (fun acc j => <[j := f j]> acc) acc (seq i n)
  = take i acc ++ (f <$> seq i n) ++ drop (i + n) acc.
Proof.
  revert acc i. induction n as [|n IH]; intros acc i Hlen.
  - cbn. by rewrite Nat.add_0_r, take_drop.
  - cbn [seq foldl]. rewrite IH by (rewrite length_insert; lia).
    cbn [fmap list_fmap].
    rewrite (take_S_r _ _ (f i)) by (apply list_lookup_insert_eq; lia).
    rewrite take_insert_ge by lia.
    rewrite <- app_assoc. cbn. do 3 f_equal.
    replace (S (i + n))%nat with (i + S n)%nat by lia.
    by rewrite drop_insert_lt by lia.
Qed.

End QuietStoreFacts.

(** ** Saving and loading chunks *)

Module ChunkRoundTripFacts.
Import LevelDB Mcdb StoreFacts QuietStoreFacts.

(** The key of the sub chunk with index [i], for a range that starts at
    [lo]. *)
Definition subChunkKey (key : list byte) (lo : Z) (i : nat) : list byte :=
  key ++ [keySubChunkData; u8 (Z.of_nat i + Z.shiftr lo 4)].

(** The number of sub chunks of a dimension. *)
Definition subChunkCount (dim : Dimension) : nat :=
  Z.to_nat (Z.shiftr (Height (Range dim)) 4 + 1).

(** The serialised data held under the keys of a chunk: the value of
    the 3D data key without the first 512 bytes when it is longer than
    that, and the values of the sub chunk keys; an absent key reads as
    no data. *)
Definition storedData (store : gmap (list byte) (list byte))
    (key : list byte) (dim : Dimension) : SerialisedData :=
  let biomes := default [] (store !! (key ++ [key3DData])) in
  {| SubChunks :=
       (fun i => default [] (store !! subChunkKey key (Range dim).1 i))
         <$> seq 0 (subChunkCount dim);
     Biomes := if decide (512 < length biomes)%nat
               then drop 512 biomes else biomes |}.

(** The result of [LoadChunk] for a chunk that exists. *)
Definition decoded (res : error + Chunk) : LoadChunkResult :=
  match res with
  | inl err => {| lc_c := None; lc_exists := true; lc_err := Some err |}
  | inr c => {| lc_c := Some c; lc_exists := true; lc_err := None |}
  end.

(** The contents after the loop of [SaveChunk] over the sub chunks. *)
Fixpoint storeSubChunks (subs : list (list byte)) (i : nat)
    (key : list byte) (lo : Z) (m : gmap (list byte) (list byte))
    : gmap (list byte) (list byte) :=
  match subs with
  | [] => m
  | s :: subs =>
      storeSubChunks subs (S i) key lo (<[subChunkKey key lo i := s]> m)
  end.

Lemma subChunkCount_256 dim : (subChunkCount dim <= 256)%nat.
Proof. destruct dim as [[]| | |]; vm_compute; lia. Qed.

Lemma subChunkKey_inj key lo i j :
  (i < 256)%nat -> (j < 256)%nat ->
  subChunkKey key lo i = subChunkKey key lo j -> i = j.
Proof.
  intros Hi Hj Heq. unfold subChunkKey in Heq.
  apply app_inv_head in Heq. injection Heq as Heq.
  apply HashFacts.u8_inj in Heq.
  Z.div_mod_to_equations. lia.
Qed.

Lemma storeSubChunks_other subs i key lo m key' :
  (forall j, key' ≠ subChunkKey key lo j) ->
  storeSubChunks subs i key lo m !! key' = m !! key'.
Proof.
  intros Hne. revert i m. induction subs as [|s subs IH]; intros i m; [done|].
  cbn. rewrite IH. by rewrite lookup_insert_ne.
Qed.

Lemma storeSubChunks_before subs i key lo m j :
  (j < i)%nat -> (i + length subs <= 256)%nat ->
  storeSubChunks subs i key lo m !! subChunkKey key lo j
  = m !! subChunkKey key lo j.
Proof.
  revert i m. induction subs as [|s subs IH]; intros i m Hj Hlen; [done|].
  cbn in *. rewrite IH by lia. rewrite lookup_insert_ne; [done|].
  intros Heq. apply subChunkKey_inj in Heq; lia.
Qed.

Lemma storeSubChunks_lookup subs i key lo m j s :
  (i + length subs <= 256)%nat ->
  subs !! j = Some s ->
  storeSubChunks subs i key lo m !! subChunkKey key lo (i + j) = Some s.
Proof.
  revert i m j. induction subs as [|s0 subs IH]; intros i m j Hlen Hj; [done|].
  cbn in *. destruct j as [|j].
  - injection Hj as ->. rewrite Nat.add_0_r.
    rewrite storeSubChunks_before by lia. by rewrite lookup_insert_eq.
  - replace (i + S j)%nat with (S i + j)%nat by lia.
    apply IH; [lia|done].
Qed.

Lemma SerialisedData_eq (a b : SerialisedData) :
  SubChunks a = SubChunks b -> Biomes a = Biomes b -> a = b.
Proof. destruct a, b. cbn. by intros -> ->. Qed.

Section Chunks.
Context `{ChunkCodec}.
Variable chunkVersion : byte.

Lemma saveSubChunks_quiet subs i key c db :
  faults (ldb db) = [] ->
  saveSubChunks subs i key c db
  = withKv db (storeSubChunks subs i key (r c).1 (kv (ldb db))).
Proof.
  revert i db. induction subs as [|s subs IH]; intros i db Hf.
  - cbn. by rewrite withKv_id.
  - cbn. rewrite dbPut_withKv by done. by rewrite IH.
Qed.

(** The contents after [SaveChunk] on a store that answers every
    write. *)
Definition savedKv (position : ChunkPos) (c : Chunk) (dim : Dimension)
    (m : gmap (list byte) (list byte)) : gmap (list byte) (list byte) :=
  let data := Encode c DiskEncoding in
  let key := index position dim in
  storeSubChunks (SubChunks data) 0 key (r c).1
    (<[key ++ [keyFinalisation] := PutUint32 0 2 (replicate 4 x00)]>
       (<[key ++ [key3DData] := replicate 512 x00 ++ Biomes data]>
          (<[key ++ [keyVersion] := [chunkVersion]]> m))).

Lemma SaveChunk_quiet position c dim db :
  faults (ldb db) = [] ->
  SaveChunk chunkVersion position c dim db
  = (None, withKv db (savedKv position c dim (kv (ldb db)))).
Proof.
  intros Hf. unfold SaveChunk, savedKv.
  rewrite dbPut_withKv by done.
  rewrite dbPut_withKv by done.
  rewrite dbPut_withKv by done.
  by rewrite saveSubChunks_quiet.
Qed.

Lemma loadSubChunks_quiet n i key dim acc db :
  faults (ldb db) = [] ->
  loadSubChunks n i key dim acc db
  = (inr (foldl (fun acc j =>
                   <[j := default [] (kv (ldb db)
                                        !! subChunkKey key (Range dim).1 j)]> acc)
            acc (seq i n)), db).
Proof.
  intros Hf. revert i acc. induction n as [|n IH]; intros i acc; [done|].
  cbn [loadSubChunks seq foldl]. rewrite dbGet_quiet by done.
  fold (subChunkKey key (Range dim).1 i).
  destruct (kv (ldb db) !! subChunkKey key (Range dim).1 i) as [v|];
    cbn; by rewrite IH.
Qed.

Lemma loadChunkData_quiet reg key dim db :
  faults (ldb db) = [] ->
  loadChunkData reg key dim db
  = (res ← DiskDecode reg (storedData (kv (ldb db)) key dim) (Range dim);
     Return (decoded res, db)).
Proof.
  intros Hf. unfold loadChunkData. rewrite dbGet_quiet by done.
  assert (Hres : forall o : option (list byte),
            ¬ (is_inl (from_option inr (inl ErrNotFound) o) ∧
               inl_err (from_option inr (inl ErrNotFound) o)
               ≠ Some ErrNotFound)).
  { intros [v|]; cbn; [by intros [[? [=]] _]|by intros [_ ?]]. }
  rewrite decide_False by apply Hres.
  rewrite loadSubChunks_quiet by done.
  rewrite foldl_insert_seq by (by rewrite length_replicate).
  rewrite take_0, drop_ge, app_nil_r by (by rewrite length_replicate).
  unfold storedData. fold (subChunkCount dim). cbn [app].
  assert (Hb : match from_option inr (inl ErrNotFound)
                       (kv (ldb db) !! (key ++ [key3DData])) with
               | inl _ => []
               | inr v => v
               end = default [] (kv (ldb db) !! (key ++ [key3DData]))).
  { by destruct (kv (ldb db) !! (key ++ [key3DData])). }
  rewrite Hb.
  destruct (DiskDecode reg _ (Range dim)) as [[err|c]|reason]; done.
Qed.

(** On a store that answers every read, [LoadChunk] decodes what the
    keys of the chunk hold when one of the two version keys is there,
    and leaves the provider as it was. *)
Lemma LoadChunk_quiet reg position dim db :
  faults (ldb db) = [] ->
  LoadChunk reg position dim db
  = if decide (is_Some (kv (ldb db) !! (index position dim ++ [keyVersion])) ∨
               is_Some (kv (ldb db) !! (index position dim ++ [keyVersionOld])))
    then res ← DiskDecode reg
                 (storedData (kv (ldb db)) (index position dim) dim)
                 (Range dim);
         Return (decoded res, db)
    else Return ({| lc_c := None; lc_exists := false; lc_err := None |}, db).
Proof.
  intros Hf. unfold LoadChunk. rewrite dbGet_quiet by done.
  destruct (kv (ldb db) !! (index position dim ++ [keyVersion])) as [v|];
    cbn [from_option].
  - rewrite decide_True by (left; by eauto).
    by apply loadChunkData_quiet.
  - rewrite dbGet_quiet by done.
    destruct (kv (ldb db) !! (index position dim ++ [keyVersionOld])) as [v|];
      cbn [from_option].
    + rewrite decide_True by (right; by eauto).
      by apply loadChunkData_quiet.
    + rewrite decide_False; [done|]. by intros [[? ?]|[? ?]].
Qed.

Lemma savedKv_tag position c dim m tag :
  tag ≠ keyVersion -> tag ≠ key3DData -> tag ≠ keyFinalisation ->
  savedKv position c dim m !! (index position dim ++ [tag])
  = m !! (index position dim ++ [tag]).
Proof.
  intros H1 H2 H3. unfold savedKv.
  rewrite storeSubChunks_other
    by (intros j Heq; unfold subChunkKey in Heq;
        by apply app_inv_head in Heq).
  rewrite !lookup_insert_ne; [done|..];
    intros Heq; apply app_inv_head in Heq; congruence.
Qed.

Lemma savedKv_version position c dim m :
  savedKv position c dim m !! (index position dim ++ [keyVersion])
  = Some [chunkVersion].
Proof.
  unfold savedKv.
  rewrite storeSubChunks_other
    by (intros j Heq; unfold subChunkKey in Heq;
        by apply app_inv_head in Heq).
  rewrite !lookup_insert_ne
    by (intros Heq; apply app_inv_head in Heq; discriminate).
  by rewrite lookup_insert_eq.
Qed.

Lemma savedKv_biomes position c dim m :
  savedKv position c dim m !! (index position dim ++ [key3DData])
  = Some (replicate 512 x00 ++ Biomes (Encode c DiskEncoding)).
Proof.
  unfold savedKv.
  rewrite storeSubChunks_other
    by (intros j Heq; unfold subChunkKey in Heq;
        by apply app_inv_head in Heq).
  rewrite lookup_insert_ne
    by (intros Heq; apply app_inv_head in Heq; discriminate).
  by rewrite lookup_insert_eq.
Qed.

Lemma savedKv_sub position c dim m j s :
  (length (SubChunks (Encode c DiskEncoding)) <= 256)%nat ->
  SubChunks (Encode c DiskEncoding) !! j = Some s ->
  savedKv position c dim m !! subChunkKey (index position dim) (r c).1 j
  = Some s.
Proof.
  intros Hlen Hj. unfold savedKv.
  by apply (storeSubChunks_lookup _ 0 _ _ _ j s).
Qed.

(** Every key that [SaveChunk] writes is the index of the chunk followed
    by one or two bytes. *)
Lemma savedKv_other position c dim m key' :
  (forall suffix, (1 <= length suffix <= 2)%nat ->
     key' ≠ index position dim ++ suffix) ->
  savedKv position c dim m !! key' = m !! key'.
Proof.
  intros Hne. unfold savedKv.
  rewrite storeSubChunks_other
    by (intros j; unfold subChunkKey; apply Hne; cbn; lia).
  rewrite !lookup_insert_ne; [done|..]; apply not_eq_sym, Hne; cbn; lia.
Qed.

(** X13.  On a store that answers every operation,
    loading a chunk that has just been saved decodes exactly the data
    that [Encode] produced for it: provided the range of the chunk is
    that of the dimension, the encoding has one entry per sub chunk of
    the dimension, and the encoded biomes are not empty.  (Encoded
    biomes that are empty would read back as the 512 zero bytes written
    in front of them.) *)
Theorem SaveChunk_LoadChunk (reg : Registry) (position : ChunkPos)
    (c : Chunk) (dim : Dimension) (db : Provider)
    (Hf : faults (ldb db) = [])
    (Hrange : r c = Range dim)
    (Hsubs : length (SubChunks (Encode c DiskEncoding)) = subChunkCount dim)
    (Hbiomes : Biomes (Encode c DiskEncoding) ≠ []) :
  let db' := (SaveChunk chunkVersion position c dim db).2 in
  (SaveChunk chunkVersion position c dim db).1 = None ∧
  LoadChunk reg position dim db'
  = (res ← DiskDecode reg (Encode c DiskEncoding) (Range dim);
     Return (decoded res, db')).
Proof.
  intros db'. unfold db'. rewrite SaveChunk_quiet by done.
  cbn [fst snd]. split; [done|].
  rewrite LoadChunk_quiet by done. rewrite kv_withKv.
  rewrite decide_True by (left; rewrite savedKv_version; by eauto).
  assert (Hdata : storedData (savedKv position c dim (kv (ldb db)))
                    (index position dim) dim = Encode c DiskEncoding).
  { apply SerialisedData_eq.
    - unfold storedData. cbn [SubChunks].
      apply list_eq. intros j. rewrite list_lookup_fmap.
      destruct (SubChunks (Encode c DiskEncoding) !! j) as [s|] eqn:Hj.
      + pose proof (lookup_lt_Some _ _ _ Hj) as Hlt.
        rewrite lookup_seq_lt by lia. cbn [fmap option_fmap option_map Nat.add].
        rewrite <- Hrange. rewrite (savedKv_sub _ _ _ _ j s); [done| |done].
        rewrite Hsubs. apply subChunkCount_256.
      + apply lookup_ge_None in Hj.
        rewrite lookup_seq_ge by lia. done.
    - unfold storedData. cbn [Biomes]. rewrite savedKv_biomes.
      cbn [default from_option]. unfold id.
      rewrite decide_True.
      + by rewrite drop_app_length' by (by rewrite length_replicate).
      + rewrite length_app, length_replicate.
        destruct (Biomes (Encode c DiskEncoding)); [done|cbn; lia]. }
  by rewrite Hdata.
Qed.

(** X14.  On a store that answers every operation,
    saving one chunk does not change what loading another chunk gives:
    the chunk loaded at an index other than that of the chunk saved is
    the same before and after the save. *)
Theorem SaveChunk_other_chunk (reg : Registry) (position position' : ChunkPos)
    (c : Chunk) (dim dim' : Dimension) (db : Provider)
    (Hf : faults (ldb db) = [])
    (Hother : index position' dim' ≠ index position dim) :
  resultOf (LoadChunk reg position' dim'
              (SaveChunk chunkVersion position c dim db).2)
  = resultOf (LoadChunk reg position' dim' db).
Proof.
  rewrite SaveChunk_quiet by done. cbn [snd].
  rewrite !LoadChunk_quiet by done. rewrite kv_withKv.
  assert (Hsame : forall suffix, (1 <= length suffix <= 2)%nat ->
            savedKv position c dim (kv (ldb db))
              !! (index position' dim' ++ suffix)
            = kv (ldb db) !! (index position' dim' ++ suffix)).
  { intros suffix Hs. apply savedKv_other. intros suffix' Hs' Heq.
    apply KeyFacts.chunk_key_split in Heq as [Heq _]; done. }
  rewrite !Hsame by (cbn; lia).
  assert (Hdata : storedData (savedKv position c dim (kv (ldb db)))
                    (index position' dim') dim'
                  = storedData (kv (ldb db)) (index position' dim') dim').
  { unfold storedData. rewrite Hsame by (cbn; lia). f_equal.
    apply list_fmap_ext. intros _ i _. unfold subChunkKey.
    by rewrite Hsame by (cbn; lia). }
  rewrite Hdata. case_decide; [|done].
  by destruct (DiskDecode reg _ _) as [[?|?]|?].
Qed.

(** X15.  On a store that answers every read, a
    chunk of which only a version key (the current or the legacy one)
    is stored loads as the chunk that [New] makes for the air runtime ID
    and the range of the dimension: no biome data and no sub chunk data
    is no error. *)
Theorem LoadChunk_without_data (reg : Registry) (position : ChunkPos)
    (dim : Dimension) (db : Provider) (airRID : Z)
    (Hf : faults (ldb db) = [])
    (Hair : StateToRuntimeID reg "minecraft:air" None = Return (airRID, true))
    (Hversion :
       is_Some (kv (ldb db) !! (index position dim ++ [keyVersion])) ∨
       is_Some (kv (ldb db) !! (index position dim ++ [keyVersionOld])))
    (Hbiomes : kv (ldb db) !! (index position dim ++ [key3DData]) = None)
    (Hsubs : forall y,
       kv (ldb db) !! (index position dim ++ [keySubChunkData; y]) = None) :
  LoadChunk reg position dim db
  = Return ({| lc_c := Some (New airRID (Range dim)); lc_exists := true;
               lc_err := None |}, db).
Proof.
  rewrite LoadChunk_quiet by done. rewrite decide_True by done.
  rewrite (DiskFacts.DiskDecode_empty reg _ _ airRID Hair); [done|..].
  - unfold storedData. cbn [Biomes]. rewrite Hbiomes. cbn.
    by rewrite decide_False by lia.
  - unfold storedData. cbn [SubChunks]. apply Forall_fmap, Forall_forall.
    intros i _. cbn. unfold subChunkKey. by rewrite Hsubs.
Qed.

End Chunks.

End ChunkRoundTripFacts.

(** ** Saving and loading entities *)

Module EntityRoundTripFacts.
Import LevelDB Mcdb StoreFacts QuietStoreFacts WordFacts KeyFacts.

(** The value that [SaveEntities] writes under the ["digp"] key for the
    unique IDs written. *)
Definition digpOf (uniqueIDs : list Z) : list byte :=
  foldl (fun digp uniqueID => AppendUint64 digp (uint64 uniqueID)) []
    uniqueIDs.

Lemma digp_foldl acc ids :
  foldl (fun digp uniqueID => AppendUint64 digp (uint64 uniqueID)) acc ids
  = acc ++ concat ((fun id => bytes8 (uint64 id)) <$> ids).
Proof.
  revert acc. induction ids as [|id ids IH]; intros acc; cbn [foldl].
  - by rewrite app_nil_r.
  - rewrite IH, AppendUint64_bytes8, <- app_assoc. done.
Qed.

Lemma digpOf_cons id ids :
  digpOf (id :: ids) = bytes8 (uint64 id) ++ digpOf ids.
Proof. unfold digpOf. by rewrite !digp_foldl. Qed.

Lemma length_digpOf ids : length (digpOf ids) = (8 * length ids)%nat.
Proof.
  induction ids as [|id ids IH]; [done|].
  rewrite digpOf_cons, length_app, length_bytes8, IH. cbn. lia.
Qed.

Lemma int64_range z : - 2 ^ 63 <= int64 z < 2 ^ 63.
Proof.
  unfold int64.
  change (2 ^ 64) with 18446744073709551616.
  change (2 ^ 63) with 9223372036854775808.
  Z.div_mod_to_equations. lia.
Qed.

Lemma previousIDs_step fuel d acc :
  (8 <= length d)%nat ->
  previousIDs (S fuel) d acc
  = previousIDs fuel (drop 8 d) (acc ++ [int64 (Uint64 (take 8 d))]).
Proof.
  intros Hd. cbn [previousIDs]. destruct d as [|b d]; [cbn in Hd; lia|].
  by rewrite decide_False by lia.
Qed.

Lemma previousIDs_digpOf fuel ids acc :
  Forall (fun id => - 2 ^ 63 <= id < 2 ^ 63) ids ->
  (length ids <= fuel)%nat ->
  previousIDs fuel (digpOf ids) acc = Return (acc ++ ids).
Proof.
  intros Hids. revert fuel acc.
  induction Hids as [|id ids Hid Hids IH]; intros fuel acc Hfuel.
  - destruct fuel; cbn; by rewrite app_nil_r.
  - destruct fuel as [|fuel]; [cbn in Hfuel; lia|].
    rewrite digpOf_cons.
    rewrite previousIDs_step by (rewrite length_app, length_bytes8; lia).
    rewrite take_app_length', drop_app_length' by done.
    rewrite Uint64_bytes8 by apply uint64_range.
    rewrite int64_uint64 by done.
    rewrite IH by (cbn in Hfuel; lia). by rewrite <- app_assoc.
Qed.

Lemma previousIDs_total fuel d acc :
  (length d mod 8 = 0)%nat ->
  Forall (fun id => - 2 ^ 63 <= id < 2 ^ 63) acc ->
  exists ids,
    previousIDs fuel d acc = Return ids ∧
    Forall (fun id => - 2 ^ 63 <= id < 2 ^ 63) ids.
Proof.
  revert d acc. induction fuel as [|fuel IH]; intros d acc Hal Hacc.
  { cbn. eauto. }
  destruct d as [|b d]; [cbn; eauto|].
  set (d' := b :: d) in *.
  assert (8 <= length d')%nat.
  { assert (length d' ≠ 0)%nat by done.
    destruct (decide (length d' < 8)%nat) as [Hlt|]; [|lia].
    rewrite Nat.mod_small in Hal by done. lia. }
  rewrite previousIDs_step by done. apply IH.
  - rewrite length_drop. by apply EntityFacts.mod8_sub.
  - apply Forall_app. split; [done|]. constructor; [|done].
    apply int64_range.
Qed.

Lemma actorKeys_digpOf fuel ids :
  (length ids <= fuel)%nat ->
  EntityFacts.actorKeys fuel (digpOf ids) = actorIndex <$> ids.
Proof.
  revert fuel. induction ids as [|id ids IH]; intros fuel Hfuel.
  - by destruct fuel.
  - destruct fuel as [|fuel]; [cbn in Hfuel; lia|].
    rewrite digpOf_cons. cbn [EntityFacts.actorKeys].
    destruct (bytes8 (uint64 id) ++ digpOf ids) as [|b d] eqn:Hd.
    { apply (f_equal length) in Hd.
      rewrite length_app, length_bytes8 in Hd. cbn in Hd. lia. }
    rewrite <- Hd.
    rewrite take_app_length', drop_app_length' by done.
    rewrite IH by (cbn in Hfuel; lia). done.
Qed.

(** The contents after the loop of [SaveEntities] that removes the
    records not referenced any more. *)
Definition dropStale (previousUniqueIDs uniqueIDs : list Z)
    (m : gmap (list byte) (list byte)) : gmap (list byte) (list byte) :=
  foldl (fun m uniqueID =>
           if decide (uniqueID ∈ uniqueIDs) then m
           else delete (actorIndex uniqueID) m) m previousUniqueIDs.

Lemma dropStale_cons id prev uids m :
  dropStale (id :: prev) uids m
  = dropStale prev uids (if decide (id ∈ uids) then m
                         else delete (actorIndex id) m).
Proof. reflexivity. Qed.

Lemma deleteStale_quiet prev uids db :
  faults (ldb db) = [] ->
  deleteStale prev uids db = withKv db (dropStale prev uids (kv (ldb db))).
Proof.
  revert db. induction prev as [|id prev IH]; intros db Hf.
  - cbn. by rewrite withKv_id.
  - cbn [deleteStale]. rewrite dropStale_cons. case_decide.
    + by apply IH.
    + rewrite dbDelete_withKv by done. cbn [snd]. by rewrite IH.
Qed.

Lemma dropStale_other prev uids m key :
  (forall id, id ∈ prev -> id ∉ uids -> key ≠ actorIndex id) ->
  dropStale prev uids m !! key = m !! key.
Proof.
  revert m. induction prev as [|id prev IH]; intros m Hne; [done|].
  rewrite dropStale_cons.
  rewrite IH by (intros id' Hin; apply Hne; by right).
  case_decide; [done|]. rewrite lookup_delete_ne; [done|].
  apply not_eq_sym, Hne; [by left|done].
Qed.

Lemma dropStale_None prev uids m key :
  m !! key = None -> dropStale prev uids m !! key = None.
Proof.
  revert m. induction prev as [|id prev IH]; intros m Hm; [done|].
  rewrite dropStale_cons. apply IH.
  case_decide; [done|].
  destruct (decide (actorIndex id = key)) as [<-|Hne].
  - apply lookup_delete_eq.
  - by rewrite lookup_delete_ne.
Qed.

Lemma dropStale_stale prev uids m id :
  id ∈ prev -> id ∉ uids ->
  dropStale prev uids m !! actorIndex id = None.
Proof.
  revert m. induction prev as [|id' prev IH]; intros m Hin Hout.
  { by apply elem_of_nil in Hin. }
  rewrite dropStale_cons.
  apply elem_of_cons in Hin as [<-|Hin].
  - rewrite decide_False by done. apply dropStale_None, lookup_delete_eq.
  - by apply IH.
Qed.

Section Entities.
Context `{NbtCodec} {Entity : Type}.
Variable Type_ : Entity -> @EntityType Entity.
Variables (pos : ChunkPos) (reg : string -> option (@EntityType Entity)).

(** The compound that [SaveEntities] encodes for an entity of a saveable
    type, and the unique ID it files the record under when the compound
    holds one of type int64. *)
Definition compoundOf (e : Entity) : option (gmap string Tag) :=
  s ← saveable (Type_ e);
  Some (<["identifier" := TagString (EncodeEntity (Type_ e))]> (EncodeNBT s e)).

Definition uniqueIDOf (e : Entity) : option Z :=
  x ← compoundOf e;
  match x !! "UniqueID" with
  | Some (TagInt64 v) => Some v
  | _ => None
  end.

(** An entity that the provider can store and load again: its type is
    saveable, the compound has a unique ID, the codec reads back the
    compound it wrote, and the registered type of that name decodes the
    compound to the entity. *)
Definition roundTrips (e : Entity) : Prop :=
  exists x uid buf rest t' s',
    compoundOf e = Some x ∧ uniqueIDOf e = Some uid ∧
    - 2 ^ 63 <= uid < 2 ^ 63 ∧
    nbtEncode LittleEndian x = inr buf ∧
    nbtDecode LittleEndian false buf = inr (x, rest) ∧
    reg (EncodeEntity (Type_ e)) = Some t' ∧
    saveable t' = Some s' ∧
    DecodeNBT s' x = Some e.

(** The record of an entity: the unique ID and the encoded compound. *)
Definition recordOf (e : Entity) : option (Z * list byte) :=
  x ← compoundOf e;
  uid ← uniqueIDOf e;
  match nbtEncode LittleEndian x with
  | inr buf => Some (uid, buf)
  | inl _ => None
  end.

Definition putRecord (m : gmap (list byte) (list byte)) (e : Entity)
    : gmap (list byte) (list byte) :=
  match recordOf e with
  | Some (uid, buf) => <[actorIndex uid := buf]> m
  | None => m
  end.

(** An entity that [SaveEntities] handles without touching the source
    of random numbers: one that round-trips, or one of a type that is
    not saveable, which is passed over. *)
Definition storable (e : Entity) : Prop :=
  roundTrips e ∨ saveable (Type_ e) = None.

(** The entities of a saveable type. *)
Definition saveableEntities (entities : list Entity) : list Entity :=
  filter (fun e => is_Some (saveable (Type_ e))) entities.

Lemma roundTrips_record e :
  roundTrips e -> exists uid buf, recordOf e = Some (uid, buf).
Proof.
  intros (x & uid & buf & rest & t' & s' & Hx & Huid & _ & Henc & _).
  exists uid, buf. unfold recordOf. rewrite Hx, Huid. cbn. by rewrite Henc.
Qed.

Lemma roundTrips_saveable e : roundTrips e -> is_Some (saveable (Type_ e)).
Proof.
  intros (x & _ & _ & _ & _ & _ & Hx & _). unfold compoundOf in Hx.
  by destruct (saveable (Type_ e)).
Qed.

Lemma unsaveable_record e :
  saveable (Type_ e) = None ->
  compoundOf e = None ∧ uniqueIDOf e = None ∧ recordOf e = None.
Proof.
  intros He. unfold recordOf, uniqueIDOf, compoundOf. by rewrite He.
Qed.

Lemma recordOf_uniqueID e uid buf :
  recordOf e = Some (uid, buf) -> uniqueIDOf e = Some uid.
Proof.
  unfold recordOf. destruct (compoundOf e); [|done]. cbn.
  destruct (uniqueIDOf e); [|done]. cbn.
  destruct (nbtEncode _ _); [done|]. by intros [= -> _].
Qed.

Lemma saveEntityRecords_quiet entities uids db :
  faults (ldb db) = [] ->
  Forall storable entities ->
  saveEntityRecords Type_ entities uids db
  = (inr (uids ++ omap uniqueIDOf entities),
     withKv db (foldl putRecord (kv (ldb db)) entities)).
Proof.
  intros Hf Hall. revert uids db Hf.
  induction Hall as [|e entities [Hrt|Hno] _ IH]; intros uids db Hf.
  - cbn. by rewrite app_nil_r, withKv_id.
  - destruct (roundTrips_record e Hrt) as (uid & buf & He).
    cbn [saveEntityRecords omap list_omap foldl].
    unfold putRecord at 2. rewrite He.
    unfold recordOf, uniqueIDOf, compoundOf in He |- *.
    destruct (saveable (Type_ e)) as [s|]; [|done]. cbn in He |- *.
    destruct (_ !! "UniqueID") as [[| |v| |]|] eqn:Hu; try done.
    cbn in He.
    destruct (nbtEncode LittleEndian _) as [?|buf'] eqn:Henc; [done|].
    injection He as <- <-.
    rewrite dbPut_withKv by done.
    rewrite IH by done. rewrite <- app_assoc. done.
  - destruct (unsaveable_record e Hno) as (_ & Huid & Hrec).
    cbn [saveEntityRecords omap list_omap foldl].
    unfold putRecord at 2. rewrite Hno, Huid, Hrec. by apply IH.
Qed.

Lemma putRecords_other entities m key :
  (forall e uid buf, e ∈ entities -> recordOf e = Some (uid, buf) ->
     key ≠ actorIndex uid) ->
  foldl putRecord m entities !! key = m !! key.
Proof.
  revert m. induction entities as [|e entities IH]; intros m Hne; [done|].
  cbn [foldl]. rewrite IH by (intros e' ? ? Hin; apply Hne; by right).
  unfold putRecord. destruct (recordOf e) as [[uid buf]|] eqn:He; [|done].
  rewrite lookup_insert_ne; [done|].
  apply not_eq_sym. eapply Hne; [by left|done].
Qed.

Lemma storable_range e uid buf :
  storable e -> recordOf e = Some (uid, buf) -> - 2 ^ 63 <= uid < 2 ^ 63.
Proof.
  intros [Hrt|Hno] Hrec.
  - destruct Hrt as (x & u & b & r0 & t' & s' & _ & Hu & Hr & _).
    apply recordOf_uniqueID in Hrec. congruence.
  - destruct (unsaveable_record e Hno) as (_ & _ & Hnone). congruence.
Qed.

Lemma putRecords_lookup entities m e uid buf :
  NoDup (omap uniqueIDOf entities) ->
  Forall storable entities ->
  e ∈ entities -> recordOf e = Some (uid, buf) ->
  foldl putRecord m entities !! actorIndex uid = Some buf.
Proof.
  revert m. induction entities as [|e0 entities IH]; intros m Hnd Hall Hin He.
  { by apply elem_of_nil in Hin. }
  apply Forall_cons in Hall as [He0 Hall].
  cbn [foldl].
  apply elem_of_cons in Hin as [->|Hin].
  - pose proof (recordOf_uniqueID _ _ _ He) as Huid.
    cbn [omap list_omap] in Hnd. rewrite Huid in Hnd.
    apply NoDup_cons in Hnd as [Hnotin Hnd].
    unfold putRecord at 2. rewrite He.
    rewrite putRecords_other; [by rewrite lookup_insert_eq|].
    intros e' uid' buf' Hin' Hrec' Heq.
    assert (Hst' : storable e').
    { rewrite Forall_forall in Hall. by apply Hall. }
    apply actorIndex_inj in Heq;
      [|exact (storable_range _ uid buf He0 He)
       |exact (storable_range e' uid' buf' Hst' Hrec')].
    subst uid'. apply Hnotin. apply list_elem_of_omap.
    exists e'. split; [done|]. by eapply recordOf_uniqueID.
  - apply IH; [|done..].
    cbn [omap list_omap] in Hnd.
    destruct (uniqueIDOf e0); [by apply NoDup_cons in Hnd as [_ ?]|done].
Qed.

(** [LoadEntities] on a store that answers every read. *)
Lemma LoadEntities_quiet (dim : Dimension) (db : Provider) :
  faults (ldb db) = [] ->
  (length (default [] (kv (ldb db) !! (bytesOf "digp" ++ index pos dim)))
   mod 8 = 0)%nat ->
  let data := default [] (kv (ldb db) !! (index pos dim ++ [keyEntities])) in
  let digp := default [] (kv (ldb db) !! (bytesOf "digp" ++ index pos dim)) in
  exists db',
    LoadEntities pos dim reg db
    = Return (match EntityFacts.decodeStream (length data) data with
              | inl err => inl (Wrap "error decoding entity NBT" err)
              | inr ms =>
                  match EntityFacts.decodeRecords (kv (ldb db))
                          (EntityFacts.actorKeys (length digp) digp) with
                  | inl err => inl (Wrap "error decoding entity NBT" err)
                  | inr ms' =>
                      inr (EntityFacts.loadAll pos reg (ms ++ ms') [] db).1
                  end
              end, db').
Proof.
  intros Hf Halign data digp.
  unfold LoadEntities. rewrite dbGet_quiet by done.
  set (key := index pos dim ++ [keyEntities]) in *.
  rewrite decide_False
    by (destruct (kv (ldb db) !! key); cbn; intros [[? ?] ?]; done).
  replace (match from_option inr (inl ErrNotFound) (kv (ldb db) !! key) with
           | inl _ => []
           | inr v => v
           end) with data by (subst data; by destruct (kv (ldb db) !! key)).
  destruct (EntityFacts.loadInlineEntities_spec pos reg (length data) data [] db)
    as (Hres & Hldb & Hst).
  destruct (loadInlineEntities _ _ _ _ _ _) as [res db1].
  cbn in Hres, Hldb, Hst. subst res.
  destruct (EntityFacts.decodeStream (length data) data) as [err|ms]; [eauto|].
  specialize (Hst ms eq_refl). subst db1.
  rewrite dbGet_quiet by (by rewrite Hldb). rewrite Hldb.
  fold digp. subst digp.
  destruct (kv (ldb db) !! (bytesOf "digp" ++ index pos dim))
    as [digp|] eqn:Hdigp; cbn [from_option default].
  - destruct (EntityFacts.loadActorEntities_spec pos reg (length digp) digp
                (EntityFacts.loadAll pos reg ms [] db).1
                (EntityFacts.loadAll pos reg ms [] db).2)
      as (db' & ->); [by rewrite Hldb|exact Halign|].
    exists db'. rewrite Hldb. unfold id.
    destruct (EntityFacts.decodeRecords _ _) as [err|ms']; [done|].
    by rewrite EntityFacts.loadAll_app.
  - cbn. rewrite app_nil_r. eauto.
Qed.

Lemma saveEntityRecords_faults entities uids db :
  faults (ldb db) = [] ->
  faults (ldb (saveEntityRecords Type_ entities uids db).2) = [].
Proof.
  revert uids db. induction entities as [|e entities IH]; intros uids db Hf;
    [done|].
  cbn [saveEntityRecords].
  destruct (saveable (Type_ e)) as [s|]; [|by apply IH].
  destruct (nbtEncode LittleEndian _) as [?|buf]; [done|].
  set (x := <["identifier" := _]> _).
  assert (Hput : forall uniqueID (d : Provider),
            faults (ldb d) = [] ->
            faults (ldb (let '(err, db0) := dbPut (actorIndex uniqueID) buf d in
                         match err with
                         | Some err =>
                             (inl (Wrap "save entities: error Adding to db" err),
                              db0)
                         | None =>
                             saveEntityRecords Type_ entities
                               (uids ++ [uniqueID]) db0
                         end).2) = []).
  { intros uniqueID d Hd. rewrite dbPut_withKv by done. by apply IH. }
  destruct (x !! "UniqueID") as [[| |v| |]|]; cbn; by apply Hput.
Qed.

Lemma loadEntity_roundTrips e x d :
  roundTrips e -> compoundOf e = Some x ->
  loadEntity x pos reg d = (Some e, d).
Proof.
  intros (x' & uid & buf & rest & t' & s' & Hx & Huid & _ & _ & _ & Hreg
          & Hsave & Hdec) Hx'.
  assert (x' = x) as -> by congruence.
  assert (Hid : x !! "identifier" = Some (TagString (EncodeEntity (Type_ e)))).
  { unfold compoundOf in Hx. destruct (saveable (Type_ e)); [|done].
    cbn in Hx. injection Hx as <-. by rewrite lookup_insert_eq. }
  unfold loadEntity. rewrite Hid, Hreg, Hsave.
  unfold uniqueIDOf in Huid. rewrite Hx in Huid. cbn in Huid.
  destruct (x !! "UniqueID") as [tag|]; [|done]. by rewrite Hdec.
Qed.

Lemma loadAll_storable (l : list Entity) a d :
  Forall storable l ->
  EntityFacts.loadAll pos reg (omap compoundOf l) a d
  = (a ++ saveableEntities l, d).
Proof.
  intros Hall. revert a d.
  induction Hall as [|e l [He|Hno] _ IH]; intros a d.
  - unfold EntityFacts.loadAll. cbn. by rewrite app_nil_r.
  - pose proof He as (x & uid & buf & rest & t' & s' & Hx & _).
    cbn [omap list_omap]. rewrite Hx. rewrite EntityFacts.loadAll_cons.
    rewrite (loadEntity_roundTrips e x d) by done.
    cbn [fst snd appendEntity]. rewrite IH.
    unfold saveableEntities. rewrite filter_cons_True
      by (by apply roundTrips_saveable).
    by rewrite <- app_assoc.
  - destruct (unsaveable_record e Hno) as (Hx & _).
    cbn [omap list_omap]. rewrite Hx. rewrite IH.
    unfold saveableEntities. rewrite filter_cons_False; [done|].
    rewrite Hno. by intros [? ?].
Qed.

Lemma decodeRecords_storable (store : gmap (list byte) (list byte))
    (l : list Entity) :
  Forall (fun e => storable e ∧
                   forall uid buf, recordOf e = Some (uid, buf) ->
                                   store !! actorIndex uid = Some buf) l ->
  EntityFacts.decodeRecords store (actorIndex <$> omap uniqueIDOf l)
  = inr (omap compoundOf l).
Proof.
  induction 1 as [|e l [[He|Hno] Hstore] _ IH]; [done| |].
  - pose proof He as (x & uid & buf & rest & t' & s' & Hx & Huid & _ & Henc
                      & Hdec & _).
    cbn [omap list_omap]. rewrite Huid, Hx. cbn [fmap list_fmap].
    cbn [EntityFacts.decodeRecords].
    rewrite (Hstore uid buf)
      by (unfold recordOf; rewrite Hx, Huid; cbn; by rewrite Henc).
    cbn [default from_option]. unfold id. rewrite Hdec.
    fold (fmap actorIndex (omap uniqueIDOf l)). by rewrite IH.
  - destruct (unsaveable_record e Hno) as (Hx & Huid & _).
    cbn [omap list_omap]. by rewrite Hx, Huid.
Qed.

(** The entity that is loaded in the place of [e]: the last entity of
    the list with the unique ID of [e], whose record is the one left in
    the store. *)
Definition winner (entities : list Entity) (e : Entity) : Entity :=
  default e (last (filter (fun e' => uniqueIDOf e' = uniqueIDOf e) entities)).

Lemma storable_uniqueID e uid :
  storable e -> uniqueIDOf e = Some uid -> roundTrips e.
Proof.
  intros [Hrt|Hno] Huid; [done|].
  destruct (unsaveable_record e Hno) as (_ & Hnone & _). congruence.
Qed.

(** After the records of the list are put, the key of a unique ID holds
    the record of the last entity with that ID. *)
Lemma putRecords_winner entities m e uid :
  Forall storable entities -> e ∈ entities -> uniqueIDOf e = Some uid ->
  exists buf,
    roundTrips (winner entities e) ∧
    recordOf (winner entities e) = Some (uid, buf) ∧
    foldl putRecord m entities !! actorIndex uid = Some buf.
Proof.
  induction entities as [|x l IH] using rev_ind; intros Hall Hin Huid.
  { by apply elem_of_nil in Hin. }
  apply Forall_app in Hall as [Hl Hx]. rewrite Forall_singleton in Hx.
  rewrite foldl_app. cbn [foldl]. unfold winner. rewrite filter_app.
  destruct (decide (uniqueIDOf x = uniqueIDOf e)) as [Heq|Hneq].
  - rewrite (filter_cons_True _ x []) by done. rewrite filter_nil, last_snoc.
    cbn [default from_option]. unfold id.
    assert (Hrt : roundTrips x).
    { apply (storable_uniqueID x uid); [done|congruence]. }
    destruct (roundTrips_record x Hrt) as (uid' & buf & Hrec).
    pose proof (recordOf_uniqueID _ _ _ Hrec) as Hu'.
    assert (uid' = uid) as -> by congruence.
    exists buf. split; [done|]. split; [done|].
    unfold putRecord. rewrite Hrec. by rewrite lookup_insert_eq.
  - rewrite (filter_cons_False _ x []) by done. rewrite filter_nil, app_nil_r.
    assert (Hin' : e ∈ l).
    { apply elem_of_app in Hin as [Hin|Hin]; [done|].
      apply list_elem_of_singleton in Hin. by subst. }
    destruct (IH Hl Hin' Huid) as (buf & Hrt & Hrec & Hlook).
    exists buf. split; [done|]. split; [done|].
    unfold putRecord. destruct (recordOf x) as [[uidx bufx]|] eqn:Hrecx;
      [|done].
    rewrite lookup_insert_ne; [done|]. intros Hkey.
    apply actorIndex_inj in Hkey;
      [|exact (storable_range x uidx bufx Hx Hrecx)
       |exact (storable_range _ uid buf (or_introl Hrt) Hrec)].
    subst uidx. apply recordOf_uniqueID in Hrecx. congruence.
Qed.

(** What a successful [SaveEntities] leaves in a store that answers
    every operation. *)
Lemma SaveEntities_stored (entities : list Entity) (dim : Dimension)
    (db : Provider) :
  faults (ldb db) = [] ->
  (length (default [] (kv (ldb db) !! (bytesOf "digp" ++ index pos dim)))
   mod 8 = 0)%nat ->
  entities ≠ [] -> Forall storable entities ->
  exists m,
    SaveEntities Type_ pos entities dim db = Return (None, withKv db m) ∧
    m !! (bytesOf "digp" ++ index pos dim)
    = Some (digpOf (omap uniqueIDOf entities)) ∧
    m !! (index pos dim ++ [keyEntities]) = None ∧
    forall uid, uid ∈ omap uniqueIDOf entities -> - 2 ^ 63 <= uid < 2 ^ 63 ->
      m !! actorIndex uid
      = foldl putRecord (kv (ldb db)) entities !! actorIndex uid.
Proof.
  intros Hf Halign Hne Hrt.
  pose proof (IndexFacts.index_length pos dim) as Hlen.
  set (digpKey := bytesOf "digp" ++ index pos dim) in *.
  set (inlineKey := index pos dim ++ [keyEntities]).
  set (uids := omap uniqueIDOf entities).
  assert (Hprev : exists prev,
            match kv (ldb db) !! digpKey with
            | Some digpPrev => previousIDs (length digpPrev) digpPrev []
            | None => Return []
            end = Return prev ∧
            Forall (fun id => - 2 ^ 63 <= id < 2 ^ 63) prev).
  { destruct (kv (ldb db) !! digpKey) as [d|]; [|by eauto].
    by apply previousIDs_total. }
  destruct Hprev as (prev & Hprev & Hrange).
  set (kv1 := foldl putRecord (kv (ldb db)) entities).
  exists (delete inlineKey
            (<[digpKey := digpOf uids]> (dropStale prev uids kv1))).
  split; [|split; [|split]].
  - unfold SaveEntities. fold digpKey. rewrite dbGet_quiet by done.
    rewrite decide_False
      by (destruct (kv (ldb db) !! digpKey); cbn; intros [[? ?] ?]; done).
    assert (Hmatch : match from_option inr (inl ErrNotFound)
                             (kv (ldb db) !! digpKey) with
                     | inl _ => Return []
                     | inr digpPrev => previousIDs (length digpPrev) digpPrev []
                     end = Return prev).
    { by destruct (kv (ldb db) !! digpKey). }
    rewrite Hmatch, OutcomeFacts.bind_Return.
    rewrite saveEntityRecords_quiet by done.
    cbn [app]. fold uids kv1.
    rewrite deleteStale_quiet by done. rewrite kv_withKv, withKv_withKv.
    rewrite decide_False by (by destruct entities).
    rewrite dbPut_withKv by done. rewrite kv_withKv, withKv_withKv.
    rewrite dbDelete_withKv by done. rewrite kv_withKv, withKv_withKv.
    done.
  - rewrite lookup_delete_ne, lookup_insert_eq; [done|].
    intros Heq. apply (f_equal length) in Heq. unfold inlineKey, digpKey in Heq.
    rewrite !length_app in Heq. cbn in Heq. lia.
  - apply lookup_delete_eq.
  - intros uid Hu Hur.
    rewrite lookup_delete_ne.
    2:{ intros Heq. apply (f_equal length) in Heq. unfold inlineKey in Heq.
        rewrite length_app, EntityFacts.length_actorIndex in Heq.
        cbn in Heq. lia. }
    rewrite lookup_insert_ne.
    2:{ intros Heq. apply (f_equal length) in Heq. unfold digpKey in Heq.
        rewrite length_app, EntityFacts.length_actorIndex in Heq.
        cbn in Heq. lia. }
    rewrite dropStale_other; [done|].
    intros id Hid Hout Heq. apply actorIndex_inj in Heq; [|done|].
    + by subst id.
    + rewrite Forall_forall in Hrange. by apply Hrange.
Qed.

(** [LoadEntities] on a store that holds a ["digp"] list for the chunk
    and no inline entities. *)
Lemma LoadEntities_stored (uids : list Z) (dim : Dimension) (db : Provider)
    (m : gmap (list byte) (list byte)) :
  faults (ldb db) = [] ->
  m !! (bytesOf "digp" ++ index pos dim) = Some (digpOf uids) ->
  m !! (index pos dim ++ [keyEntities]) = None ->
  exists db',
    LoadEntities pos dim reg (withKv db m)
    = Return (match EntityFacts.decodeRecords m (actorIndex <$> uids) with
              | inl err => inl (Wrap "error decoding entity NBT" err)
              | inr ms =>
                  inr (EntityFacts.loadAll pos reg ms [] (withKv db m)).1
              end, db').
Proof.
  intros Hf Hdigp Hinline.
  destruct (LoadEntities_quiet dim (withKv db m)) as (db' & Hload).
  { done. }
  { rewrite kv_withKv, Hdigp.
    cbn [default from_option]. unfold Datatypes.id. rewrite length_digpOf.
    replace (8 * length uids)%nat with (length uids * 8)%nat by lia.
    apply Nat.Div0.mod_mul. }
  exists db'. rewrite Hload. rewrite kv_withKv.
  rewrite Hdigp, Hinline. cbn [default from_option length].
  unfold Datatypes.id. cbn [EntityFacts.decodeStream app].
  by rewrite actorKeys_digpOf by (rewrite length_digpOf; lia).
Qed.

(** The records that [LoadEntities] decodes when the key of each unique
    ID holds the record of the entity [w e]. *)
Lemma decodeRecords_winners (store : gmap (list byte) (list byte))
    (w : Entity -> Entity) (l : list Entity) :
  Forall (fun e => storable e ∧
                   forall uid, uniqueIDOf e = Some uid ->
                     exists buf, roundTrips (w e) ∧
                                 recordOf (w e) = Some (uid, buf) ∧
                                 store !! actorIndex uid = Some buf) l ->
  EntityFacts.decodeRecords store (actorIndex <$> omap uniqueIDOf l)
  = inr (omap compoundOf (w <$> saveableEntities l)).
Proof.
  induction 1 as [|e l [[He|Hno] Hstore] _ IH]; [done| |].
  - pose proof He as (x0 & uid & _ & _ & _ & _ & _ & Huid & _).
    destruct (Hstore uid Huid) as (buf & Hw & Hrec & Hlook).
    pose proof Hw as (x & uid' & buf' & rest & t' & s' & Hx & Huid' & _ & Henc
                      & Hdec & _).
    assert (buf' = buf) as ->.
    { unfold recordOf in Hrec. rewrite Hx, Huid' in Hrec. cbn in Hrec.
      rewrite Henc in Hrec. congruence. }
    unfold saveableEntities. rewrite filter_cons_True
      by (by apply roundTrips_saveable).
    cbn [omap list_omap fmap list_fmap]. rewrite Huid, Hx.
    cbn [fmap list_fmap EntityFacts.decodeRecords].
    rewrite Hlook. cbn [default from_option]. unfold Datatypes.id.
    rewrite Hdec.
    fold (fmap actorIndex (omap uniqueIDOf l)). rewrite IH. done.
  - destruct (unsaveable_record e Hno) as (_ & Huid & _).
    unfold saveableEntities. rewrite filter_cons_False
      by (rewrite Hno; by intros [? ?]).
    cbn [omap list_omap]. by rewrite Huid.
Qed.

Lemma loadAll_roundTrips (l : list Entity) d :
  Forall roundTrips l ->
  EntityFacts.loadAll pos reg (omap compoundOf l) [] d = (l, d).
Proof.
  intros Hall.
  rewrite loadAll_storable
    by (eapply Forall_impl; [exact Hall|]; intros e He; by left).
  cbn [app]. f_equal. unfold saveableEntities.
  induction Hall as [|e l He _ IH]; [done|].
  rewrite filter_cons_True by (by apply roundTrips_saveable). by rewrite IH.
Qed.

(** X16.  On a store that answers every
    operation, the entities of a saveable type that have been saved for
    a chunk are loaded again, in order, and the entities of a type that
    is not saveable are left out: provided the list is not empty, every
    entity of a saveable type carries an int64 unique ID in its
    compound, is read back by the codec as it was written and is
    decoded to the entity by the registered type of its name, and no
    two entities have the same unique ID. *)
Theorem SaveEntities_LoadEntities (entities : list Entity) (dim : Dimension)
    (db : Provider)
    (Hf : faults (ldb db) = [])
    (Halign : (length (default [] (kv (ldb db)
                                     !! (bytesOf "digp" ++ index pos dim)))
               mod 8 = 0)%nat)
    (Hne : entities ≠ [])
    (Hrt : Forall storable entities)
    (Hnd : NoDup (omap uniqueIDOf entities)) :
  exists db1 db2,
    SaveEntities Type_ pos entities dim db = Return (None, db1) ∧
    LoadEntities pos dim reg db1
    = Return (inr (saveableEntities entities), db2).
Proof.
  destruct (SaveEntities_stored entities dim db Hf Halign Hne Hrt)
    as (m & Hsave & Hdigp & Hinline & Hkeep).
  destruct (LoadEntities_stored _ dim db m Hf Hdigp Hinline) as (db2 & Hload).
  exists (withKv db m), db2. split; [done|].
  rewrite Hload, decodeRecords_storable.
  - by rewrite loadAll_storable.
  - pose proof Hrt as Hall. rewrite Forall_forall in Hall |- *.
    intros e Hin. split; [by apply Hall|].
    intros uid buf Hrec.
    rewrite Hkeep.
    + by apply (putRecords_lookup entities _ e).
    + apply list_elem_of_omap. exists e. split; [done|].
      by eapply recordOf_uniqueID.
    + apply (storable_range e uid buf); [by apply Hall|done].
Qed.

(** X17.  Entities that share a unique ID
    share one record: each [Put] overwrites the one before, while the
    ["digp"] value lists the ID once for each of them.  So
    [LoadEntities] after [SaveEntities] returns one entity for every
    saveable entity of the list, and in the place of each it returns the
    last entity of the list with the same unique ID. *)
Theorem SaveEntities_last_record_wins (entities : list Entity)
    (dim : Dimension) (db : Provider)
    (Hf : faults (ldb db) = [])
    (Halign : (length (default [] (kv (ldb db)
                                     !! (bytesOf "digp" ++ index pos dim)))
               mod 8 = 0)%nat)
    (Hne : entities ≠ [])
    (Hrt : Forall storable entities) :
  exists db1 db2,
    SaveEntities Type_ pos entities dim db = Return (None, db1) ∧
    LoadEntities pos dim reg db1
    = Return (inr (winner entities <$> saveableEntities entities), db2).
Proof.
  destruct (SaveEntities_stored entities dim db Hf Halign Hne Hrt)
    as (m & Hsave & Hdigp & Hinline & Hkeep).
  destruct (LoadEntities_stored _ dim db m Hf Hdigp Hinline) as (db2 & Hload).
  exists (withKv db m), db2. split; [done|].
  assert (Hw : Forall (fun e => storable e ∧
                 forall uid, uniqueIDOf e = Some uid ->
                   exists buf, roundTrips (winner entities e) ∧
                               recordOf (winner entities e) = Some (uid, buf) ∧
                               m !! actorIndex uid = Some buf) entities).
  { pose proof Hrt as Hall. rewrite Forall_forall in Hall |- *.
    intros e Hin. split; [by apply Hall|].
    intros uid Huid.
    destruct (putRecords_winner entities (kv (ldb db)) e uid)
      as (buf & Hwrt & Hrec & Hlook); [done..|].
    exists buf. split; [done|]. split; [done|].
    rewrite Hkeep; [done| |].
    - apply list_elem_of_omap. by exists e.
    - by apply (storable_range _ uid buf (or_introl Hwrt)). }
  rewrite Hload, (decodeRecords_winners m (winner entities)) by done.
  rewrite loadAll_roundTrips; [done|].
  apply Forall_fmap, Forall_forall. intros e Hin.
  apply list_elem_of_filter in Hin as [[s Hs] Hin].
  rewrite Forall_forall in Hw. destruct (Hw e Hin) as [Hst Hwin].
  destruct Hst as [He|Hno]; [|congruence].
  pose proof He as (_ & uid & _ & _ & _ & _ & _ & Huid & _).
  by destruct (Hwin uid Huid) as (_ & ? & _).
Qed.

(** X18.  On a store that answers every
    operation, a successful [SaveEntities] removes the record of every
    unique ID that the ["digp"] value of the chunk listed before and
    that is not written again (whether or not another chunk lists the
    ID); the ["digp"] key afterwards holds the unique IDs written, and
    is absent when the entity list is empty. *)
Theorem SaveEntities_removes_stale (entities : list Entity) (dim : Dimension)
    (db : Provider) (digpPrev : list byte)
    (previousUniqueIDs uniqueIDs : list Z)
    (Hf : faults (ldb db) = [])
    (Hdigp : kv (ldb db) !! (bytesOf "digp" ++ index pos dim) = Some digpPrev)
    (Hprev : previousIDs (length digpPrev) digpPrev []
             = Return previousUniqueIDs)
    (Hids : (saveEntityRecords Type_ entities [] db).1 = inr uniqueIDs) :
  exists db',
    SaveEntities Type_ pos entities dim db = Return (None, db') ∧
    (forall id, id ∈ previousUniqueIDs -> id ∉ uniqueIDs ->
       kv (ldb db') !! actorIndex id = None) ∧
    kv (ldb db') !! (bytesOf "digp" ++ index pos dim)
    = (if decide (entities = []) then None else Some (digpOf uniqueIDs)).
Proof.
  pose proof (IndexFacts.index_length pos dim) as Hlen.
  set (digpKey := bytesOf "digp" ++ index pos dim) in *.
  unfold SaveEntities. fold digpKey. rewrite dbGet_quiet by done.
  rewrite Hdigp. cbn [from_option].
  rewrite decide_False by (intros [[? [=]] _]).
  rewrite Hprev, OutcomeFacts.bind_Return.
  pose proof (saveEntityRecords_faults entities [] db Hf) as Hf1.
  destruct (saveEntityRecords Type_ entities [] db) as [res db1].
  cbn in Hids, Hf1. subst res.
  rewrite deleteStale_quiet by done.
  set (kv2 := dropStale previousUniqueIDs uniqueIDs (kv (ldb db1))).
  assert (Hkeys : forall id, digpKey ≠ actorIndex id).
  { intros id Heq. apply (f_equal length) in Heq. unfold digpKey in Heq.
    rewrite length_app, EntityFacts.length_actorIndex in Heq. cbn in Heq. lia. }
  case_decide as Hempty.
  - rewrite dbDelete_withKv by done. rewrite kv_withKv, withKv_withKv.
    eexists. split; [done|]. rewrite kv_withKv. split.
    + intros id Hin Hout. rewrite lookup_delete_ne by apply Hkeys.
      by apply dropStale_stale.
    + rewrite lookup_delete_eq. rewrite decide_True; [done|].
      by destruct entities.
  - rewrite dbPut_withKv by done. rewrite kv_withKv, withKv_withKv.
    rewrite dbDelete_withKv by done. rewrite kv_withKv, withKv_withKv.
    eexists. split; [done|]. cbn [snd]. rewrite kv_withKv. split.
    + intros id Hin Hout.
      destruct (decide (index pos dim ++ [keyEntities] = actorIndex id))
        as [->|Hne]; [apply lookup_delete_eq|].
      rewrite lookup_delete_ne by done.
      rewrite lookup_insert_ne by apply Hkeys.
      by apply dropStale_stale.
    + rewrite lookup_delete_ne.
      * rewrite lookup_insert_eq. rewrite decide_False; [done|].
        by intros ->.
      * intros Heq. apply (f_equal length) in Heq. unfold digpKey in Heq.
        rewrite !length_app in Heq. cbn in Heq. lia.
Qed.

End Entities.

End EntityRoundTripFacts.

(** ** Saving and loading block entities *)

Module BlockEntityFacts.
Import LevelDB Mcdb StoreFacts QuietStoreFacts.

Section BlockEntities.
Context `{NbtCodec}.

Lemma loadBlockNBTs_spec fuel buf a :
  loadBlockNBTs fuel buf a
  = match EntityFacts.decodeStream fuel buf with
    | inl err => inl (Wrap "error decoding block NBT" err)
    | inr ms => inr (a ++ ms)
    end.
Proof.
  revert buf a. induction fuel as [|fuel IH]; intros buf a; cbn.
  { by rewrite app_nil_r. }
  destruct buf as [|b buf]; [by rewrite app_nil_r|].
  destruct (nbtDecode LittleEndian false (b :: buf)) as [err|[m rest]];
    [done|].
  rewrite IH. destruct (EntityFacts.decodeStream fuel rest) as [err|ms];
    [done|]. by rewrite <- app_assoc.
Qed.

Lemma LoadBlockNBT_quiet position dim db :
  faults (ldb db) = [] ->
  let data := default [] (kv (ldb db)
                            !! (index position dim ++ [keyBlockEntities])) in
  LoadBlockNBT position dim db
  = (match EntityFacts.decodeStream (length data) data with
     | inl err => inl (Wrap "error decoding block NBT" err)
     | inr ms => inr ms
     end, db).
Proof.
  intros Hf data. unfold LoadBlockNBT. rewrite dbGet_quiet by done.
  set (key := index position dim ++ [keyBlockEntities]) in *.
  rewrite decide_False
    by (destruct (kv (ldb db) !! key); cbn; intros [[? ?] ?]; done).
  replace (match from_option inr (inl ErrNotFound) (kv (ldb db) !! key) with
           | inl _ => []
           | inr v => v
           end) with data by (subst data; by destruct (kv (ldb db) !! key)).
  by rewrite loadBlockNBTs_spec.
Qed.

(** X19.  [LoadBlockNBT] returns all compounds of the
    stored stream or none: on a store that answers the read, the result
    is the list of the compounds decoded one after the other until the
    value is used up, and the first compound that fails to decode makes
    the call return that error, wrapped, without the compounds decoded
    before it; an absent key is an empty list.  A failure of the store
    is returned as it is. *)
Theorem LoadBlockNBT_stream (position : ChunkPos) (dim : Dimension)
    (db : Provider) :
  (faults (ldb db) = [] ->
   let data := default [] (kv (ldb db)
                             !! (index position dim ++ [keyBlockEntities])) in
   LoadBlockNBT position dim db
   = (match EntityFacts.decodeStream (length data) data with
      | inl err => inl (Wrap "error decoding block NBT" err)
      | inr ms => inr ms
      end, db)) ∧
  (forall cause rest,
     faults (ldb db) = Some cause :: rest ->
     (LoadBlockNBT position dim db).1 = inl (ErrStore cause)).
Proof.
  split; [apply LoadBlockNBT_quiet|].
  intros cause rest Hf. unfold LoadBlockNBT, dbGet, Get, nextFault.
  rewrite Hf. cbn. rewrite decide_True; [done|].
  split; [by eexists|done].
Qed.

(** X20.  On a store that answers every
    operation: saving the empty list of block entities deletes the key,
    and loading then gives the empty list; saving a list that is not
    empty writes the encodings one after the other, and loading gives
    the list back when the codec reads that stream back. *)
Theorem SaveBlockNBT_LoadBlockNBT (position : ChunkPos)
    (data : list (gmap string Tag)) (dim : Dimension) (db : Provider)
    (Hf : faults (ldb db) = []) :
  let key := index position dim ++ [keyBlockEntities] in
  let saved := SaveBlockNBT position data dim db in
  (data = [] ->
   saved.1 = None ∧ kv (ldb saved.2) !! key = None ∧
   (LoadBlockNBT position dim saved.2).1 = inr []) ∧
  (forall buf,
     data ≠ [] ->
     encodeBlockNBTs data [] = inr buf ->
     EntityFacts.decodeStream (length buf) buf = inr data ->
     saved.1 = None ∧ kv (ldb saved.2) !! key = Some buf ∧
     (LoadBlockNBT position dim saved.2).1 = inr data).
Proof.
  intros key saved. split.
  - intros ->. unfold saved, SaveBlockNBT. cbn [length].
    rewrite decide_True by done. fold key.
    rewrite dbDelete_withKv by done. cbn [fst snd].
    split; [done|]. rewrite kv_withKv, lookup_delete_eq. split; [done|].
    rewrite LoadBlockNBT_quiet by done. fold key.
    by rewrite kv_withKv, lookup_delete_eq.
  - intros buf Hne Henc Hdec. unfold saved, SaveBlockNBT.
    rewrite decide_False by (by destruct data).
    rewrite Henc. fold key. rewrite dbPut_withKv by done. cbn [fst snd].
    split; [done|]. rewrite kv_withKv, lookup_insert_eq. split; [done|].
    rewrite LoadBlockNBT_quiet by done. fold key.
    rewrite kv_withKv, lookup_insert_eq. cbn [default from_option fst].
    unfold id. by rewrite Hdec.
Qed.

End BlockEntities.

End BlockEntityFacts.

(** ** Player data *)

Module PlayerFacts.
Import LevelDB Mcdb StoreFacts QuietStoreFacts.

Lemma length_bytesOf (s : string) : length (bytesOf s) = String.length s.
Proof.
  unfold bytesOf, String.list_byte_of_string. rewrite List.length_map.
  induction s as [|c s IH]; [done|]. cbn. by rewrite IH.
Qed.

Lemma player_server_key (id : string) :
  bytesOf ("player_server_" +:+ id) ≠ bytesOf ("player_" +:+ id).
Proof.
  intros Heq. apply (f_equal length) in Heq.
  rewrite !length_bytesOf, !HashFacts.length_app_string in Heq.
  cbn in Heq. lia.
Qed.

(** The server data with the spawn position [pos] written into it. *)
Definition withSpawn (pos : Pos) (d : gmap string Tag) : gmap string Tag :=
  <["SpawnZ" := TagInt32 (int32 pos.2)]>
    (<["SpawnY" := TagInt32 (int32 pos.1.2)]>
       (<["SpawnX" := TagInt32 (int32 pos.1.1)]> d)).

Lemma withSpawn_lookup pos d :
  withSpawn pos d !! "SpawnX" = Some (TagInt32 (int32 pos.1.1)) ∧
  withSpawn pos d !! "SpawnY" = Some (TagInt32 (int32 pos.1.2)) ∧
  withSpawn pos d !! "SpawnZ" = Some (TagInt32 (int32 pos.2)).
Proof.
  unfold withSpawn. split; [|split].
  - rewrite !lookup_insert_ne by done. by rewrite lookup_insert_eq.
  - rewrite lookup_insert_ne by done. by rewrite lookup_insert_eq.
  - by rewrite lookup_insert_eq.
Qed.

Section Players.
Context `{NbtMarshal}.

(** Loading from a store that holds a valid player record and the
    server data it points to. *)
Lemma LoadPlayerData_valid (id : string) (db : Provider)
    (b1 b2 : list byte) (d : playerData) (m : gmap string Tag) :
  faults (ldb db) = [] ->
  kv (ldb db) !! bytesOf ("player_" +:+ id) = Some b1 ->
  unmarshalPlayerData LittleEndian b1 = inr d ->
  UUID d = id -> ServerID d ≠ EmptyString ->
  kv (ldb db) !! bytesOf (ServerID d) = Some b2 ->
  unmarshalMap LittleEndian b2 = inr m ->
  LoadPlayerData id db
  = ({| pd_serverData := Some m; pd_key := ServerID d; pd_exists := true;
        pd_err := None |}, db).
Proof.
  intros Hf Hrec Hu1 Hid Hk Hdata Hu2. unfold LoadPlayerData.
  rewrite dbGet_quiet by done. rewrite Hrec. cbn [from_option].
  rewrite Hu1. rewrite decide_False by (by intros [|]).
  rewrite dbGet_quiet by done. rewrite Hdata. cbn [from_option].
  by rewrite Hu2.
Qed.

Lemma LoadPlayerSpawnPosition_valid (id : string) (db : Provider)
    (key : string) (m : gmap string Tag) (pos : Pos) :
  LoadPlayerData id db
  = ({| pd_serverData := Some (withSpawn pos m); pd_key := key;
        pd_exists := true; pd_err := None |}, db) ->
  LoadPlayerSpawnPosition id db
  = Return ({| sp_pos := (int32 pos.1.1, int32 pos.1.2, int32 pos.2);
               sp_exists := true; sp_err := None |}, db).
Proof.
  intros Hload. unfold LoadPlayerSpawnPosition. rewrite Hload.
  cbn [pd_exists pd_err pd_serverData default from_option].
  rewrite decide_False by (by intros [|]). unfold Datatypes.id.
  destruct (withSpawn_lookup pos m) as (-> & -> & ->). done.
Qed.

(** X21.  On a store that answers every
    operation and holds no record of the player: loading the spawn
    position reports that the player does not exist, without error;
    saving a spawn position writes the player record pointing to
    ["player_server_" + id] and the server data; loading then returns
    the position saved, each coordinate converted to int32.  (The codec
    is taken to read back the two values it wrote.) *)
Theorem SavePlayerSpawnPosition_new (id : string) (pos : Pos) (db : Provider)
    (b1 b2 : list byte)
    (Hf : faults (ldb db) = [])
    (Hnew : kv (ldb db) !! bytesOf ("player_" +:+ id) = None)
    (Hm1 : marshalPlayerData LittleEndian
             {| UUID := id; ServerID := "player_server_" +:+ id;
                SelfSignedID := EmptyString |} = inr b1)
    (Hu1 : unmarshalPlayerData LittleEndian b1
           = inr {| UUID := id; ServerID := "player_server_" +:+ id;
                    SelfSignedID := EmptyString |})
    (Hm2 : marshalMap LittleEndian (Some (withSpawn pos ∅)) = inr b2)
    (Hu2 : unmarshalMap LittleEndian b2 = inr (withSpawn pos ∅)) :
  LoadPlayerSpawnPosition id db
  = Return ({| sp_pos := (0, 0, 0); sp_exists := false; sp_err := None |}, db)
  ∧
  exists db1,
    SavePlayerSpawnPosition id pos db = Return (None, db1) ∧
    kv (ldb db1) !! bytesOf ("player_" +:+ id) = Some b1 ∧
    kv (ldb db1) !! bytesOf ("player_server_" +:+ id) = Some b2 ∧
    LoadPlayerSpawnPosition id db1
    = Return ({| sp_pos := (int32 pos.1.1, int32 pos.1.2, int32 pos.2);
                 sp_exists := true; sp_err := None |}, db1).
Proof.
  split.
  { unfold LoadPlayerSpawnPosition, LoadPlayerData.
    rewrite dbGet_quiet by done. rewrite Hnew. cbn.
    rewrite decide_True by (by left). done. }
  set (k := "player_server_" +:+ id) in *.
  set (kv2 := <[bytesOf k := b2]>
                (<[bytesOf ("player_" +:+ id) := b1]> (kv (ldb db)))).
  exists (withKv db kv2).
  assert (Hrec : kv2 !! bytesOf ("player_" +:+ id) = Some b1).
  { unfold kv2. rewrite lookup_insert_ne by apply player_server_key.
    by rewrite lookup_insert_eq. }
  assert (Hdata : kv2 !! bytesOf k = Some b2).
  { unfold kv2. by rewrite lookup_insert_eq. }
  split; [|split; [done|split; [done|]]].
  - unfold SavePlayerSpawnPosition. rewrite dbGet_quiet by done.
    rewrite Hnew. cbn [from_option errorsIs].
    rewrite bool_decide_eq_true_2 by done. cbn [orb].
    fold k. rewrite Hm1. rewrite dbPut_withKv by done.
    rewrite OutcomeFacts.bind_Return.
    fold (withSpawn pos ∅). rewrite Hm2.
    rewrite dbPut_withKv by done. by rewrite kv_withKv, withKv_withKv.
  - apply (LoadPlayerSpawnPosition_valid id _ k ∅ pos).
    apply (LoadPlayerData_valid id _ b1 b2
             {| UUID := id; ServerID := k; SelfSignedID := EmptyString |});
      try done.
Qed.

(** X22.  On a store that answers every
    operation and holds a valid record of the player (its UUID is the
    player's, its server ID is not empty and is not the key of the
    record itself) together with the server data: saving a spawn
    position rewrites the server data only, with the three spawn fields
    set and every other field kept, and loading returns the position
    saved.  (The codec is taken to read back the server data it
    wrote.) *)
Theorem SavePlayerSpawnPosition_update (id : string) (pos : Pos)
    (db : Provider) (b1 b2 b3 : list byte) (d : playerData)
    (m : gmap string Tag)
    (Hf : faults (ldb db) = [])
    (Hrec : kv (ldb db) !! bytesOf ("player_" +:+ id) = Some b1)
    (Hu1 : unmarshalPlayerData LittleEndian b1 = inr d)
    (Hid : UUID d = id)
    (Hk : ServerID d ≠ EmptyString)
    (Hne : bytesOf (ServerID d) ≠ bytesOf ("player_" +:+ id))
    (Hdata : kv (ldb db) !! bytesOf (ServerID d) = Some b2)
    (Hu2 : unmarshalMap LittleEndian b2 = inr m)
    (Hm3 : marshalMap LittleEndian (Some (withSpawn pos m)) = inr b3)
    (Hu3 : unmarshalMap LittleEndian b3 = inr (withSpawn pos m)) :
  exists db1,
    SavePlayerSpawnPosition id pos db = Return (None, db1) ∧
    kv (ldb db1) = <[bytesOf (ServerID d) := b3]> (kv (ldb db)) ∧
    LoadPlayerData id db1
    = ({| pd_serverData := Some (withSpawn pos m); pd_key := ServerID d;
          pd_exists := true; pd_err := None |}, db1) ∧
    LoadPlayerSpawnPosition id db1
    = Return ({| sp_pos := (int32 pos.1.1, int32 pos.1.2, int32 pos.2);
                 sp_exists := true; sp_err := None |}, db1).
Proof.
  set (kv1 := <[bytesOf (ServerID d) := b3]> (kv (ldb db))).
  exists (withKv db kv1).
  assert (Hload : LoadPlayerData id (withKv db kv1)
                  = ({| pd_serverData := Some (withSpawn pos m);
                        pd_key := ServerID d; pd_exists := true;
                        pd_err := None |}, withKv db kv1)).
  { apply (LoadPlayerData_valid id _ b1 b3 d); try done.
    - rewrite kv_withKv. unfold kv1. by rewrite lookup_insert_ne.
    - rewrite kv_withKv. unfold kv1. by rewrite lookup_insert_eq. }
  split; [|split; [done|split; [done|]]].
  - unfold SavePlayerSpawnPosition. rewrite dbGet_quiet by done.
    rewrite Hrec. cbn [from_option].
    rewrite (LoadPlayerData_valid id db b1 b2 d m) by done.
    cbn [pd_err pd_serverData pd_key]. rewrite OutcomeFacts.bind_Return.
    fold (withSpawn pos m). rewrite Hm3.
    by rewrite dbPut_withKv by done.
  - by apply (LoadPlayerSpawnPosition_valid id _ (ServerID d) m pos).
Qed.

(** X23.  When the first read of
    [SavePlayerSpawnPosition] fails with an error of the store other
    than "not found", and the read that [LoadPlayerData] repeats is
    answered and finds no record, the server data is the nil map and
    the assignment of the first spawn field panics. *)
Theorem SavePlayerSpawnPosition_nil_map (id : string) (pos : Pos)
    (db : Provider) (cause : string) (rest : list (option string))
    (Hf : faults (ldb db) = Some cause :: None :: rest)
    (Hnew : kv (ldb db) !! bytesOf ("player_" +:+ id) = None) :
  SavePlayerSpawnPosition id pos db = Panic "assignment to entry in nil map".
Proof.
  unfold SavePlayerSpawnPosition, LoadPlayerData, dbGet, Get, nextFault.
  rewrite Hf. cbn. by rewrite Hnew.
Qed.

End Players.

End PlayerFacts.

(** ** The registry with sorted and batch registration *)

Module SortedRegistryFacts.
Import SortedRegistry.

Lemma elemAt_in_range {A} (s : list A) (i : Z) :
  0 <= i < Z.of_nat (length s) -> exists a, elemAt s i = Return a.
Proof.
  intros Hi. unfold elemAt. rewrite decide_True by lia.
  destruct (lookup_lt_is_Some_2 s (Z.to_nat i)) as [a Ha]; [lia|].
  rewrite Ha. by exists a.
Qed.

Lemma elemAt_out_of_range {A} (s : list A) (i : Z) :
  ¬ 0 <= i < Z.of_nat (length s) -> elemAt s i = Panic "index out of range".
Proof.
  intros Hi. unfold elemAt. case_decide as H0; [|done].
  rewrite lookup_ge_None_2; [done|lia].
Qed.

(** X24.  [sort_blocks] never reports that one
    block comes before another: when the names differ the conjunction
    fails on its first half, and when they are equal the two hashes are
    hashes of the same bytes.  It returns false for every two indexes of
    the slice, whatever the hash function, and panics for an index
    outside the slice. *)
Theorem sort_blocks_never_orders (Sum64 : list byte -> Z)
    (bs : list blockState) (i j : Z) :
  sort_blocks Sum64 bs i j
  = if decide (0 <= i < Z.of_nat (length bs) ∧ 0 <= j < Z.of_nat (length bs))
    then Return false
    else Panic "index out of range".
Proof.
  unfold sort_blocks.
  destruct (decide (0 <= i < Z.of_nat (length bs))) as [Hi|Hi].
  - destruct (elemAt_in_range bs i Hi) as [one ->]. cbn.
    destruct (decide (0 <= j < Z.of_nat (length bs))) as [Hj|Hj].
    + destruct (elemAt_in_range bs j Hj) as [two ->]. cbn.
      rewrite decide_True by done. f_equal.
      destruct (decide (Name one = Name two)) as [->|Hne].
      * rewrite (bool_decide_eq_false_2 (_ < _)) by lia.
        apply andb_false_r.
      * by rewrite (bool_decide_eq_false_2 (_ = _)).
    + rewrite (elemAt_out_of_range bs j) by done. cbn.
      rewrite decide_False; [done|]. by intros [_ ?].
  - rewrite (elemAt_out_of_range bs i) by done. cbn.
    rewrite decide_False; [done|]. by intros [? _].
Qed.

(** The six slices hold one entry for each of [n] blocks. *)
Definition flagsLength (f : Flags) (n : nat) : Prop :=
  length (nbtBlocks f) = n ∧ length (randomTickBlocks f) = n ∧
  length (liquidBlocks f) = n ∧ length (liquidDisplacingBlocks f) = n ∧
  length (FilteringBlocks f) = n ∧ length (LightBlocks f) = n.

(** The slices with the entries of [k] more unknown blocks. *)
Definition extendFlags (f : Flags) (k : nat) : Flags :=
  {| nbtBlocks := nbtBlocks f ++ replicate k false;
     randomTickBlocks := randomTickBlocks f ++ replicate k false;
     liquidBlocks := liquidBlocks f ++ replicate k false;
     liquidDisplacingBlocks := liquidDisplacingBlocks f ++ replicate k false;
     FilteringBlocks := FilteringBlocks f ++ replicate k 15;
     LightBlocks := LightBlocks f ++ replicate k 0 |}.

(** A registry as registrations leave it: the hash of every block is
    filed under the index of the block and nothing else is filed, the
    slices have one entry for each block, and the air runtime ID is the
    index of the last block named ["minecraft:air"], if there is one. *)
Record consistent (reg : Registry) : Prop := {
  blocks_bound : Z.of_nat (length (blocks reg)) < 2 ^ 32;
  ids_of_blocks : forall i b, blocks reg !! i = Some b ->
    exists hp, hashProperties (Properties_ b) = Return hp ∧
               stateRuntimeIDs reg !! (Name b, hp) = Some (Z.of_nat i);
  blocks_of_ids : forall h rid, stateRuntimeIDs reg !! h = Some rid ->
    exists b hp, 0 <= rid ∧ blocks reg !! Z.to_nat rid = Some b ∧
                 hashProperties (Properties_ b) = Return hp ∧
                 h = (Name b, hp);
  flags_of_blocks : flagsLength (flags reg) (length (blocks reg));
  air_of_blocks : forall i b, blocks reg !! i = Some b ->
    Name b = "minecraft:air" ->
    (forall j b', (i < j)%nat -> blocks reg !! j = Some b' ->
                  Name b' ≠ "minecraft:air") ->
    airRID reg = Z.of_nat i
}.

(** The air runtime ID and the hash table after the loop over [bs],
    whose first block has the index [id]. *)
Fixpoint lastAir (bs : list blockState) (id air : Z) : Z :=
  match bs with
  | [] => air
  | b :: bs =>
      lastAir bs (id + 1)
        (if decide (Name b = "minecraft:air") then uint32 id else air)
  end.

Fixpoint lastHash (bs : list blockState) (id : Z) (hs : gmap Z Z)
    : gmap Z Z :=
  match bs with
  | [] => hs
  | b :: bs => lastHash bs (id + 1) (<[-1 := id]> hs)
  end.

Lemma uint32_id z : 0 <= z < 2 ^ 32 -> uint32 z = z.
Proof. intros Hz. unfold uint32. by apply Z.mod_small. Qed.

Lemma lastAir_spec bs : forall id air target,
  0 <= id -> id + Z.of_nat (length bs) <= 2 ^ 32 ->
  (forall k b, bs !! k = Some b -> Name b = "minecraft:air" ->
     (forall j b', (k < j)%nat -> bs !! j = Some b' ->
                   Name b' ≠ "minecraft:air") ->
     target = id + Z.of_nat k) ->
  ((forall k b, bs !! k = Some b -> Name b ≠ "minecraft:air") ->
   target = air) ->
  lastAir bs id air = target.
Proof.
  induction bs as [|b bs IH]; intros id air target Hid Hlen Hlast Hnone.
  { cbn. symmetry. apply Hnone. intros k b Hk. by rewrite lookup_nil in Hk. }
  cbn [lastAir]. cbn [length] in Hlen. apply IH; [lia|lia| |].
  - intros k b' Hk Hair Hlater.
    rewrite (Hlast (S k) b' Hk Hair).
    + lia.
    + intros [|j] b'' Hj Hb''; [lia|]. apply (Hlater j); [lia|done].
  - intros Hno. case_decide as Hair.
    + rewrite uint32_id by lia.
      rewrite (Hlast O b eq_refl Hair); [lia|].
      intros [|j] b' Hj Hb'; [lia|]. by apply (Hno j).
    + apply Hnone. intros [|k] b' Hk; [by injection Hk as <-|].
      by apply (Hno k).
Qed.

Lemma lastHash_insert bs : forall id hs v,
  <[-1 := v]> (lastHash bs id hs) = <[-1 := v]> hs.
Proof.
  induction bs as [|b bs IH]; intros id hs v; [done|].
  cbn [lastHash]. rewrite IH. apply insert_insert_eq.
Qed.

Lemma lastHash_last bs b id hs :
  lastHash (bs ++ [b]) id hs = <[-1 := id + Z.of_nat (length bs)]> hs.
Proof.
  revert id hs. induction bs as [|b' bs IH]; intros id hs.
  - cbn. by rewrite Z.add_0_r.
  - cbn [app lastHash length]. rewrite IH, insert_insert_eq. f_equal. lia.
Qed.

Lemma Hash_int64 b : int64 (Hash b) = -1.
Proof. reflexivity. Qed.

(** The loop of [registerBlockState] over blocks that are registered
    under their indexes changes the air runtime ID and the hash table
    only. *)
Lemma reindex_registered h bs rest : forall id rid air ids hs,
  0 <= id -> id + Z.of_nat (length bs) <= 2 ^ 32 ->
  (forall k b, bs !! k = Some b ->
     exists hp, hashProperties (Properties_ b) = Return hp ∧
                ids !! (Name b, hp) = Some (id + Z.of_nat k)) ->
  ids !! h = None ->
  reindex h (bs ++ rest) id rid air ids hs
  = reindex h rest (id + Z.of_nat (length bs)) rid (lastAir bs id air) ids
      (lastHash bs id hs).
Proof.
  induction bs as [|b bs IH]; intros id rid air ids hs Hid Hlen Hreg Hh.
  { cbn. by rewrite Z.add_0_r. }
  cbn [length] in Hlen.
  destruct (Hreg O b eq_refl) as (hp & Hhp & Hi).
  rewrite Z.add_0_r in Hi.
  cbn [app reindex lastAir lastHash]. rewrite Hhp. cbn.
  rewrite decide_False by (intros <-; congruence).
  rewrite uint32_id by lia. rewrite insert_id by done.
  rewrite Hash_int64.
  rewrite IH; [|lia|lia| |done].
  - cbn [length]. by replace (id + 1 + Z.of_nat (length bs))
      with (id + Z.of_nat (S (length bs))) by lia.
  - intros k b' Hk. destruct (Hreg (S k) b' Hk) as (hp' & ? & Hi').
    exists hp'. split; [done|]. rewrite Hi'. f_equal. lia.
Qed.

Lemma slicesInsert_end {A} (s : list A) (n : nat) (v : A) :
  length s = n -> slicesInsert s (Z.of_nat n) v = Return (s ++ [v]).
Proof.
  intros <-. unfold slicesInsert. rewrite decide_True by lia.
  by rewrite Nat2Z.id, firstn_all, drop_all.
Qed.

Lemma insertFlags_end (f : Flags) (n : nat) :
  flagsLength f n -> insertFlags (Z.of_nat n) f = Return (extendFlags f 1).
Proof.
  intros (H1 & H2 & H3 & H4 & H5 & H6). unfold insertFlags.
  rewrite (slicesInsert_end (nbtBlocks f)) by done. cbn.
  rewrite (slicesInsert_end (randomTickBlocks f)) by done. cbn.
  rewrite (slicesInsert_end (liquidBlocks f)) by done. cbn.
  rewrite (slicesInsert_end (liquidDisplacingBlocks f)) by done. cbn.
  rewrite (slicesInsert_end (FilteringBlocks f)) by done. cbn.
  rewrite (slicesInsert_end (LightBlocks f)) by done. done.
Qed.

Lemma flagsLength_extend (f : Flags) (n k : nat) :
  flagsLength f n -> flagsLength (extendFlags f k) (n + k).
Proof.
  intros (H1 & H2 & H3 & H4 & H5 & H6). unfold flagsLength, extendFlags. cbn.
  rewrite !length_app, !length_replicate. lia.
Qed.

(** The registry with another table of hashes. *)
Definition withHashes (reg : Registry) (hs : gmap Z Z) : Registry :=
  {| blocks := blocks reg; stateRuntimeIDs := stateRuntimeIDs reg;
     flags := flags reg; WaterBlocks := WaterBlocks reg;
     airRID := airRID reg; hashes := hs |}.

Lemma consistent_withHashes reg hs :
  consistent reg -> consistent (withHashes reg hs).
Proof. intros [? ? ? ? ?]. by split. Qed.

(** The state that [registerBlockState] leaves when [order] is not
    set. *)
Definition registered (s : blockState) (hp : string) (reg : Registry)
    : Registry :=
  let rid := Z.of_nat (length (blocks reg)) in
  {| blocks := blocks reg ++ [s];
     stateRuntimeIDs := <[(Name s, hp) := rid]> (stateRuntimeIDs reg);
     flags := extendFlags (flags reg) 1;
     WaterBlocks := if decide (Name s = "minecraft:water")
                    then WaterBlocks reg ++ [rid] else WaterBlocks reg;
     airRID := if decide (Name s = "minecraft:air") then rid
               else airRID reg;
     hashes := hashes reg |}.

Lemma consistent_registered s hp reg :
  consistent reg -> Z.of_nat (length (blocks reg)) + 1 < 2 ^ 32 ->
  hashProperties (Properties_ s) = Return hp ->
  stateRuntimeIDs reg !! (Name s, hp) = None ->
  consistent (registered s hp reg).
Proof.
  intros [Hbound Hids Hblocks Hflags Hair] Hroom Hhp Hfresh.
  split; cbn.
  - rewrite length_app. cbn. lia.
  - intros i b Hi. apply lookup_app_Some in Hi as [Hi|[Hlen Hi]].
    + destruct (Hids i b Hi) as (hp' & Hhp' & Hid).
      exists hp'. split; [done|].
      rewrite lookup_insert_ne; [done|]. intros Heq. congruence.
    + apply list_lookup_singleton_Some in Hi as [Hi <-].
      exists hp. split; [done|]. rewrite lookup_insert_eq. f_equal. lia.
  - intros h rid Hh.
    destruct (decide (h = (Name s, hp))) as [->|Hne].
    + rewrite lookup_insert_eq in Hh. injection Hh as <-.
      exists s, hp. split; [lia|]. split; [|done].
      rewrite Nat2Z.id. by rewrite lookup_app_r, Nat.sub_diag.
    + rewrite lookup_insert_ne in Hh by done.
      destruct (Hblocks h rid Hh) as (b & hp' & ? & Hb & ? & ?).
      exists b, hp'. split; [done|]. split; [|done].
      by rewrite lookup_app_l by (by eapply lookup_lt_Some).
  - replace (length (blocks reg ++ [s])) with (length (blocks reg) + 1)%nat
      by (rewrite length_app; cbn; lia).
    by apply flagsLength_extend.
  - intros i b Hi Hname Hlater.
    apply lookup_app_Some in Hi as [Hi|[Hlen Hi]].
    + rewrite decide_False.
      * apply (Hair i b Hi Hname). intros j b' Hj Hb'.
        apply (Hlater j); [done|]. by rewrite lookup_app_l
          by (by eapply lookup_lt_Some).
      * apply (Hlater (length (blocks reg))).
        -- by eapply lookup_lt_Some.
        -- by rewrite lookup_app_r, Nat.sub_diag.
    + apply list_lookup_singleton_Some in Hi as [Hi <-].
      rewrite decide_True by done. lia.
Qed.

(** The hashes of the states, in order; a panic of [hashProperties] is
    the panic of the first state that cannot be hashed. *)
Fixpoint hashAll (ss : list blockState) : outcome (list stateHash) :=
  match ss with
  | [] => Return []
  | s :: ss =>
      hp ← hashProperties (Properties_ s);
      hs ← hashAll ss;
      Return ((Name s, hp) :: hs)
  end.

(** Whether the hashes can be filed one after the other: none is filed
    yet when its turn comes. *)
Fixpoint admits (ids : gmap stateHash Z) (id : Z) (hs : list stateHash)
    : bool :=
  match hs with
  | [] => true
  | h :: hs =>
      match ids !! h with
      | Some _ => false
      | None => admits (<[h := id]> ids) (id + 1) hs
      end
  end.

(** The runtime IDs after the hashes are filed under [id], [id + 1],
    and so on. *)
Fixpoint idsAfter (hs : list stateHash) (id : Z) (ids : gmap stateHash Z)
    : gmap stateHash Z :=
  match hs with
  | [] => ids
  | h :: hs => idsAfter hs (id + 1) (<[h := id]> ids)
  end.

Definition markAll (hs : list stateHash) (m : gmap stateHash Z)
    : gmap stateHash Z :=
  foldl (fun m h => <[h := 0]> m) m hs.

Lemma markAll_lookup hs : forall m h,
  is_Some (markAll hs m !! h) <-> h ∈ hs ∨ is_Some (m !! h).
Proof.
  induction hs as [|h0 hs IH]; intros m h; cbn.
  - rewrite elem_of_nil. tauto.
  - unfold markAll in IH. rewrite IH, elem_of_cons.
    destruct (decide (h = h0)) as [->|Hne].
    + rewrite lookup_insert_eq.
      split; [intros _; by do 2 left|intros _; right; by eexists].
    + rewrite lookup_insert_ne by done. tauto.
Qed.

Lemma length_hashAll ss : forall hs,
  hashAll ss = Return hs -> length hs = length ss.
Proof.
  induction ss as [|s ss IH]; intros hs Hhs; cbn in Hhs.
  - by injection Hhs as <-.
  - destruct (hashProperties (Properties_ s)); [|done]. cbn in Hhs.
    destruct (hashAll ss) as [hs'|]; [|done]. cbn in Hhs.
    injection Hhs as <-. cbn. by rewrite (IH hs').
Qed.

Lemma admits_fresh hs : forall ids id h,
  admits ids id hs = true -> h ∈ hs -> ids !! h = None.
Proof.
  induction hs as [|h0 hs IH]; intros ids id h Hadm Hin.
  { by apply elem_of_nil in Hin. }
  cbn in Hadm. destruct (ids !! h0) eqn:Hh0; [done|].
  apply elem_of_cons in Hin as [->|Hin]; [done|].
  specialize (IH _ _ h Hadm Hin).
  destruct (decide (h = h0)) as [->|Hne]; [done|].
  by rewrite lookup_insert_ne in IH.
Qed.

(** The first loop of [registerBlockStates]. *)
Lemma appendStates_spec ss : forall bs m,
  appendStates ss bs m
  = (hs ← hashAll ss; Return (bs ++ ss, markAll hs m)).
Proof.
  induction ss as [|s ss IH]; intros bs m; cbn.
  - by rewrite app_nil_r.
  - destruct (hashProperties (Properties_ s)) as [hp|]; [|done]. cbn.
    rewrite IH. destruct (hashAll ss) as [hs|]; [|done]. cbn.
    by rewrite <- app_assoc.
Qed.

(** The registry in the course of the second loop. *)
Definition looped (reg : Registry) (ids : gmap stateHash Z) (f : Flags)
    (air : Z) (hs : gmap Z Z) : Registry :=
  {| blocks := blocks reg; stateRuntimeIDs := ids; flags := f;
     WaterBlocks := WaterBlocks reg; airRID := air; hashes := hs |}.

(** The second loop passes over the blocks that are registered under
    their indexes and are not among the new states. *)
Lemma assignIDs_old bs rest : forall id map_rids reg,
  0 <= id -> id + Z.of_nat (length bs) <= 2 ^ 32 ->
  (forall k b, bs !! k = Some b ->
     exists hp, hashProperties (Properties_ b) = Return hp ∧
                stateRuntimeIDs reg !! (Name b, hp)
                = Some (id + Z.of_nat k) ∧
                map_rids !! (Name b, hp) = None) ->
  assignIDs (bs ++ rest) id map_rids reg
  = assignIDs rest (id + Z.of_nat (length bs)) map_rids
      (looped reg (stateRuntimeIDs reg) (flags reg)
         (lastAir bs id (airRID reg)) (lastHash bs id (hashes reg))).
Proof.
  induction bs as [|b bs IH]; intros id map_rids reg Hid Hlen Hreg.
  { cbn. rewrite Z.add_0_r. by destruct reg. }
  cbn [length] in Hlen.
  destruct (Hreg O b eq_refl) as (hp & Hhp & Hi & Hnew).
  rewrite Z.add_0_r in Hi.
  cbn [app assignIDs lastAir lastHash]. rewrite Hhp. cbn.
  rewrite Hnew. cbn. rewrite uint32_id by lia. rewrite insert_id by done.
  rewrite Hash_int64. rewrite IH; [|lia|cbn [length]; lia|].
  - cbn [length]. unfold looped. cbn.
    by replace (id + 1 + Z.of_nat (length bs))
      with (id + Z.of_nat (S (length bs))) by lia.
  - intros k b' Hk. destruct (Hreg (S k) b' Hk) as (hp' & ? & Hi' & ?).
    exists hp'. split; [done|]. split; [|done]. cbn. rewrite Hi'. f_equal. lia.
Qed.

(** The second loop panics at a registered block that is among the new
    states. *)
Lemma assignIDs_old_panics bs rest : forall id map_rids reg,
  0 <= id -> id + Z.of_nat (length bs) <= 2 ^ 32 ->
  (forall k b, bs !! k = Some b ->
     exists hp, hashProperties (Properties_ b) = Return hp ∧
                stateRuntimeIDs reg !! (Name b, hp)
                = Some (id + Z.of_nat k)) ->
  (exists k b hp, bs !! k = Some b ∧
                  hashProperties (Properties_ b) = Return hp ∧
                  is_Some (map_rids !! (Name b, hp))) ->
  exists msg, assignIDs (bs ++ rest) id map_rids reg = Panic msg.
Proof.
  induction bs as [|b bs IH]; intros id map_rids reg Hid Hlen Hreg Hex.
  { destruct Hex as (k & b & hp & Hk & _). by rewrite lookup_nil in Hk. }
  cbn [length] in Hlen.
  destruct (Hreg O b eq_refl) as (hp & Hhp & Hi).
  rewrite Z.add_0_r in Hi.
  cbn [app assignIDs]. rewrite Hhp. cbn.
  destruct (map_rids !! (Name b, hp)) as [z|] eqn:Hnew.
  { rewrite Hi. cbn. eauto. }
  cbn. rewrite uint32_id by lia. rewrite insert_id by done.
  apply IH; [lia|lia| |].
  - intros k b' Hk. destruct (Hreg (S k) b' Hk) as (hp' & ? & Hi').
    exists hp'. split; [done|]. cbn. rewrite Hi'. f_equal. lia.
  - destruct Hex as ([|k] & b' & hp' & Hk & Hhp' & Hin).
    + injection Hk as <-. rewrite Hhp in Hhp'. injection Hhp' as <-.
      rewrite Hnew in Hin. by destruct Hin.
    + by exists k, b', hp'.
Qed.

(** The second loop over the new states. *)
Lemma assignIDs_new ss : forall hs id map_rids reg,
  hashAll ss = Return hs ->
  0 <= id -> id + Z.of_nat (length ss) <= 2 ^ 32 ->
  flagsLength (flags reg) (Z.to_nat id) ->
  (forall h, h ∈ hs -> is_Some (map_rids !! h)) ->
  assignIDs ss id map_rids reg
  = if admits (stateRuntimeIDs reg) id hs then
      Return (looped reg (idsAfter hs id (stateRuntimeIDs reg))
                (extendFlags (flags reg) (length ss))
                (lastAir ss id (airRID reg)) (lastHash ss id (hashes reg)))
    else Panic "cannot register the same state twice".
Proof.
  induction ss as [|s ss IH]; intros hs id map_rids reg Hhs Hid Hlen Hfl Hin.
  { cbn in Hhs. injection Hhs as <-. cbn. unfold looped, extendFlags. cbn.
    rewrite !app_nil_r. by destruct reg as [? ? [] ? ? ?]. }
  cbn [length] in Hlen. cbn in Hhs.
  destruct (hashProperties (Properties_ s)) as [hp|] eqn:Hhp; [|done].
  cbn in Hhs. destruct (hashAll ss) as [hs'|] eqn:Hhs'; [|done].
  cbn in Hhs. injection Hhs as <-.
  cbn [assignIDs admits idsAfter lastAir lastHash]. rewrite Hhp. cbn.
  destruct (Hin (Name s, hp)) as [z ->]; [by left|].
  destruct (stateRuntimeIDs reg !! (Name s, hp)) eqn:Hfresh; [done|].
  rewrite uint32_id by lia.
  replace id with (Z.of_nat (Z.to_nat id)) at 1 by lia.
  rewrite insertFlags_end by done. cbn.
  rewrite Hash_int64.
  rewrite (IH hs'); [|done|lia|lia| |].
  - cbn. destruct (admits _ _ _); [|done]. unfold looped, extendFlags. cbn.
    rewrite <- !app_assoc. done.
  - cbn. replace (Z.to_nat (id + 1)) with (Z.to_nat id + 1)%nat by lia.
    by apply flagsLength_extend.
  - intros h Hh. destruct (decide (h = (Name s, hp))) as [->|Hne].
    + by rewrite lookup_insert_eq.
    + rewrite lookup_insert_ne by done. apply Hin. by right.
Qed.

Lemma lastAir_app bs1 bs2 : forall id air,
  lastAir (bs1 ++ bs2) id air
  = lastAir bs2 (id + Z.of_nat (length bs1)) (lastAir bs1 id air).
Proof.
  induction bs1 as [|b bs1 IH]; intros id air; cbn [app lastAir length].
  - by rewrite Z.add_0_r.
  - rewrite IH. f_equal. lia.
Qed.

Lemma lastHash_app bs1 bs2 : forall id hs,
  lastHash (bs1 ++ bs2) id hs
  = lastHash bs2 (id + Z.of_nat (length bs1)) (lastHash bs1 id hs).
Proof.
  induction bs1 as [|b bs1 IH]; intros id hs; cbn [app lastHash length].
  - by rewrite Z.add_0_r.
  - rewrite IH. f_equal. lia.
Qed.

(** The registry after the states, whose hashes are [hs], are
    registered one at a time. *)
Fixpoint registeredAll (ss : list blockState) (hs : list stateHash)
    (reg : Registry) : Registry :=
  match ss, hs with
  | s :: ss, h :: hs => registeredAll ss hs (registered s h.2 reg)
  | _, _ => reg
  end.

Lemma registeredAll_fields ss : forall hs reg,
  hashAll ss = Return hs ->
  Z.of_nat (length (blocks reg)) + Z.of_nat (length ss) <= 2 ^ 32 ->
  let r := registeredAll ss hs reg in
  let n := Z.of_nat (length (blocks reg)) in
  blocks r = blocks reg ++ ss ∧
  stateRuntimeIDs r = idsAfter hs n (stateRuntimeIDs reg) ∧
  flags r = extendFlags (flags reg) (length ss) ∧
  airRID r = lastAir ss n (airRID reg) ∧
  hashes r = hashes reg.
Proof.
  induction ss as [|s ss IH]; intros hs reg Hhs Hroom; cbn in Hhs.
  { injection Hhs as <-. cbn. rewrite app_nil_r. unfold extendFlags. cbn.
    rewrite !app_nil_r. by destruct (flags reg). }
  destruct (hashProperties (Properties_ s)) as [hp|]; [|done]. cbn in Hhs.
  destruct (hashAll ss) as [hs'|] eqn:Hhs'; [|done]. cbn in Hhs.
  injection Hhs as <-. cbn [length] in Hroom.
  cbn [registeredAll snd idsAfter lastAir].
  destruct (IH hs' (registered s hp reg) eq_refl) as (Hb & Hi & Hf & Ha & Hh).
  { cbn. rewrite length_app. cbn. lia. }
  cbn in Hb, Hi, Hf, Ha, Hh. rewrite length_app in Hi, Ha. cbn in Hi, Ha.
  replace (Z.of_nat (length (blocks reg) + 1))
    with (Z.of_nat (length (blocks reg)) + 1) in Hi, Ha by lia.
  rewrite uint32_id by lia.
  split; [by rewrite Hb, <- app_assoc|]. split; [done|].
  split; [|done]. rewrite Hf. unfold extendFlags. cbn.
  by rewrite <- !app_assoc.
Qed.

(** The registry before any registration. *)
Definition noBlocks : Registry :=
  {| blocks := []; stateRuntimeIDs := ∅;
     flags := {| nbtBlocks := []; randomTickBlocks := []; liquidBlocks := [];
                 liquidDisplacingBlocks := []; FilteringBlocks := [];
                 LightBlocks := [] |};
     WaterBlocks := []; airRID := 0; hashes := ∅ |}.

Lemma consistent_noBlocks : consistent noBlocks.
Proof.
  split; cbn; done.
Qed.

Section Law.

Variable Sum64 : list byte -> Z.
Variable SliceStable :
  (list blockState -> Z -> Z -> outcome bool) -> list blockState ->
  outcome (list blockState).

(** The sort is stable: when the comparator orders no two elements, the
    slice is left as it is. *)
Hypothesis SliceStable_equal : forall less bs,
  (forall bs' i j, 0 <= i < Z.of_nat (length bs') ->
                   0 <= j < Z.of_nat (length bs') ->
                   less bs' i j = Return false) ->
  SliceStable less bs = Return bs.

Lemma sorted_unchanged bs : SliceStable (sort_blocks Sum64) bs = Return bs.
Proof.
  apply SliceStable_equal. intros bs' i j Hi Hj. unfold sort_blocks.
  destruct (elemAt_in_range bs' i Hi) as [one ->].
  destruct (elemAt_in_range bs' j Hj) as [two ->]. cbn. f_equal.
  destruct (decide (Name one = Name two)) as [->|Hne].
  - rewrite (bool_decide_eq_false_2 (_ < _)) by lia. apply andb_false_r.
  - by rewrite (bool_decide_eq_false_2 (_ = _)).
Qed.

(** [registerBlockState] without ordering, on a consistent registry. *)
Lemma registerBlockState_unordered s reg :
  consistent reg ->
  registerBlockState Sum64 SliceStable s false reg
  = (hp ← hashProperties (Properties_ s);
     match stateRuntimeIDs reg !! (Name s, hp) with
     | Some _ => Panic "cannot register the same state twice"
     | None => Return (registered s hp reg)
     end).
Proof.
  intros [Hbound _ _ Hflags _]. unfold registerBlockState.
  destruct (hashProperties (Properties_ s)) as [hp|]; [|done]. cbn.
  destruct (stateRuntimeIDs reg !! (Name s, hp)); [done|]. cbn.
  rewrite uint32_id by lia. by rewrite insertFlags_end.
Qed.

(** [registerBlockState] with ordering, on a consistent registry. *)
Lemma registerBlockState_ordered (s : blockState) (reg : Registry) :
  consistent reg ->
  registerBlockState Sum64 SliceStable s true reg
  = (r ← registerBlockState Sum64 SliceStable s false reg;
     Return (withHashes r (<[-1 := Z.of_nat (length (blocks reg))]>
                             (hashes reg)))).
Proof.
  intros Hreg.
  rewrite registerBlockState_unordered by done.
  destruct Hreg as [Hbound Hids Hblocks Hflags Hair].
  unfold registerBlockState.
  destruct (hashProperties (Properties_ s)) as [hp|] eqn:Hhp; [|done]. cbn.
  destruct (stateRuntimeIDs reg !! (Name s, hp)) eqn:Hfresh; [done|]. cbn.
  rewrite sorted_unchanged. cbn.
  rewrite (reindex_registered _ (blocks reg) [s]); [|lia|lia| |done].
  2:{ intros k b Hk. destruct (Hids k b Hk) as (hp' & ? & ?).
      exists hp'. split; [done|]. by rewrite Z.add_0_l. }
  cbn [reindex]. rewrite Hhp. cbn. rewrite decide_True by done.
  rewrite !uint32_id by lia. rewrite !Z.add_0_l.
  rewrite insertFlags_end by done. cbn.
  unfold withHashes, registered. cbn. f_equal. f_equal.
  - by rewrite insert_insert_eq.
  - case_decide as Hname; [done|].
    apply lastAir_spec; [lia|lia| |].
    + intros k b Hk Hb Hlater. rewrite (Hair k b Hk Hb Hlater). lia.
    + done.
  - rewrite Hash_int64. apply lastHash_insert.
Qed.

(** X25.  On a consistent registry, and with a
    stable sort, the [order] flag of [registerBlockState] changes
    nothing but the table of hashes: the call panics or returns as
    without the flag, with the same blocks, runtime IDs, slices, water
    blocks and air runtime ID, and the table of hashes maps the hash of
    the unknown blocks to the index of the block registered. *)
Theorem registerBlockState_order (s : blockState) (reg : Registry)
    (Hreg : consistent reg) :
  registerBlockState Sum64 SliceStable s true reg
  = (r ← registerBlockState Sum64 SliceStable s false reg;
     Return (withHashes r (<[-1 := Z.of_nat (length (blocks reg))]>
                             (hashes reg)))).
Proof. by apply registerBlockState_ordered. Qed.

Lemma registerEach_spec ss : forall hs reg,
  consistent reg ->
  Z.of_nat (length (blocks reg)) + Z.of_nat (length ss) < 2 ^ 32 ->
  hashAll ss = Return hs ->
  registerEach Sum64 SliceStable ss reg
  = if admits (stateRuntimeIDs reg) (Z.of_nat (length (blocks reg))) hs
    then Return (registeredAll ss hs reg)
    else Panic "cannot register the same state twice".
Proof.
  induction ss as [|s ss IH]; intros hs reg Hreg Hroom Hhs; cbn in Hhs.
  { by injection Hhs as <-. }
  destruct (hashProperties (Properties_ s)) as [hp|] eqn:Hhp; [|done].
  cbn in Hhs. destruct (hashAll ss) as [hs'|] eqn:Hhs'; [|done].
  cbn in Hhs. injection Hhs as <-. cbn [length] in Hroom.
  cbn [registerEach admits registeredAll snd].
  rewrite registerBlockState_unordered by done. rewrite Hhp. cbn.
  destruct (stateRuntimeIDs reg !! (Name s, hp)) eqn:Hfresh; [done|]. cbn.
  rewrite (IH hs'); [|apply consistent_registered; [done|lia|done..]| |done].
  - cbn. rewrite length_app. cbn.
    by replace (Z.of_nat (length (blocks reg) + 1))
      with (Z.of_nat (length (blocks reg)) + 1) by lia.
  - cbn. rewrite length_app. cbn. lia.
Qed.

Lemma registerEach_unhashable ss : forall reg msg,
  consistent reg ->
  Z.of_nat (length (blocks reg)) + Z.of_nat (length ss) < 2 ^ 32 ->
  hashAll ss = Panic msg ->
  exists msg', registerEach Sum64 SliceStable ss reg = Panic msg'.
Proof.
  induction ss as [|s ss IH]; intros reg msg Hreg Hroom Hhs; [done|].
  cbn in Hhs. cbn [length] in Hroom. cbn [registerEach].
  rewrite registerBlockState_unordered by done.
  destruct (hashProperties (Properties_ s)) as [hp|] eqn:Hhp; cbn; [|eauto].
  destruct (stateRuntimeIDs reg !! (Name s, hp)) eqn:Hfresh; cbn; [eauto|].
  cbn in Hhs. destruct (hashAll ss) as [hs'|msg'] eqn:Hhs'; [done|].
  apply (IH _ msg'); [apply consistent_registered; [done|lia|done..]| |done].
  cbn. rewrite length_app. cbn. lia.
Qed.

Lemma registerEach_consistent ss : forall reg r,
  consistent reg ->
  Z.of_nat (length (blocks reg)) + Z.of_nat (length ss) < 2 ^ 32 ->
  registerEach Sum64 SliceStable ss reg = Return r -> consistent r.
Proof.
  induction ss as [|s ss IH]; intros reg r Hreg Hroom Hr.
  { cbn in Hr. by injection Hr as <-. }
  cbn [registerEach] in Hr. cbn [length] in Hroom.
  rewrite registerBlockState_unordered in Hr by done.
  destruct (hashProperties (Properties_ s)) as [hp|] eqn:Hhp; [|done].
  cbn in Hr.
  destruct (stateRuntimeIDs reg !! (Name s, hp)) eqn:Hfresh; [done|].
  cbn in Hr. apply (IH (registered s hp reg));
    [apply consistent_registered; [done|lia|done..]| |done].
  cbn. rewrite length_app. cbn. lia.
Qed.

(** The number of the last block in the table of hashes, when there is
    a block. *)
Definition hashedUpTo (n : nat) (hs : gmap Z Z) : gmap Z Z :=
  match n with
  | O => hs
  | S k => <[-1 := Z.of_nat k]> hs
  end.

Lemma lastHash_hashedUpTo bs hs : lastHash bs 0 hs = hashedUpTo (length bs) hs.
Proof.
  destruct bs as [|b bs] using rev_ind; [done|].
  rewrite lastHash_last, length_app. cbn.
  replace (length bs + 1)%nat with (S (length bs)) by lia. cbn.
  by rewrite Z.add_0_l.
Qed.

(** What a batch leaves of the registry [r] that the registrations one
    at a time give: the water blocks are those of the registry before,
    and the table of hashes has the entry of the last block. *)
Definition batched (r reg : Registry) : Registry :=
  {| blocks := blocks r; stateRuntimeIDs := stateRuntimeIDs r;
     flags := flags r; WaterBlocks := WaterBlocks reg; airRID := airRID r;
     hashes := hashedUpTo (length (blocks r)) (hashes reg) |}.

Lemma consistent_batched r reg : consistent r -> consistent (batched r reg).
Proof. intros [? ? ? ? ?]. by split. Qed.

(** [registerBlockStates] on a consistent registry. *)
Lemma registerBlockStates_spec ss reg :
  consistent reg ->
  Z.of_nat (length (blocks reg)) + Z.of_nat (length ss) < 2 ^ 32 ->
  match hashAll ss with
  | Panic msg => registerBlockStates Sum64 SliceStable ss reg = Panic msg
  | Return hs =>
      if admits (stateRuntimeIDs reg) (Z.of_nat (length (blocks reg))) hs
      then registerBlockStates Sum64 SliceStable ss reg
           = Return (batched (registeredAll ss hs reg) reg)
      else exists msg,
          registerBlockStates Sum64 SliceStable ss reg = Panic msg
  end.
Proof.
  intros Hreg Hroom. unfold registerBlockStates.
  rewrite appendStates_spec.
  destruct (hashAll ss) as [hs|msg] eqn:Hhs; [|done]. cbn.
  rewrite sorted_unchanged. cbn.
  pose proof Hreg as [Hbound Hids Hblocks Hflags Hair].
  assert (Hmark : forall h, is_Some (markAll hs ∅ !! h) <-> h ∈ hs).
  { intros h. rewrite markAll_lookup, lookup_empty.
    split; [intros [?|[? ?]]; done|by left]. }
  destruct (admits _ _ hs) eqn:Hadm.
  - rewrite (assignIDs_old (blocks reg) ss); [|lia|lia|].
    2:{ intros k b Hk. destruct (Hids k b Hk) as (hp & Hhp & Hid).
        exists hp. split; [done|]. split; [by rewrite Z.add_0_l|].
        apply eq_None_not_Some. rewrite Hmark. intros Hin.
        rewrite (admits_fresh _ _ _ _ Hadm Hin) in Hid. done. }
    rewrite Z.add_0_l.
    rewrite (assignIDs_new ss hs); [|done|lia|lia| |].
    + cbn. rewrite Hadm.
      destruct (registeredAll_fields ss hs reg Hhs) as (Hb & Hi & Hf & Ha & Hh);
        [lia|].
      cbn in Hb, Hi, Hf, Ha, Hh. unfold batched, looped. cbn.
      rewrite Hb, Hi, Hf, Ha. f_equal. f_equal.
      * f_equal. apply lastAir_spec; [lia|lia| |done].
        intros k b Hk Hb' Hlater. rewrite (Hair k b Hk Hb' Hlater). lia.
      * rewrite <- lastHash_hashedUpTo, lastHash_app. by rewrite Z.add_0_l.
    + cbn. by rewrite Nat2Z.id.
    + intros h Hin. by apply Hmark.
  - destruct (decide (Forall (fun h => stateRuntimeIDs reg !! h = None) hs))
      as [Hfresh|Hstale].
    + rewrite (assignIDs_old (blocks reg) ss); [|lia|lia|].
      2:{ intros k b Hk. destruct (Hids k b Hk) as (hp & Hhp & Hid).
          exists hp. split; [done|]. split; [by rewrite Z.add_0_l|].
          apply eq_None_not_Some. rewrite Hmark. intros Hin.
          rewrite Forall_forall in Hfresh. rewrite (Hfresh _ Hin) in Hid.
          done. }
      rewrite Z.add_0_l.
      rewrite (assignIDs_new ss hs); [|done|lia|lia| |].
      * cbn. rewrite Hadm. eauto.
      * cbn. by rewrite Nat2Z.id.
      * intros h Hin. by apply Hmark.
    + apply not_Forall_Exists in Hstale; [|apply _].
      apply Exists_exists in Hstale as (h & Hin & Hh).
      destruct (stateRuntimeIDs reg !! h) as [rid|] eqn:Hrid; [|done].
      destruct (Hblocks h rid Hrid) as (b & hp & Hpos & Hb & Hhp & ->).
      apply (assignIDs_old_panics (blocks reg) ss); [lia|lia| |].
      * intros k b' Hk. destruct (Hids k b' Hk) as (hp' & ? & ?).
        exists hp'. split; [done|]. by rewrite Z.add_0_l.
      * exists (Z.to_nat rid), b, hp. split; [done|]. split; [done|].
        by apply Hmark.
Qed.

(** X26.  On a consistent registry with
    room for the states, and with a stable sort, the batch
    [registerBlockStates] does what registering the states one at a
    time does, except that it never adds to the water blocks and that
    it enters the last block in the table of hashes: it returns with
    the same blocks, runtime IDs, slices and air runtime ID when the
    registrations one at a time return, and it panics when they
    panic. *)
Theorem registerBlockStates_sequential (ss : list blockState)
    (reg : Registry) (Hreg : consistent reg)
    (Hroom : Z.of_nat (length (blocks reg)) + Z.of_nat (length ss) < 2 ^ 32) :
  (forall r, registerEach Sum64 SliceStable ss reg = Return r ->
     registerBlockStates Sum64 SliceStable ss reg = Return (batched r reg)) ∧
  (forall msg, registerEach Sum64 SliceStable ss reg = Panic msg ->
     exists msg', registerBlockStates Sum64 SliceStable ss reg = Panic msg').
Proof.
  pose proof (registerBlockStates_spec ss reg Hreg Hroom) as Hbatch.
  destruct (hashAll ss) as [hs|msg0] eqn:Hhs.
  - rewrite (registerEach_spec ss hs) by done.
    destruct (admits _ _ hs); split; try done.
    by intros r [= <-].
  - destruct (registerEach_unhashable ss reg msg0 Hreg Hroom Hhs) as [m Hm].
    rewrite Hm. split; [done|]. eauto.
Qed.

Lemma assignIDs_blocks bs : forall id map_rids reg r,
  assignIDs bs id map_rids reg = Return r -> blocks r = blocks reg.
Proof.
  induction bs as [|b bs IH]; intros id map_rids reg r Hr.
  { cbn in Hr. by injection Hr as <-. }
  cbn [assignIDs] in Hr.
  destruct (hashProperties (Properties_ b)) as [hp|]; [|done]. cbn in Hr.
  destruct (map_rids !! (Name b, hp)).
  - destruct (stateRuntimeIDs reg !! (Name b, hp)); [done|].
    destruct (insertFlags _ _); [|done]. cbn in Hr.
    by rewrite (IH _ _ _ _ Hr).
  - cbn in Hr. by rewrite (IH _ _ _ _ Hr).
Qed.

Lemma registerBlockState_blocks s order reg reg' :
  registerBlockState Sum64 SliceStable s order reg = Return reg' ->
  blocks reg' = blocks reg ++ [s].
Proof.
  unfold registerBlockState. intros Hr.
  destruct (hashProperties (Properties_ s)) as [hp|]; [|done]. cbn in Hr.
  destruct (stateRuntimeIDs reg !! (Name s, hp)); [done|].
  destruct order.
  - rewrite sorted_unchanged in Hr. cbn in Hr.
    destruct (reindex _ _ _ _ _ _ _) as [[[[rid air] ids] hs]|]; [|done].
    cbn in Hr. destruct (insertFlags _ _); [|done]. cbn in Hr.
    by injection Hr as <-.
  - cbn in Hr. destruct (insertFlags _ _); [|done]. cbn in Hr.
    by injection Hr as <-.
Qed.

Lemma registerBlockStates_blocks ss reg reg' :
  registerBlockStates Sum64 SliceStable ss reg = Return reg' ->
  blocks reg' = blocks reg ++ ss.
Proof.
  unfold registerBlockStates. rewrite appendStates_spec. intros Hr.
  destruct (hashAll ss) as [hs|]; [|done]. cbn in Hr.
  rewrite sorted_unchanged in Hr. cbn in Hr.
  by rewrite (assignIDs_blocks _ _ _ _ _ Hr).
Qed.

(** The registries that registrations, one at a time with or without
    ordering or in batches, make of the registry [base]. *)
Inductive extends (base : Registry) : Registry -> Prop :=
| extends_base : extends base base
| extends_one s order reg reg' :
    extends base reg ->
    registerBlockState Sum64 SliceStable s order reg = Return reg' ->
    extends base reg'
| extends_batch ss reg reg' :
    extends base reg ->
    registerBlockStates Sum64 SliceStable ss reg = Return reg' ->
    extends base reg'.

Lemma extends_consistent base reg :
  consistent base -> extends base reg ->
  Z.of_nat (length (blocks reg)) < 2 ^ 32 -> consistent reg.
Proof.
  intros Hbase Hext. induction Hext as
    [|s order reg reg' _ IH Hone|ss reg reg' _ IH Hbatch]; intros Hbound;
    [done| |].
  - pose proof (registerBlockState_blocks _ _ _ _ Hone) as Hb.
    rewrite Hb, length_app in Hbound. cbn in Hbound.
    assert (Hreg : consistent reg) by (apply IH; lia).
    assert (Hfalse : forall r,
              registerBlockState Sum64 SliceStable s false reg = Return r ->
              consistent r).
    { intros r Hr. rewrite registerBlockState_unordered in Hr by done.
      destruct (hashProperties (Properties_ s)) as [hp|] eqn:Hhp; [|done].
      cbn in Hr.
      destruct (stateRuntimeIDs reg !! (Name s, hp)) eqn:Hfresh; [done|].
      injection Hr as <-. apply consistent_registered; [done|lia|done..]. }
    destruct order; [|by apply Hfalse].
    rewrite registerBlockState_ordered in Hone by done.
    destruct (registerBlockState Sum64 SliceStable s false reg) as [r|];
      [|done].
    cbn in Hone. injection Hone as <-.
    by apply consistent_withHashes, Hfalse.
  - pose proof (registerBlockStates_blocks _ _ _ Hbatch) as Hb.
    rewrite Hb, length_app in Hbound.
    assert (Hreg : consistent reg) by (apply IH; lia).
    assert (Hroom : Z.of_nat (length (blocks reg))
                    + Z.of_nat (length ss) < 2 ^ 32) by lia.
    pose proof (registerBlockStates_spec ss reg Hreg Hroom) as Hspec.
    destruct (hashAll ss) as [hs|msg] eqn:Hhs; [|congruence].
    pose proof (registerEach_spec ss hs reg Hreg Hroom Hhs) as Heach.
    destruct (admits _ _ hs).
    + rewrite Hspec in Hbatch. injection Hbatch as <-.
      apply consistent_batched.
      by apply (registerEach_consistent ss reg).
    + destruct Hspec as [msg Hmsg]. congruence.
Qed.

(** X27.  In every registry that registrations
    (one state at a time with or without ordering, or in batches) make
    of a consistent registry, and that holds fewer than 2^32 blocks,
    the two lookups are inverse to each other: the runtime ID found for
    a name and properties is the index of a block of that name whose
    properties have the same hash, and the state found for a runtime ID
    is found under that runtime ID. *)
Theorem registry_lookups_inverse (base reg : Registry)
    (Hbase : consistent base) (Hext : extends base reg)
    (Hbound : Z.of_nat (length (blocks reg)) < 2 ^ 32) :
  (forall name properties rid,
     StateToRuntimeID reg name properties = Return (rid, true) ->
     exists properties',
       RuntimeIDToState reg rid = Return (name, properties', true) ∧
       hashProperties properties' = hashProperties properties) ∧
  (forall rid name properties, 0 <= rid ->
     RuntimeIDToState reg rid = Return (name, properties, true) ->
     StateToRuntimeID reg name properties = Return (rid, true)).
Proof.
  destruct (extends_consistent base reg Hbase Hext Hbound)
    as [_ Hids Hblocks _ _].
  split.
  - intros name properties rid Hfound. unfold StateToRuntimeID in Hfound.
    destruct (hashProperties properties) as [hp|] eqn:Hhp; [|done].
    cbn in Hfound.
    destruct (stateRuntimeIDs reg !! (name, hp)) as [rid'|] eqn:Hrid; [|done].
    injection Hfound as ->.
    destruct (Hblocks _ _ Hrid) as (b & hp' & Hpos & Hb & Hhp' & [= -> ->]).
    exists (Properties_ b). split; [|done].
    unfold RuntimeIDToState. rewrite uint32_id by lia.
    pose proof (lookup_lt_Some _ _ _ Hb).
    rewrite decide_False by lia. by rewrite Hb.
  - intros rid name properties Hpos Hstate.
    unfold RuntimeIDToState in Hstate. rewrite uint32_id in Hstate by lia.
    case_decide as Hrid; [done|].
    destruct (blocks reg !! Z.to_nat rid) as [b|] eqn:Hb; [|done].
    injection Hstate as <- <-.
    destruct (Hids _ _ Hb) as (hp & Hhp & Hid).
    unfold StateToRuntimeID. rewrite Hhp. cbn. rewrite Hid.
    do 2 f_equal. lia.
Qed.

End Law.

End SortedRegistryFacts.
(** ** Sample collaborators, for evaluating the provider on concrete inputs

    The theorems above hold for every NBT codec and every chunk codec.  To
    run the embedding on concrete stores and buffers, this module fixes one
    of each: little-endian NBT restricted to compounds of byte, int, long
    and string tags, and a chunk codec whose palettes are a little-endian
    count followed by little-endian entries. *)

Module Sample.
Import LevelDB Mcdb.

Definition readU16 (buf : list byte) : option (Z * list byte) :=
  match buf with
  | a :: b :: rest => Some (byteZ a + 256 * byteZ b, rest)
  | _ => None
  end.

(** Little-endian unsigned integer of [n] bytes. *)
Definition readLE (n : nat) (buf : list byte) : option (Z * list byte) :=
  if decide (length buf < n)%nat then None
  else Some (Uint64 (take n buf), drop n buf).

Definition readString (buf : list byte) : option (string * list byte) :=
  '(n, rest) ← readU16 buf;
  if decide (length rest < Z.to_nat n)%nat then None
  else Some (String.string_of_list_byte (take (Z.to_nat n) rest),
             drop (Z.to_nat n) rest).

Definition readPayload (tag : Z) (buf : list byte) : option (Tag * list byte) :=
  if decide (tag = 1) then
    match buf with
    | b :: rest => Some (TagByte b, rest)
    | [] => None
    end
  else if decide (tag = 3) then
    '(v, rest) ← readLE 4 buf; Some (TagInt32 ((v + 2 ^ 31) mod 2 ^ 32 - 2 ^ 31), rest)
  else if decide (tag = 4) then
    '(v, rest) ← readLE 8 buf; Some (TagInt64 (int64 v), rest)
  else if decide (tag = 8) then
    '(v, rest) ← readString buf; Some (TagString v, rest)
  else None.

Fixpoint readEntries (fuel : nat) (buf : list byte) (m : gmap string Tag)
    : option (gmap string Tag * list byte) :=
  match fuel with
  | O => None
  | S fuel =>
      match buf with
      | [] => None
      | t :: rest =>
          if decide (byteZ t = 0) then Some (m, rest)
          else
            '(name, rest) ← readString rest;
            '(v, rest) ← readPayload (byteZ t) rest;
            readEntries fuel rest (<[name := v]> m)
      end
  end.

Definition sampleDecode (enc : NbtEncoding) (allowZero : bool)
    (buf : list byte) : error + (gmap string Tag * list byte) :=
  match buf with
  | [] => inl (ErrCodec "EOF")
  | t :: rest =>
      if decide (byteZ t = 0) then
        if allowZero then inr (∅, rest)
        else inl (ErrCodec "unexpected end tag")
      else if decide (byteZ t = 10) then
        match '(_, rest) ← readString rest;
              readEntries (length rest) rest ∅ with
        | Some res => inr res
        | None => inl (ErrCodec "malformed compound")
        end
      else inl (ErrCodec "not a compound")
  end.

Definition writeLE (n : nat) (v : Z) : list byte :=
  (fun i => u8 (Z.shiftr v (8 * Z.of_nat i))) <$> seq 0 n.

Definition writeString (s : string) : list byte :=
  writeLE 2 (Z.of_nat (String.length s)) ++ bytesOf s.

Definition writeTag (entry : string * Tag) : option (list byte) :=
  match entry.2 with
  | TagByte b => Some (x01 :: writeString entry.1 ++ [b])
  | TagInt32 v => Some (x03 :: writeString entry.1 ++ writeLE 4 v)
  | TagInt64 v => Some (x04 :: writeString entry.1 ++ writeLE 8 v)
  | TagString v => Some (x08 :: writeString entry.1 ++ writeString v)
  | TagOther _ => None
  end.

Definition sampleEncode (enc : NbtEncoding) (m : gmap string Tag)
    : error + list byte :=
  match mapM writeTag (map_to_list m) with
  | Some entries => inr ([x0a; x00; x00] ++ concat entries ++ [x00])
  | None => inl (ErrCodec "unsupported tag")
  end.

Lemma readString_length buf s rest :
  readString buf = Some (s, rest) -> (length rest <= length buf)%nat.
Proof.
  unfold readString, readU16.
  destruct buf as [|a [|b buf]]; [done..|]. cbn.
  case_decide; [done|]. intros [= _ <-]. rewrite length_drop. lia.
Qed.

Lemma readLE_length n buf v rest :
  readLE n buf = Some (v, rest) -> (length rest <= length buf)%nat.
Proof.
  unfold readLE. case_decide; [done|]. intros [= _ <-].
  rewrite length_drop. lia.
Qed.

Lemma readPayload_length tag buf v rest :
  readPayload tag buf = Some (v, rest) -> (length rest <= length buf)%nat.
Proof.
  unfold readPayload. repeat case_decide.
  - destruct buf; [done|]. intros [= _ <-]. cbn. lia.
  - destruct (readLE 4 buf) as [[w r]|] eqn:Hr; [|done]. cbn.
    intros [= _ <-]. by eapply readLE_length.
  - destruct (readLE 8 buf) as [[w r]|] eqn:Hr; [|done]. cbn.
    intros [= _ <-]. by eapply readLE_length.
  - destruct (readString buf) as [[w r]|] eqn:Hr; [|done]. cbn.
    intros [= _ <-]. by eapply readString_length.
  - done.
Qed.

Lemma readEntries_length fuel buf m m' rest :
  readEntries fuel buf m = Some (m', rest) -> (length rest <= length buf)%nat.
Proof.
  revert buf m. induction fuel as [|fuel IH]; intros buf m; [done|].
  cbn. destruct buf as [|t buf]; [done|]. case_decide.
  { intros [= _ <-]. cbn. lia. }
  destruct (readString buf) as [[name r1]|] eqn:Hname; [|done]. cbn.
  destruct (readPayload (byteZ t) r1) as [[v r2]|] eqn:Hv; [|done]. cbn.
  intros Hrest%IH. apply readString_length in Hname.
  apply readPayload_length in Hv. cbn. lia.
Qed.

#[global] Program Instance sampleNbt : NbtCodec :=
  {| nbtDecode := sampleDecode; nbtEncode := sampleEncode |}.
Next Obligation.
  intros enc az buf m rest. unfold sampleDecode.
  destruct buf as [|t buf]; [done|]. case_decide.
  { destruct az; [|done]. intros [= _ <-]. cbn. lia. }
  case_decide; [|done].
  destruct (readString buf) as [[name r1]|] eqn:Hname; [|done]. cbn.
  destruct (readEntries (length r1) r1 ∅) as [[m' r2]|] eqn:Hent; [|done].
  intros [= _ <-]. apply readString_length in Hname.
  apply readEntries_length in Hent. cbn. lia.
Qed.

(** The number of words of a storage: 4096 indices, [32 / p] to a word. *)
Definition sampleUint32s (p : Z) : nat :=
  if decide (p = 0) then 0%nat
  else
    let per := 32 / p in
    if decide (per = 0) then 0%nat
    else Z.to_nat ((4096 + per - 1) / per).

Fixpoint readValues (n : nat) (buf : list byte) : option (list Z * list byte) :=
  match n with
  | O => Some ([], buf)
  | S n =>
      '(v, rest) ← readLE 4 buf;
      '(vs, rest) ← readValues n rest;
      Some (v :: vs, rest)
  end.

(** A palette: its length, left out for palette size 0 where it is 1, and
    the entries, all little-endian 32-bit words. *)
Definition sampleDecodePalette (e : Encoding) (buf : list byte) (size : Z)
    (pe : paletteEncoding) : error + (Palette * list byte) :=
  match '(count, rest) ← (if decide (size = 0) then Some (1, buf)
                          else readLE 4 buf);
        '(vs, rest) ← readValues (Z.to_nat count) rest;
        Some ({| Chunk.size := size; values := vs |}, rest) with
  | Some res => inr res
  | None => inl (ErrCodec "error reading palette")
  end.

Definition sampleNewSubChunk (air : Z) : SubChunk :=
  {| sub_air := air; storages := [] |}.

Definition uniformStorage (v : Z) : PalettedStorage :=
  {| indices := []; palette := {| Chunk.size := 0; values := [v] |} |}.

Definition sampleNew (air : Z) (r : Range_) : Chunk :=
  let n := Z.to_nat (Z.shiftr (Height r) 4 + 1) in
  {| r := r; air := air;
     sub := replicate n (sampleNewSubChunk air);
     biomes := replicate n (Some (uniformStorage 0)) |}.

(** Setting a biome makes the storage of the sub chunk uniform. *)
Definition sampleSetBiome (c : Chunk) (x y z id : Z) : Chunk :=
  withBiomes c (<[Z.to_nat (Z.shiftr (y - (r c).1) 4)
                  := Some (uniformStorage id)]> (biomes c)).

Definition encodeStorage (e : Encoding) (st : option PalettedStorage)
    : list byte :=
  match st with
  | None => [xff]
  | Some st =>
      let p := palette st in
      u8 (2 * Chunk.size p + (if decide (e = NetworkEncoding) then 1 else 0))
      :: concat (writeLE 4 <$> indices st)
      ++ (if decide (Chunk.size p = 0) then []
          else writeLE 4 (Z.of_nat (length (values p))))
      ++ concat (writeLE 4 <$> values p)
  end.

Definition sampleEncodeChunk (c : Chunk) (e : Encoding) : SerialisedData :=
  {| SubChunks :=
       imap (fun i s =>
               [x09; u8 (Z.of_nat (length (storages s)));
                u8 (Z.of_nat i + Z.shiftr (r c).1 4)]
               ++ concat (encodeStorage e <$> storages s)) (sub c);
     Biomes := concat (encodeStorage e <$> biomes c) |}.

#[global] Program Instance sampleChunk : ChunkCodec :=
  {| uint32s := sampleUint32s;
     decodePalette := sampleDecodePalette;
     New := sampleNew;
     NewSubChunk := sampleNewSubChunk;
     SetBiome := sampleSetBiome;
     Encode := sampleEncodeChunk |}.
Next Obligation. done. Qed.

(** Two kinds of entities: items, whose type is saveable, and particles,
    whose type is not. *)
Inductive SampleEntity :=
| Item (uid : Z)
| Particle.

Definition itemType : @EntityType SampleEntity :=
  {| EncodeEntity := "minecraft:item";
     saveable :=
       Some {| DecodeNBT := fun m =>
                 match m !! "UniqueID" with
                 | Some (TagInt64 v) => Some (Item v)
                 | _ => None
                 end;
               EncodeNBT := fun e =>
                 match e with
                 | Item uid => {["UniqueID" := TagInt64 uid]}
                 | Particle => ∅
                 end |} |}.

Definition particleType : @EntityType SampleEntity :=
  {| EncodeEntity := "sample:particle"; saveable := None |}.

Definition sampleType (e : SampleEntity) : @EntityType SampleEntity :=
  match e with
  | Item _ => itemType
  | Particle => particleType
  end.

Definition sampleRegistry (name : string) : option (@EntityType SampleEntity) :=
  if decide (name = "minecraft:item") then Some itemType
  else if decide (name = "sample:particle") then Some particleType
  else None.

(** A provider over the given store contents and fault schedule. *)
Definition provider (entries : list (list byte * list byte))
    (schedule : list (option string)) : Provider :=
  {| ldb := {| kv := list_to_map entries; faults := schedule |};
     logged := [];
     rand := fun n => 1000 + Z.of_nat n;
     randPos := 0 |}.

(** The NBT record of an item with the given unique ID. *)
Definition itemRecord (uid : Z) : list byte :=
  match sampleEncode LittleEndian
          (<["identifier" := TagString "minecraft:item"]>
             {["UniqueID" := TagInt64 uid]}) with
  | inr b => b
  | inl _ => []
  end.

End Sample.

(** ** The provider and the decoders on concrete inputs *)

Module Evaluation.
Import LevelDB Mcdb Sample.

Definition origin : ChunkPos := (0, 0).
Definition versionKey : list byte := index origin Overworld ++ [keyVersion].
Definition legacyVersionKey : list byte := index origin Overworld ++ [keyVersionOld].
Definition inlineKey : list byte := index origin Overworld ++ [keyEntities].
Definition digpKey : list byte := bytesOf "digp" ++ index origin Overworld.

Definition result {A} (o : outcome (A * Provider)) : option A :=
  match o with
  | Return (a, _) => Some a
  | Panic _ => None
  end.

Definition store {A} (o : outcome (A * Provider))
    : list (list byte * list byte) :=
  match o with
  | Return (_, db) => map_to_list (kv (ldb db))
  | Panic _ => []
  end.

(** *** Saving a chunk on a store whose first write fails *)

Definition fullDisk : Provider := provider [] [Some "disk full"].
Definition flat : Chunk := New 0 (0, 15).

(** C2 (as stated) fails: the write of the version byte fails with a
    store error, and [SaveChunk] returns nil. *)
Lemma SaveChunk_swallows_failed_write :
  (dbPut versionKey [x28] fullDisk).1 = Some (ErrStore "disk full") ∧
  (SaveChunk x28 origin flat Overworld fullDisk).1 = None ∧
  kv (ldb (SaveChunk x28 origin flat Overworld fullDisk).2) !! versionKey = None.
Proof. vm_compute. done. Qed.

Lemma SaveChunk_drops_store_errors_witness :
  (SaveChunk x28 origin flat Overworld fullDisk).1 = None ∧
  kv (ldb (SaveChunk x28 origin flat Overworld fullDisk).2) !! versionKey
  = kv (ldb fullDisk) !! versionKey.
Proof.
  destruct (ChunkStoreFacts.SaveChunk_drops_store_errors x28 origin flat
              Overworld fullDisk) as [Hnil Hkey].
  split; [exact Hnil|]. apply (Hkey "disk full" []). reflexivity.
Defined.

(** *** Loading a chunk when the read of the legacy version key fails *)

(** C3: the legacy version key is in the store, the current one is not,
    and the read of the legacy key fails with a store error.
    [LoadChunk] returns exists=false and a nil error. *)
Lemma LoadChunk_failed_legacy_read :
  let db := provider [(legacyVersionKey, [x28])] [None; Some "io error"] in
  kv (ldb db) !! versionKey = None ∧
  kv (ldb db) !! legacyVersionKey = Some [x28] ∧
  (dbGet legacyVersionKey (dbGet versionKey db).2).1
    = inl (ErrStore "io error") ∧
  result (LoadChunk ClearStates origin Overworld db)
    = Some {| lc_c := None; lc_exists := false; lc_err := None |}.
Proof. vm_compute. done. Qed.

(** *** Loading entities *)

(** A compound without identifier. *)
Definition anonymousRecord : list byte :=
  match sampleEncode LittleEndian {["UniqueID" := TagInt64 8]} with
  | inr b => b
  | inl _ => []
  end.

(** C4 (as stated) fails: a record of the inline stream that is not NBT
    makes [LoadEntities] return an error, and neither the entity before
    it nor the entity after it is returned; a record listed in [digp]
    that is not NBT does the same. *)
Lemma LoadEntities_aborts_on_malformed_record :
  result (LoadEntities origin Overworld sampleRegistry
            (provider [(inlineKey, itemRecord 7 ++ [xff] ++ itemRecord 9)] []))
    = Some (inl (Wrap "error decoding entity NBT" (ErrCodec "not a compound"))) ∧
  result (LoadEntities origin Overworld sampleRegistry
            (provider [(inlineKey, itemRecord 7);
                       (digpKey, writeLE 8 8 ++ writeLE 8 9);
                       (actorIndex 8, [xff]);
                       (actorIndex 9, itemRecord 9)] []))
    = Some (inl (Wrap "error decoding entity NBT" (ErrCodec "not a compound"))).
Proof. vm_compute. done. Qed.

Lemma LoadEntities_decode_errors_witness :
  let db := provider [(inlineKey, itemRecord 7 ++ anonymousRecord);
                      (digpKey, writeLE 8 9);
                      (actorIndex 9, itemRecord 9)] [] in
  result (LoadEntities origin Overworld sampleRegistry db)
    = Some (inr [Item 7; Item 9]) ∧
  loadEntity {["UniqueID" := TagInt64 8]} origin sampleRegistry db
    = (None, logErrorf db (LogNoIdentifier origin {["UniqueID" := TagInt64 8]})).
Proof.
  intros db.
  destruct (EntityFacts.LoadEntities_decode_errors origin sampleRegistry
              Overworld db) as ((db' & Hload) & Hanon & _).
  - reflexivity.
  - vm_compute. reflexivity.
  - cbv zeta. apply (bool_decide_unpack _). vm_compute. exact I.
  - split.
    + rewrite Hload. cbn [result]. do 2 f_equal.
    + apply Hanon. vm_compute. reflexivity.
Defined.

(** *** Saving entities *)

(** C7: the entity list holds one entity, of a type that is not saveable.
    [SaveEntities] succeeds, no record is written, and the [digp] key is
    in the store, with an empty value. *)
Lemma SaveEntities_digp_without_records :
  result (SaveEntities sampleType origin [Particle] Overworld (provider [] []))
    = Some None ∧
  store (SaveEntities sampleType origin [Particle] Overworld (provider [] []))
    = [(digpKey, [])].
Proof. vm_compute. done. Qed.

(** C8: the legacy inline entity stream key is in the store and the
    entity list is empty.  [SaveEntities] succeeds and the key is still
    there. *)
Lemma SaveEntities_empty_leaves_inline_key :
  result (SaveEntities sampleType origin [] Overworld
            (provider [(inlineKey, itemRecord 7)] []))
    = Some None ∧
  store (SaveEntities sampleType origin [] Overworld
           (provider [(inlineKey, itemRecord 7)] []))
    = [(inlineKey, itemRecord 7)].
Proof. vm_compute. done. Qed.

(** With an entity to save, the key is deleted. *)
Lemma SaveEntities_deletes_inline_key :
  result (SaveEntities sampleType origin [Item 5] Overworld
            (provider [(inlineKey, itemRecord 7)] []))
    = Some None ∧
  store (SaveEntities sampleType origin [Item 5] Overworld
           (provider [(inlineKey, itemRecord 7)] []))
    = [(actorIndex 5, itemRecord 5); (digpKey, writeLE 8 5)].
Proof. vm_compute. done. Qed.

(** *** Biome storages *)




(** *** Looking up runtime IDs *)

Definition catalogue : list blockState :=
  [ {| Name := "minecraft:air"; Properties_ := None; Version := 1 |};
    {| Name := "ns:block";
       Properties_ := makeMap [("color", VString "red")]; Version := 1 |};
    {| Name := "ns:block";
       Properties_ := makeMap [("color", VString "blue")]; Version := 1 |} ].

Definition registered : Registry :=
  match registerBlockStates catalogue ClearStates with
  | Return reg => reg
  | Panic _ => ClearStates
  end.

Lemma StateToRuntimeID_fallback_witness :
  StateToRuntimeID registered "ns:block" (makeMap [("color", VString "blue")])
    = Return (2, true) ∧
  StateToRuntimeID registered "ns:block" (makeMap [("color", VString "green")])
    = Return (1, true) ∧
  StateToRuntimeID registered "ns:other" (makeMap [("color", VString "green")])
    = Return (0, false).
Proof.
  assert (Hreg : registerBlockStates catalogue ClearStates = Return registered)
    by (vm_compute; reflexivity).
  split; [|split].
  - destruct (RegistryFacts.StateToRuntimeID_fallback catalogue registered
                "ns:block" (makeMap [("color", VString "blue")]) "blue" Hreg)
      as (hd & _ & _ & Hlookup & _); [vm_compute; reflexivity|].
    rewrite Hlookup.
    replace (stateRuntimeIDs registered !! ("ns:block", "blue"))
      with (Some 2) by (vm_compute; reflexivity).
    reflexivity.
  - destruct (RegistryFacts.StateToRuntimeID_fallback catalogue registered
                "ns:block" (makeMap [("color", VString "green")]) "green" Hreg)
      as (hd & _ & _ & Hlookup & Hfirst); [vm_compute; reflexivity|].
    rewrite Hlookup.
    replace (stateRuntimeIDs registered !! ("ns:block", "green"))
      with (@None Z) by (vm_compute; reflexivity).
    rewrite (Hfirst 1%nat {| Name := "ns:block";
                             Properties_ := makeMap [("color", VString "red")];
                             Version := 1 |}) by (vm_compute; reflexivity).
    reflexivity.
  - destruct (RegistryFacts.StateToRuntimeID_fallback catalogue registered
                "ns:other" (makeMap [("color", VString "green")]) "green" Hreg)
      as (hd & Hdef & Hhd & Hlookup & _); [vm_compute; reflexivity|].
    rewrite Hlookup.
    replace (stateRuntimeIDs registered !! ("ns:other", "green"))
      with (@None Z) by (vm_compute; reflexivity).
    assert (hd = EmptyString) as ->.
    { rewrite Hdef in Hhd. vm_compute in Hhd. congruence. }
    replace (stateRuntimeIDs registered !! ("ns:other", EmptyString))
      with (@None Z) by (vm_compute; reflexivity).
    reflexivity.
Defined.

(** *** A network chunk with hashed runtime IDs *)

(** Hash 7 stands for runtime ID 70; hash 9 is not in the table. *)
Definition hashTable : gmap Z Z := {[7 := 70]}.

(** One sub chunk of version 8 with two storages: palette size 0 with the
    entry 7, and palette size 1 with the entries 7 and 9; then the biome
    storage of the sub chunk. *)
Definition hashedData : list byte :=
  [x08; x02; x01; x07; x00; x00; x00; x03] ++ replicate 512 x00
  ++ [x02; x00; x00; x00; x07; x00; x00; x00; x09; x00; x00; x00]
  ++ [x01; x05; x00; x00; x00].

Definition hashedChunk : Chunk :=
  match NetworkDecode hashTable 0 hashedData 1 false true (0, 15) with
  | Return (inr (c, _)) => c
  | _ => New 0 (0, 15)
  end.

(** The same data decoded without [hashedRids]. *)
Definition plainChunk : Chunk :=
  match NetworkDecode hashTable 0 hashedData 1 false false (0, 15) with
  | Return (inr (c, _)) => c
  | _ => New 0 (0, 15)
  end.

Lemma NetworkDecode_hashedRids_witness :
  (exists c, NetworkDecode hashTable 0 hashedData 1 false true (0, 15)
             = Return (inr (c, []))) ∧
  sub plainChunk =
    [ {| sub_air := 0;
         storages :=
           [ Some {| indices := [];
                     palette := {| Chunk.size := 0; values := [7] |} |};
             Some {| indices := replicate 128 0;
                     palette := {| Chunk.size := 1; values := [7; 9] |} |} ] |} ] ∧
  sub hashedChunk =
    [ {| sub_air := 0;
         storages :=
           [ Some {| indices := [];
                     palette := {| Chunk.size := 0; values := [70] |} |};
             Some {| indices := replicate 128 0;
                     palette := {| Chunk.size := 1; values := [70; 0] |} |} ] |} ].
Proof.
  pose proof (NetworkFacts.NetworkDecode_hashedRids hashTable 0 hashedData 1
                false (0, 15) []) as Hthm.
  cbv zeta in Hthm. destruct Hthm as [[_ Hreturns] Hsub].
  split; [|split].
  - apply Hreturns. split.
    + exists plainChunk. vm_compute. reflexivity.
    + apply (bool_decide_unpack _). vm_compute. exact I.
  - vm_compute. reflexivity.
  - destruct (Hsub hashedChunk) as [_ ->]; [vm_compute; reflexivity|].
    vm_compute. reflexivity.
Defined.

End Evaluation.


(** ** A sample codec for player data *)

Module SamplePlayers.
Import LevelDB Mcdb Sample.

(** The player record as a compound of three string tags. *)
Definition playerCompound (d : playerData) : gmap string Tag :=
  <["MsaId" := TagString (UUID d)]>
    (<["ServerId" := TagString (ServerID d)]>
       {["SelfSignedId" := TagString (SelfSignedID d)]}).

Definition stringField (m : gmap string Tag) (name : string) : string :=
  match m !! name with
  | Some (TagString v) => v
  | _ => EmptyString
  end.

Definition sampleUnmarshalMap (enc : NbtEncoding) (buf : list byte)
    : error + gmap string Tag :=
  match sampleDecode enc false buf with
  | inl err => inl err
  | inr (m, _) => inr m
  end.

#[global] Instance samplePlayers : NbtMarshal :=
  {| marshalMap := fun enc m => sampleEncode enc (default ∅ m);
     unmarshalMap := sampleUnmarshalMap;
     marshalPlayerData := fun enc d => sampleEncode enc (playerCompound d);
     unmarshalPlayerData := fun enc buf =>
       match sampleUnmarshalMap enc buf with
       | inl err => inl err
       | inr m => inr {| UUID := stringField m "MsaId";
                         ServerID := stringField m "ServerId";
                         SelfSignedID := stringField m "SelfSignedId" |}
       end |}.

(** The bytes of a result, empty for an error. *)
Definition bytesOfResult (res : error + list byte) : list byte :=
  match res with
  | inr b => b
  | inl _ => []
  end.

End SamplePlayers.

(** ** Further evaluations *)

(** *** Sorted and batch registration: a sort and sample states *)

Module SampleSort.
Import SortedRegistry SortedRegistryFacts.

(** The FNV-1 hash of 64 bits. *)
Definition fnv64 (data : list byte) : Z :=
  foldl (fun h c => Z.lxor (h * 1099511628211 mod 2 ^ 64) (byteZ c))
    14695981039346656037 data.

(** An insertion sort on a comparator of indexes: the element at [j]
    moves down while it is less than the one before it. *)
Definition swap (bs : list blockState) (i j : nat) : list blockState :=
  match bs !! i, bs !! j with
  | Some a, Some b => <[i := b]> (<[j := a]> bs)
  | _, _ => bs
  end.

Fixpoint insertDown (less : list blockState -> Z -> Z -> outcome bool)
    (bs : list blockState) (j : nat) : outcome (list blockState) :=
  match j with
  | O => Return bs
  | S j' =>
      b ← less bs (Z.of_nat j) (Z.of_nat j');
      if b : bool then insertDown less (swap bs j j') j' else Return bs
  end.

Fixpoint insertEach (less : list blockState -> Z -> Z -> outcome bool)
    (indexes : list nat) (bs : list blockState)
    : outcome (list blockState) :=
  match indexes with
  | [] => Return bs
  | i :: indexes => bs ← insertDown less bs i; insertEach less indexes bs
  end.

Definition insertionSort (less : list blockState -> Z -> Z -> outcome bool)
    (bs : list blockState) : outcome (list blockState) :=
  insertEach less (seq 1 (length bs - 1)) bs.

Lemma insertionSort_equal less bs :
  (forall bs' i j, 0 <= i < Z.of_nat (length bs') ->
                   0 <= j < Z.of_nat (length bs') ->
                   less bs' i j = Return false) ->
  insertionSort less bs = Return bs.
Proof.
  intros Hless. unfold insertionSort.
  assert (Hall : Forall (fun i => (i < length bs)%nat)
                   (seq 1 (length bs - 1))).
  { apply Forall_forall. intros i Hi. apply elem_of_seq in Hi. lia. }
  induction Hall as [|i indexes Hi _ IH]; [done|].
  cbn [insertEach]. destruct i as [|j]; cbn [insertDown]; [exact IH|].
  rewrite Hless by lia. exact IH.
Qed.

Definition state (name : string) (properties : Properties) : blockState :=
  {| Name := name; Properties_ := properties; Version := 1 |}.

Definition air : blockState := state "minecraft:air" None.
Definition stone : blockState :=
  state "minecraft:stone" (makeMap [("stone_type", VString "granite")]).
Definition water : blockState :=
  state "minecraft:water" (makeMap [("liquid_depth", VInt32 0)]).
Definition dirt : blockState := state "minecraft:dirt" None.

Definition returned (res : outcome Registry) : Registry :=
  match res with
  | Return reg => reg
  | Panic _ => noBlocks
  end.

(** Air and stone registered one at a time, then water and dirt in a
    batch. *)
Definition twoBlocks : Registry :=
  returned (registerEach fnv64 insertionSort [air; stone] noBlocks).
Definition fourBlocksEach : Registry :=
  returned (registerEach fnv64 insertionSort [water; dirt] twoBlocks).

(** Air registered without ordering, stone with ordering, then water and
    dirt in a batch. *)
Definition oneBlock : Registry :=
  returned (registerBlockState fnv64 insertionSort air false noBlocks).
Definition orderedBlocks : Registry :=
  returned (registerBlockState fnv64 insertionSort stone true oneBlock).
Definition fourBlocks : Registry :=
  returned (registerBlockStates fnv64 insertionSort [water; dirt]
              orderedBlocks).

Lemma consistent_twoBlocks : consistent twoBlocks.
Proof.
  apply (registerEach_consistent fnv64 insertionSort [air; stone] noBlocks).
  - apply consistent_noBlocks.
  - vm_compute. reflexivity.
  - vm_compute. reflexivity.
Qed.

End SampleSort.

Module Examples.
Import LevelDB Mcdb Sample SamplePlayers Evaluation.

(** *** Keys *)

Lemma chunk_keys_unambiguous_witness :
  (index (3, -1) Nether ++ [keySubChunkData; x02]
   = index (3, -1) Nether ++ [keySubChunkData; x02] ->
   index (3, -1) Nether = index (3, -1) Nether ∧
   [keySubChunkData; x02] = [keySubChunkData; x02]) ∧
  index (3, -1) Nether ++ [keyVersion] ≠ bytesOf "digp" ++ index (3, -1) Overworld ∧
  index (3, -1) Nether ++ [keyVersion] ≠ actorIndex 7 ∧
  bytesOf "digp" ++ index (3, -1) Overworld ≠ actorIndex 7.
Proof.
  destruct (KeyFacts.chunk_keys_unambiguous (3, -1) (3, -1) Nether Nether
              [keySubChunkData; x02] [keySubChunkData; x02] 7)
    as (Hsplit & _); [cbn; lia..|].
  destruct (KeyFacts.chunk_keys_unambiguous (3, -1) (3, -1) Nether Overworld
              [keyVersion] [keyVersion] 7)
    as (_ & Hdigp & Hactor & Hother); [cbn; lia..|].
  done.
Defined.

(** *** The dimension registry, ranged over backwards *)

Lemma newDimensionRegistry_LookupID_witness :
  let reg := newDimensionRegistryIter (reverse (map_to_list registeredDimensions))
               registeredDimensions in
  LookupID reg End = (2, true) ∧
  LookupID reg Overworld_legacy = (0, true) ∧
  LookupID reg nopDim = (0, false) ∧
  Lookup reg (LookupID reg Nether).1 = (Nether, true).
Proof.
  intros reg.
  destruct (DimensionFacts.newDimensionRegistry_LookupID registeredDimensions
              (reverse (map_to_list registeredDimensions)))
    as (Hfound & Hmiss & Hback).
  { apply (bool_decide_unpack _). vm_compute. exact I. }
  { apply reverse_Permutation. }
  split; [|split; [|split]].
  - apply (Hfound 2 End). reflexivity.
  - apply (Hfound 10 Overworld_legacy). reflexivity.
  - apply Hmiss. intros k Hk.
    apply elem_of_map_to_list in Hk.
    set (l := map_to_list registeredDimensions) in Hk.
    vm_compute in l. subst l.
    repeat (apply elem_of_cons in Hk as [Heq|Hk]; [discriminate Heq|]).
    by apply elem_of_nil in Hk.
  - apply (Hback 1 Nether); [reflexivity|discriminate].
Defined.

(** *** Block states *)

Lemma hashProperties_panics_witness :
  (exists reason,
     hashPropertiesIter ["b"; "a"]
       (makeMap [("a", VBool true); ("b", VOther)]) = Panic reason) <->
  (exists k, get (makeMap [("a", VBool true); ("b", VOther)]) k = Some VOther).
Proof.
  apply (HashPanicFacts.hashProperties_panics
           (makeMap [("a", VBool true); ("b", VOther)]) ["b"; "a"]).
  vm_compute. apply perm_swap.
Defined.

Lemma runtimeID_roundtrip_witness :
  StateToRuntimeID registered "ns:block" (makeMap [("color", VString "blue")])
    = Return (2, true) ∧
  RuntimeIDToState registered 2
    = Return ("ns:block", makeMap [("color", VString "blue")], true) ∧
  RuntimeIDToState registered 3 = Return (EmptyString, None, false).
Proof.
  assert (Hreg : registerBlockStates catalogue ClearStates = Return registered)
    by (vm_compute; reflexivity).
  destruct (RuntimeIDFacts.runtimeID_roundtrip catalogue registered Hreg)
    as (Hfwd & _ & Hout); [vm_compute; reflexivity|].
  destruct (Hfwd 2%nat {| Name := "ns:block";
                          Properties_ := makeMap [("color", VString "blue")];
                          Version := 1 |} eq_refl) as [Hrid Hstate].
  split; [exact Hrid|]. split; [exact Hstate|].
  apply Hout. vm_compute. discriminate.
Defined.

Lemma splitNamespace_spec_witness :
  splitNamespace "minecraft:stone" = ("minecraft", "stone") ∧
  splitNamespace "minecraft:a:b:stone" = ("minecraft", "stone") ∧
  splitNamespace "minecraft" = ("minecraft", "minecraft").
Proof.
  destruct (NamespaceFacts.splitNamespace_spec "minecraft" "stone")
    as (Hone & Hmany & Hnone); [cbn; by repeat split..|].
  split; [exact Hone|]. split; [exact (Hmany "a:b")|exact Hnone].
Defined.

Lemma DiskDecode_air_witness :
  (exists rid,
     StateToRuntimeID registered "minecraft:air" None = Return (rid, true)) ∧
  DiskDecode ClearStates {| SubChunks := []; Biomes := [] |} (0, 15)
    = Panic "cannot find air runtime ID".
Proof.
  assert (Hreg : registerBlockStates catalogue ClearStates = Return registered)
    by (vm_compute; reflexivity).
  destruct (DiskFacts.DiskDecode_air catalogue registered Hreg)
    as [[_ Hfound] _].
  destruct (DiskFacts.DiskDecode_air [] ClearStates eq_refl)
    as [_ Hpanic].
  split.
  - apply Hfound. eexists. split; [apply list_elem_of_here|reflexivity].
  - apply Hpanic. intros s Hs. apply elem_of_nil in Hs. destruct Hs.
Defined.

(** *** Decoders *)

Lemma decodePalettedStorage_words_witness :
  decodePalettedStorage
    (x03 :: concat (little_endian_u32 <$> replicate 128 5)
         ++ [x02; x00; x00; x00; x07; x00; x00; x00; x09; x00; x00; x00; xff])
    NetworkEncoding BlockPaletteEncoding
  = inr (Some {| indices := replicate 128 5;
                 palette := {| Chunk.size := 1; values := [7; 9] |} |}, [xff]).
Proof.
  rewrite (DecoderFacts.decodePalettedStorage_words 1 true (replicate 128 5)
             [x02; x00; x00; x00; x07; x00; x00; x00; x09; x00; x00; x00; xff]
             NetworkEncoding BlockPaletteEncoding).
  - vm_compute. reflexivity.
  - lia.
  - vm_compute. reflexivity.
  - apply Forall_replicate. lia.
Defined.

(** The data of [hashedData] followed by an empty compound and the
    compound of an item. *)
Definition withBlockNBT : list byte := hashedData ++ [x00] ++ itemRecord 7.

Definition decodedBlockNBTs : list (gmap string Tag) :=
  match NetworkDecode hashTable 0 withBlockNBT 1 false true (0, 15) with
  | Return (inr (_, blockNBTs)) => blockNBTs
  | _ => []
  end.

Lemma NetworkDecode_blockNBTs_witness :
  length decodedBlockNBTs = 1%nat ∧
  Forall (fun m : gmap string Tag => m ≠ ∅) decodedBlockNBTs.
Proof.
  split; [vm_compute; reflexivity|].
  apply (DecoderFacts.NetworkDecode_blockNBTs hashTable 0 withBlockNBT 1
           false true (0, 15)
           match NetworkDecode hashTable 0 withBlockNBT 1 false true (0, 15) with
           | Return (inr (c, _)) => c
           | _ => New 0 (0, 15)
           end).
  vm_compute. reflexivity.
Defined.

(** *** Chunks in the store *)

Definition netherChunk : Chunk := New 0 (Range Nether).

Definition netherSaved : Provider :=
  (SaveChunk x28 origin netherChunk Nether (provider [] [])).2.

Lemma SaveChunk_LoadChunk_witness :
  LoadChunk registered origin Nether netherSaved
  = Return ({| lc_c := Some netherChunk; lc_exists := true; lc_err := None |},
            netherSaved).
Proof.
  destruct (ChunkRoundTripFacts.SaveChunk_LoadChunk x28 registered origin
              netherChunk Nether (provider [] [])) as [_ Hload].
  - reflexivity.
  - reflexivity.
  - vm_compute. reflexivity.
  - vm_compute. discriminate.
  - fold netherSaved in Hload. rewrite Hload.
    replace (DiskDecode registered (Encode netherChunk DiskEncoding)
               (Range Nether))
      with (Return (inr netherChunk) : outcome (error + Chunk))
      by (vm_compute; reflexivity).
    reflexivity.
Defined.

Lemma SaveChunk_other_chunk_witness :
  QuietStoreFacts.resultOf
    (LoadChunk registered origin Nether
       (SaveChunk x28 (1, 0) netherChunk Nether netherSaved).2)
  = Return {| lc_c := Some netherChunk; lc_exists := true; lc_err := None |}.
Proof.
  rewrite (ChunkRoundTripFacts.SaveChunk_other_chunk x28 registered (1, 0)
             origin netherChunk Nether Nether netherSaved).
  - vm_compute. reflexivity.
  - vm_compute. reflexivity.
  - intros Heq. vm_compute in Heq. discriminate Heq.
Defined.

Definition legacyOnly : Provider := provider [(legacyVersionKey, [x28])] [].

Lemma LoadChunk_without_data_witness :
  LoadChunk registered origin Overworld legacyOnly
  = Return ({| lc_c := Some (New 0 (Range Overworld)); lc_exists := true;
               lc_err := None |}, legacyOnly).
Proof.
  apply ChunkRoundTripFacts.LoadChunk_without_data.
  - reflexivity.
  - vm_compute. reflexivity.
  - right. vm_compute. eexists. reflexivity.
  - vm_compute. reflexivity.
  - intros y. unfold legacyOnly, provider. cbn [ldb kv list_to_map foldr].
    rewrite lookup_insert_ne; [apply lookup_empty|].
    intros Heq. apply (f_equal length) in Heq. vm_compute in Heq.
    discriminate Heq.
Defined.

(** *** Entities in the store *)

Lemma SaveEntities_LoadEntities_witness :
  exists db1 db2,
    SaveEntities sampleType origin [Item 5; Particle; Item 7] Overworld
      (provider [] [])
      = Return (None, db1) ∧
    LoadEntities origin Overworld sampleRegistry db1
      = Return (inr [Item 5; Item 7], db2).
Proof.
  apply (EntityRoundTripFacts.SaveEntities_LoadEntities sampleType origin
           sampleRegistry [Item 5; Particle; Item 7]).
  - reflexivity.
  - vm_compute. reflexivity.
  - discriminate.
  - apply Forall_cons; split; [|apply Forall_cons; split;
      [|apply Forall_cons; split; [|apply Forall_nil_2]]].
    + left.
      exists (<["identifier" := TagString "minecraft:item"]>
                {["UniqueID" := TagInt64 5]}), 5, (itemRecord 5), [], itemType.
      eexists.
      split; [vm_compute; reflexivity|]. split; [vm_compute; reflexivity|].
      split; [lia|]. split; [vm_compute; reflexivity|].
      split; [vm_compute; reflexivity|]. split; [vm_compute; reflexivity|].
      split; [reflexivity|]. vm_compute. reflexivity.
    + right. reflexivity.
    + left.
      exists (<["identifier" := TagString "minecraft:item"]>
                {["UniqueID" := TagInt64 7]}), 7, (itemRecord 7), [], itemType.
      eexists.
      split; [vm_compute; reflexivity|]. split; [vm_compute; reflexivity|].
      split; [lia|]. split; [vm_compute; reflexivity|].
      split; [vm_compute; reflexivity|]. split; [vm_compute; reflexivity|].
      split; [reflexivity|]. vm_compute. reflexivity.
  - apply (bool_decide_unpack _). vm_compute. exact I.
Defined.

Lemma SaveEntities_last_record_wins_witness :
  exists db1 db2,
    SaveEntities sampleType origin [Item 5; Particle; Item 5] Overworld
      (provider [] [])
      = Return (None, db1) ∧
    LoadEntities origin Overworld sampleRegistry db1
      = Return (inr [Item 5; Item 5], db2).
Proof.
  apply (EntityRoundTripFacts.SaveEntities_last_record_wins sampleType origin
           sampleRegistry [Item 5; Particle; Item 5]).
  - reflexivity.
  - vm_compute. reflexivity.
  - discriminate.
  - apply Forall_cons; split; [|apply Forall_cons; split;
      [|apply Forall_cons; split; [|apply Forall_nil_2]]].
    + left.
      exists (<["identifier" := TagString "minecraft:item"]>
                {["UniqueID" := TagInt64 5]}), 5, (itemRecord 5), [], itemType.
      eexists.
      split; [vm_compute; reflexivity|]. split; [vm_compute; reflexivity|].
      split; [lia|]. split; [vm_compute; reflexivity|].
      split; [vm_compute; reflexivity|]. split; [vm_compute; reflexivity|].
      split; [reflexivity|]. vm_compute. reflexivity.
    + right. reflexivity.
    + left.
      exists (<["identifier" := TagString "minecraft:item"]>
                {["UniqueID" := TagInt64 5]}), 5, (itemRecord 5), [], itemType.
      eexists.
      split; [vm_compute; reflexivity|]. split; [vm_compute; reflexivity|].
      split; [lia|]. split; [vm_compute; reflexivity|].
      split; [vm_compute; reflexivity|]. split; [vm_compute; reflexivity|].
      split; [reflexivity|]. vm_compute. reflexivity.
Defined.

(** A chunk with the records of the items 5 and 7. *)
Definition twoItems : Provider :=
  provider [(digpKey, writeLE 8 5 ++ writeLE 8 7);
            (actorIndex 5, itemRecord 5);
            (actorIndex 7, itemRecord 7)] [].

Lemma SaveEntities_removes_stale_witness :
  exists db',
    SaveEntities sampleType origin [Item 7] Overworld twoItems
      = Return (None, db') ∧
    kv (ldb db') !! actorIndex 5 = None ∧
    kv (ldb db') !! digpKey = Some (writeLE 8 7).
Proof.
  destruct (EntityRoundTripFacts.SaveEntities_removes_stale sampleType origin
              [Item 7] Overworld twoItems (writeLE 8 5 ++ writeLE 8 7)
              [5; 7] [7])
    as (db' & Hsave & Hstale & Hdigp).
  - reflexivity.
  - vm_compute. reflexivity.
  - vm_compute. reflexivity.
  - vm_compute. reflexivity.
  - exists db'. split; [exact Hsave|]. split.
    + apply Hstale; [apply list_elem_of_here|].
      intros Hin. apply list_elem_of_singleton in Hin. discriminate Hin.
    + unfold digpKey. rewrite Hdigp. vm_compute. reflexivity.
Defined.

(** *** Block entities in the store *)

Definition chest : gmap string Tag := {["id" := TagString "Chest"]}.
Definition sign : gmap string Tag :=
  <["x" := TagInt32 3]> {["id" := TagString "Sign"]}.
Definition blockEntityKey : list byte :=
  index origin Overworld ++ [keyBlockEntities].

Lemma SaveBlockNBT_LoadBlockNBT_witness :
  (LoadBlockNBT origin Overworld
     (SaveBlockNBT origin [chest; sign] Overworld (provider [] [])).2).1
    = inr [chest; sign] ∧
  (LoadBlockNBT origin Overworld
     (SaveBlockNBT origin [] Overworld
        (provider [(blockEntityKey, [xff])] [])).2).1
    = inr [].
Proof.
  destruct (BlockEntityFacts.SaveBlockNBT_LoadBlockNBT origin [chest; sign]
              Overworld (provider [] []) eq_refl) as [_ Hsave].
  destruct (BlockEntityFacts.SaveBlockNBT_LoadBlockNBT origin []
              Overworld (provider [(blockEntityKey, [xff])] []) eq_refl)
    as [Hdelete _].
  split.
  - apply (Hsave (bytesOfResult (encodeBlockNBTs [chest; sign] []))).
    + discriminate.
    + vm_compute. reflexivity.
    + vm_compute. reflexivity.
  - apply Hdelete. reflexivity.
Defined.

(** *** Player data in the store *)

Definition steve : string := "123e4567-e89b-12d3-a456-426614174000".

Definition steveRecord : list byte :=
  bytesOfResult
    (marshalPlayerData LittleEndian
       {| UUID := steve; ServerID := "player_server_" +:+ steve;
          SelfSignedID := EmptyString |}).

Lemma SavePlayerSpawnPosition_new_witness :
  LoadPlayerSpawnPosition steve (provider [] [])
  = Return ({| sp_pos := (0, 0, 0); sp_exists := false; sp_err := None |},
            provider [] [])
  ∧
  exists db1,
    SavePlayerSpawnPosition steve (10, 64, -5) (provider [] [])
      = Return (None, db1) ∧
    LoadPlayerSpawnPosition steve db1
      = Return ({| sp_pos := (10, 64, -5); sp_exists := true;
                   sp_err := None |}, db1).
Proof.
  destruct (PlayerFacts.SavePlayerSpawnPosition_new steve (10, 64, -5)
              (provider [] []) steveRecord
              (bytesOfResult
                 (marshalMap LittleEndian
                    (Some (PlayerFacts.withSpawn (10, 64, -5) ∅)))))
    as (Hbefore & db1 & Hsave & _ & _ & Hload).
  - reflexivity.
  - reflexivity.
  - vm_compute. reflexivity.
  - vm_compute. reflexivity.
  - vm_compute. reflexivity.
  - vm_compute. reflexivity.
  - split; [exact Hbefore|]. exists db1. split; [exact Hsave|exact Hload].
Defined.

(** The server data of a player with a name and a spawn position. *)
Definition steveData : gmap string Tag :=
  <["Name" := TagString "Steve"]>
    (<["SpawnX" := TagInt32 1]>
       (<["SpawnY" := TagInt32 2]> {["SpawnZ" := TagInt32 3]})).

Definition knownPlayer : Provider :=
  provider [(bytesOf ("player_" +:+ steve), steveRecord);
            (bytesOf ("player_server_" +:+ steve),
             bytesOfResult (marshalMap LittleEndian (Some steveData)))] [].

Lemma SavePlayerSpawnPosition_update_witness :
  exists db1,
    SavePlayerSpawnPosition steve (10, 64, -5) knownPlayer
      = Return (None, db1) ∧
    (LoadPlayerData steve db1).1
      = {| pd_serverData :=
             Some (<["Name" := TagString "Steve"]>
                     (PlayerFacts.withSpawn (10, 64, -5) ∅));
           pd_key := "player_server_" +:+ steve; pd_exists := true;
           pd_err := None |} ∧
    LoadPlayerSpawnPosition steve db1
      = Return ({| sp_pos := (10, 64, -5); sp_exists := true;
                   sp_err := None |}, db1).
Proof.
  destruct (PlayerFacts.SavePlayerSpawnPosition_update steve (10, 64, -5)
              knownPlayer steveRecord
              (bytesOfResult (marshalMap LittleEndian (Some steveData)))
              (bytesOfResult
                 (marshalMap LittleEndian
                    (Some (PlayerFacts.withSpawn (10, 64, -5) steveData))))
              {| UUID := steve; ServerID := "player_server_" +:+ steve;
                 SelfSignedID := EmptyString |}
              steveData)
    as (db1 & Hsave & _ & Hdata & Hload).
  - reflexivity.
  - vm_compute. reflexivity.
  - vm_compute. reflexivity.
  - reflexivity.
  - discriminate.
  - intros Heq. vm_compute in Heq. discriminate Heq.
  - vm_compute. reflexivity.
  - vm_compute. reflexivity.
  - vm_compute. reflexivity.
  - vm_compute. reflexivity.
  - exists db1. split; [exact Hsave|]. split; [|exact Hload].
    rewrite Hdata. vm_compute. reflexivity.
Defined.

Lemma SavePlayerSpawnPosition_nil_map_witness :
  SavePlayerSpawnPosition steve (10, 64, -5)
    (provider [] [Some "io error"; None])
  = Panic "assignment to entry in nil map".
Proof.
  apply (PlayerFacts.SavePlayerSpawnPosition_nil_map steve (10, 64, -5)
           (provider [] [Some "io error"; None]) "io error" []).
  - reflexivity.
  - reflexivity.
Defined.

(** *** Sorted and batch registration *)

Section SortedRegistration.
Import SortedRegistry.

Lemma registerBlockState_order_witness :
  registerBlockState SampleSort.fnv64 SampleSort.insertionSort
    SampleSort.water true SampleSort.twoBlocks
  = (r ← registerBlockState SampleSort.fnv64 SampleSort.insertionSort
           SampleSort.water false SampleSort.twoBlocks;
     Return (SortedRegistryFacts.withHashes r
               (<[-1 := 2]> (hashes SampleSort.twoBlocks)))).
Proof.
  apply (SortedRegistryFacts.registerBlockState_order SampleSort.fnv64
           SampleSort.insertionSort SampleSort.insertionSort_equal
           SampleSort.water SampleSort.twoBlocks).
  apply SampleSort.consistent_twoBlocks.
Defined.

Lemma registerBlockStates_sequential_witness :
  registerBlockStates SampleSort.fnv64 SampleSort.insertionSort
    [SampleSort.water; SampleSort.dirt] SampleSort.twoBlocks
  = Return (SortedRegistryFacts.batched SampleSort.fourBlocksEach
              SampleSort.twoBlocks) ∧
  WaterBlocks SampleSort.fourBlocksEach = [2] ∧
  WaterBlocks (SortedRegistryFacts.batched SampleSort.fourBlocksEach
                 SampleSort.twoBlocks) = [].
Proof.
  split; [|split; vm_compute; reflexivity].
  apply (SortedRegistryFacts.registerBlockStates_sequential SampleSort.fnv64
           SampleSort.insertionSort SampleSort.insertionSort_equal
           [SampleSort.water; SampleSort.dirt] SampleSort.twoBlocks).
  - apply SampleSort.consistent_twoBlocks.
  - vm_compute. reflexivity.
  - vm_compute. reflexivity.
Defined.

Lemma registry_lookups_inverse_witness :
  (exists properties',
     RuntimeIDToState SampleSort.fourBlocks 2
     = Return ("minecraft:water", properties', true) ∧
     hashProperties properties'
     = hashProperties (makeMap [("liquid_depth", VInt32 0)])) ∧
  StateToRuntimeID SampleSort.fourBlocks "minecraft:stone"
    (makeMap [("stone_type", VString "granite")])
  = Return (1, true).
Proof.
  destruct (SortedRegistryFacts.registry_lookups_inverse SampleSort.fnv64
              SampleSort.insertionSort SampleSort.insertionSort_equal
              SortedRegistryFacts.noBlocks SampleSort.fourBlocks)
    as [Hstate Hid].
  - apply SortedRegistryFacts.consistent_noBlocks.
  - apply (SortedRegistryFacts.extends_batch _ _ _
             [SampleSort.water; SampleSort.dirt] SampleSort.orderedBlocks);
      [|vm_compute; reflexivity].
    apply (SortedRegistryFacts.extends_one _ _ _ SampleSort.stone true
             SampleSort.oneBlock); [|vm_compute; reflexivity].
    apply (SortedRegistryFacts.extends_one _ _ _ SampleSort.air false
             SortedRegistryFacts.noBlocks); [|vm_compute; reflexivity].
    apply SortedRegistryFacts.extends_base.
  - vm_compute. reflexivity.
  - split.
    + apply Hstate. vm_compute. reflexivity.
    + apply Hid; [lia|]. vm_compute. reflexivity.
Defined.

End SortedRegistration.

End Examples.
